(** * Optics MCP: token matching and value transformation

    A shallow embedding of the token engine of the Optics MCP server
    (utils/css-parser.ts, utils/color.ts, tools/validate.ts,
    tools/migration.ts, tools/replace.ts, tools/accessibility.ts,
    tools/theme-generator.ts and the static catalog of optics-data.ts),
    followed by the properties established about it.

    Conventions of the embedding.
    - A JavaScript string is a [string]: a sequence of 8-bit characters.
      The model covers ASCII text; [toLowerCase], [\s] and [\b] act on the
      ASCII range only.
    - A JavaScript number is a [num]: a rational, one of the two
      infinities, or NaN; negative zero is identified with zero.  The
      arithmetic is the one of the language: [add64], [sub64], [mul64]
      and [div64] round the exact result ([add], [sub], [mul], [div]) to
      the nearest binary64 number, ties to even, with overflow to an
      infinity, and a decimal literal, [parseFloat] and [parseInt] round
      the value they denote in the same way.  [Math.pow] is left
      abstract.
    - A regular expression is a value of [regex], run by a backtracking
      matcher that follows the order of the ECMAScript one (alternatives
      left to right, greedy quantifiers, leftmost match). *)

From Stdlib Require Import List String Ascii Bool Arith ZArith QArith Qabs Qround.
From Stdlib Require Import Qpower.
From Stdlib Require Import Lia Lqa Permutation Sorted.
From Stdlib Require Import Numbers.DecimalString.
From Stdlib Require Numbers.HexadecimalString.
Import ListNotations.

Open Scope string_scope.
Open Scope list_scope.

(* ================================================================== *)
(** ** JavaScript strings *)
(* ================================================================== *)

Module JsString.

Definition code (c : ascii) : nat := nat_of_ascii c.

Definition in_range (lo hi : nat) (c : ascii) : bool :=
  (lo <=? code c)%nat && (code c <=? hi)%nat.

Definition is_upper (c : ascii) : bool := in_range 65 90 c.
Definition is_lower (c : ascii) : bool := in_range 97 122 c.
Definition is_digit (c : ascii) : bool := in_range 48 57 c.

(** [0-9a-fA-F] *)
Definition is_hex (c : ascii) : bool :=
  is_digit c || in_range 97 102 c || in_range 65 70 c.

(** [\s]: tab, line feed, vertical tab, form feed, carriage return,
    space. *)
Definition is_space (c : ascii) : bool :=
  in_range 9 13 c || (code c =? 32)%nat.

(** [\w]: letters, digits and the underscore. *)
Definition is_word (c : ascii) : bool :=
  is_upper c || is_lower c || is_digit c || (code c =? 95)%nat.

Definition lower (c : ascii) : ascii :=
  if is_upper c then ascii_of_nat (code c + 32) else c.

Definition upper (c : ascii) : ascii :=
  if is_lower c then ascii_of_nat (code c - 32) else c.

Definition chars (s : string) : list ascii := list_ascii_of_string s.
Definition str (l : list ascii) : string := string_of_list_ascii l.

(** [s.toLowerCase()] *)
Definition toLowerCase (s : string) : string := str (map lower (chars s)).

(** [s.replace(/\s+/g, '')]: every run of white space is removed. *)
Definition stripSpaces (s : string) : string :=
  str (filter (fun c => negb (is_space c)) (chars s)).

Fixpoint dropSpaces (l : list ascii) : list ascii :=
  match l with
  | c :: rest => if is_space c then dropSpaces rest else l
  | [] => []
  end.

(** [s.trim()] *)
Definition trim (s : string) : string :=
  str (rev (dropSpaces (rev (dropSpaces (chars s))))).

Fixpoint prefixb (p l : list ascii) : bool :=
  match p, l with
  | [], _ => true
  | a :: p', b :: l' => Ascii.eqb a b && prefixb p' l'
  | _ :: _, [] => false
  end.

(** [s.startsWith(p)] *)
Definition startsWith (s p : string) : bool := prefixb (chars p) (chars s).

Fixpoint infixb (p l : list ascii) : bool :=
  prefixb p l || match l with
                 | [] => false
                 | _ :: l' => infixb p l'
                 end.

(** [s.includes(p)] *)
Definition includes (s p : string) : bool := infixb (chars p) (chars s).

(** [s.substring(a, b)] for [a <= b]; both ends are clamped to the
    length of [s]. *)
Definition substring (a b : nat) (s : string) : string :=
  str (firstn (b - a) (skipn a (chars s))).

Fixpoint removeFirst (x : ascii) (l : list ascii) : list ascii :=
  match l with
  | [] => []
  | c :: rest => if Ascii.eqb c x then rest else c :: removeFirst x rest
  end.

(** [s.replace('#', '')]: a string pattern replaces its first
    occurrence only. *)
Definition removeFirstHash (s : string) : string :=
  str (removeFirst "#"%char (chars s)).

(** [s.replace(/^#/, '')] *)
Definition removeLeadingHash (s : string) : string :=
  match s with
  | String "#" rest => rest
  | _ => s
  end.

(** [String(z)] for an integral number. *)
Definition ofZ (z : Z) : string := NilZero.string_of_int (Z.to_int z).

(** The truth value of a string or [null]: [null] and the empty string
    are false. *)
Definition truthy (o : option string) : bool :=
  match o with
  | Some s => negb (String.eqb s "")
  | None => false
  end.

End JsString.

(* ================================================================== *)
(** ** JavaScript numbers *)
(* ================================================================== *)

Module JsNumber.
Import JsString.

Inductive num : Type :=
| Fin (q : Q)
| PInf
| NInf
| NaN.

(** The numbers produced by [parseInt] and [Math.round]. *)
Inductive integral : Type :=
| Int (z : Z)
| IPInf
| INInf
| INaN.

Definition toNum (i : integral) : num :=
  match i with
  | Int z => Fin (inject_Z z)
  | IPInf => PInf
  | INInf => NInf
  | INaN => NaN
  end.

Definition isNaN (i : integral) : bool :=
  match i with INaN => true | _ => false end.

Definition Qlt_bool (x y : Q) : bool := negb (Qle_bool y x).

Definition neg (a : num) : num :=
  match a with
  | Fin x => Fin (- x)
  | PInf => NInf
  | NInf => PInf
  | NaN => NaN
  end.

Definition add (a b : num) : num :=
  match a, b with
  | NaN, _ | _, NaN => NaN
  | Fin x, Fin y => Fin (x + y)
  | PInf, NInf | NInf, PInf => NaN
  | PInf, _ | _, PInf => PInf
  | NInf, _ | _, NInf => NInf
  end.

Definition sub (a b : num) : num := add a (neg b).

(** The infinity with the sign of [x], for [x] not zero. *)
Definition inf_of_sign (x : Q) : num :=
  if Qlt_bool 0 x then PInf else NInf.

Definition mul (a b : num) : num :=
  match a, b with
  | NaN, _ | _, NaN => NaN
  | Fin x, Fin y => Fin (x * y)
  | Fin x, PInf | PInf, Fin x =>
      if Qeq_bool x 0 then NaN else inf_of_sign x
  | Fin x, NInf | NInf, Fin x =>
      if Qeq_bool x 0 then NaN else inf_of_sign (- x)
  | PInf, PInf | NInf, NInf => PInf
  | PInf, NInf | NInf, PInf => NInf
  end.

Definition div (a b : num) : num :=
  match a, b with
  | NaN, _ | _, NaN => NaN
  | Fin x, Fin y =>
      if Qeq_bool y 0
      then (if Qeq_bool x 0 then NaN else inf_of_sign x)
      else Fin (x / y)
  | Fin _, (PInf | NInf) => Fin 0
  | (PInf | NInf), (PInf | NInf) => NaN
  | PInf, Fin y => if Qlt_bool y 0 then NInf else PInf
  | NInf, Fin y => if Qlt_bool y 0 then PInf else NInf
  end.

(** ** Rounding to binary64

    A Number is a rational of the form [m * 2^e] with [|m| < 2^53] and
    [-1074 <= e <= 971], an infinity or NaN.  Every operation of the
    language returns the Number nearest to the exact result. *)

(** The nearest integer, a tie going to the even one. *)
Definition nearestEven (q : Q) : Z :=
  let f := Qfloor q in
  match Qcompare (q - inject_Z f) (1 # 2) with
  | Lt => f
  | Gt => (f + 1)%Z
  | Eq => if Z.even f then f else (f + 1)%Z
  end.

(** The integer [k] with [2^k <= q < 2^(k+1)], for [q] positive. *)
Definition ilog2 (q : Q) : Z :=
  let k := (Z.log2 (Qnum q) - Z.log2 (Zpos (Qden q)))%Z in
  if Qle_bool (2 ^ k) q then k else (k - 1)%Z.

(** The exponent of the last place of a positive binary64 number: 53
    significant bits, and no exponent below -1074. *)
Definition expo64 (q : Q) : Z := Z.max (ilog2 q - 52) (-1074).

(** A positive number rounded to 53 significant bits. *)
Definition roundMagnitude (q : Q) : Q :=
  let e := expo64 q in inject_Z (nearestEven (q / 2 ^ e)) * 2 ^ e.

(** Rounding to the nearest binary64 number, ties to even, before any
    overflow. *)
Definition round64 (q : Q) : Q :=
  match Qcompare q 0 with
  | Eq => 0
  | Gt => Qred (roundMagnitude q)
  | Lt => Qred (- roundMagnitude (- q))
  end.

(** The Number for a mathematical value: the rounded value, or an
    infinity when the rounded value is [2^1024] or more in magnitude. *)
Definition toBinary64 (a : num) : num :=
  match a with
  | Fin q =>
      let r := round64 q in
      if Qle_bool (2 ^ 1024) (Qabs r) then inf_of_sign r else Fin r
  | _ => a
  end.

(** [a + b], [a - b], [a * b] and [a / b]. *)
Definition add64 (a b : num) : num := toBinary64 (add a b).
Definition sub64 (a b : num) : num := toBinary64 (sub a b).
Definition mul64 (a b : num) : num := toBinary64 (mul a b).
Definition div64 (a b : num) : num := toBinary64 (div a b).

(** The Number a decimal literal of the source denotes. *)
Definition literal (q : Q) : num := toBinary64 (Fin q).

(** [a < b] *)
Definition lt (a b : num) : bool :=
  match a, b with
  | NaN, _ | _, NaN => false
  | Fin x, Fin y => Qlt_bool x y
  | _, NInf | PInf, _ => false
  | NInf, _ | _, PInf => true
  end.

(** [a <= b] *)
Definition le (a b : num) : bool :=
  match a, b with
  | NaN, _ | _, NaN => false
  | Fin x, Fin y => Qle_bool x y
  | NInf, _ | _, PInf => true
  | _, NInf | PInf, _ => false
  end.

Definition gt (a b : num) : bool := lt b a.
Definition ge (a b : num) : bool := le b a.

(** [a === b] *)
Definition strictEq (a b : num) : bool :=
  match a, b with
  | Fin x, Fin y => Qeq_bool x y
  | PInf, PInf | NInf, NInf => true
  | _, _ => false
  end.

(** [Math.max(a, b)] and [Math.min(a, b)] *)
Definition max (a b : num) : num :=
  match a, b with
  | NaN, _ | _, NaN => NaN
  | _, _ => if lt a b then b else a
  end.

Definition min (a b : num) : num :=
  match a, b with
  | NaN, _ | _, NaN => NaN
  | _, _ => if lt b a then b else a
  end.

(** [Math.abs(a)] *)
Definition abs (a : num) : num :=
  match a with
  | Fin x => Fin (Qabs x)
  | PInf | NInf => PInf
  | NaN => NaN
  end.

(** [Math.round(a)]: the nearest integer, a tie going up. *)
Definition round (a : num) : integral :=
  match a with
  | Fin x => Int (Qfloor (x + (1 # 2)))
  | PInf => IPInf
  | NInf => INInf
  | NaN => INaN
  end.

(** [String(i)] *)
Definition toString (i : integral) : string :=
  match i with
  | Int z => JsString.ofZ z
  | IPInf => "Infinity"
  | INInf => "-Infinity"
  | INaN => "NaN"
  end.


(** The Number for an integer.  An integer below [2^53] in magnitude is
    a binary64 number; a larger one is rounded, to an integer again or
    to an infinity. *)
Definition integer64 (z : Z) : integral :=
  if (Z.abs z <? 2 ^ 53)%Z then Int z
  else match toBinary64 (Fin (inject_Z z)) with
       | Fin q => Int (Qfloor q)
       | PInf => IPInf
       | NInf => INInf
       | NaN => INaN
       end.

(** The value of a digit in [0-9a-zA-Z]. *)
Definition digitValue (c : ascii) : option Z :=
  if is_digit c then Some (Z.of_nat (code c - 48))
  else if is_lower c then Some (Z.of_nat (code c - 87))
  else if is_upper c then Some (Z.of_nat (code c - 55))
  else None.

(** The longest prefix of digits of the radix: the digits read so far
    ([None] when there is none yet) and the rest of the input. *)
Fixpoint readDigits (radix : Z) (acc : option Z) (l : list ascii)
  : option Z * list ascii :=
  match l with
  | c :: rest =>
      match digitValue c with
      | Some d =>
          if (d <? radix)%Z
          then readDigits radix
                 (Some (match acc with Some a => a * radix + d | None => d end)%Z)
                 rest
          else (acc, l)
      | None => (acc, l)
      end
  | [] => (acc, l)
  end.

Definition readSign (l : list ascii) : bool * list ascii :=
  match l with
  | "-"%char :: rest => (true, rest)
  | "+"%char :: rest => (false, rest)
  | _ => (false, l)
  end.

(** [parseInt(s, radix)] for a radix that is [undefined] ([None]), 10 or
    16: leading white space is skipped, then come an optional sign, an
    optional [0x] (unless the radix is 10) and the longest run of
    digits; what follows is ignored.  No digit at all gives NaN.  The
    integer read is returned as a Number. *)
Definition parseInt (s : string) (radix : option Z) : integral :=
  let '(negative, l) := readSign (dropSpaces (chars s)) in
  let hexPrefix :=
    match l with
    | "0"%char :: x :: _ => Ascii.eqb (lower x) "x"
    | _ => false
    end in
  let strip :=
    match radix with Some r => (r =? 16)%Z | None => true end in
  let '(r, l) :=
    if strip && hexPrefix then (16%Z, skipn 2 l)
    else (match radix with Some r => r | None => 10%Z end, l) in
  match fst (readDigits r None l) with
  | Some v => integer64 (if negative then (- v)%Z else v)
  | None => INaN
  end.

Definition pow10 (e : Z) : Q :=
  if (0 <=? e)%Z then inject_Z (10 ^ e) else 1 / inject_Z (10 ^ (- e)).

(** [parseFloat(s)]: leading white space is skipped, then comes the
    longest prefix that is a decimal literal: an optional sign followed
    by [Infinity] or by digits with an optional fraction and an
    optional exponent; what follows is ignored. *)
Definition parseFloat (s : string) : num :=
  let '(negative, l) := readSign (dropSpaces (chars s)) in
  let signed (x : Q) := toBinary64 (Fin (if negative then - x else x)) in
  if prefixb (chars "Infinity") l then (if negative then NInf else PInf)
  else
    let '(ip, l1) := readDigits 10 None l in
    let '(fp, l2) :=
      match l1 with
      | "."%char :: rest =>
          let '(f, l2) := readDigits 10 None rest in
          (option_map
             (fun v => inject_Z v
                       * pow10 (- Z.of_nat (List.length rest - List.length l2)))
             f, l2)
      | _ => (None, l1)
      end in
    let mantissa : option Q :=
      match ip, fp with
      | Some i, Some f => Some (inject_Z i + f)
      | Some i, None => Some (inject_Z i)
      | None, Some f => Some f
      | None, None => None
      end in
    let exponent : Z :=
      match l2 with
      | e :: rest =>
          if Ascii.eqb (lower e) "e"
          then let '(eneg, rest') := readSign rest in
               match fst (readDigits 10 None rest') with
               | Some v => if eneg then (- v)%Z else v
               | None => 0%Z
               end
          else 0%Z
      | [] => 0%Z
      end in
    match mantissa with
    | Some m => signed (m * pow10 exponent)
    | None => NaN
    end.

End JsNumber.

(* ================================================================== *)
(** ** Regular expressions *)
(* ================================================================== *)

Module Regex.
Import JsString.

Inductive regex : Type :=
| Eps
| Chr (p : ascii -> bool)      (* a literal, an escape or a class *)
| Seq (r1 r2 : regex)
| Alt (r1 r2 : regex)
| Star (r : regex)             (* greedy [r*] *)
| Group (n : nat) (r : regex)  (* capturing group number [n] *)
| Bol                          (* [^] *)
| Eol                          (* [$] *)
| WordB.                       (* [\b] *)

(** The matcher state: the input already passed (most recent character
    first), the input still ahead, and the captures made so far. *)
Record mstate : Type := MState {
  before : list ascii;
  after : list ascii;
  caps : list (nat * list ascii)
}.

Definition advance (c : ascii) (rest : list ascii) (st : mstate) : mstate :=
  MState (c :: before st) rest (caps st).

Definition capture (n : nat) (st0 st1 : mstate) : mstate :=
  MState (before st1) (after st1)
    ((n, firstn (List.length (after st0) - List.length (after st1)) (after st0))
       :: caps st1).

Definition at_word_boundary (st : mstate) : bool :=
  xorb (match before st with c :: _ => is_word c | [] => false end)
       (match after st with c :: _ => is_word c | [] => false end).

(** Backtracking matcher in continuation-passing style: [rmatch r st k]
    matches [r] at [st] and hands every way of doing so to [k], in the
    matcher's priority order, until [k] accepts one.  An iteration of
    [Star] that consumes nothing is rejected. *)
Fixpoint rmatch (r : regex) (st : mstate) (k : mstate -> option mstate)
  {struct r} : option mstate :=
  match r with
  | Eps => k st
  | Chr p =>
      match after st with
      | c :: rest => if p c then k (advance c rest st) else None
      | [] => None
      end
  | Seq r1 r2 => rmatch r1 st (fun st1 => rmatch r2 st1 k)
  | Alt r1 r2 =>
      match rmatch r1 st k with
      | Some x => Some x
      | None => rmatch r2 st k
      end
  | Star r1 =>
      (fix loop (n : nat) (st : mstate) {struct n} : option mstate :=
         match n with
         | O => k st
         | S n' =>
             match rmatch r1 st
                     (fun st1 =>
                        if (List.length (after st1) <? List.length (after st))%nat
                        then loop n' st1 else None) with
             | Some x => Some x
             | None => k st
             end
         end) (List.length (after st)) st
  | Group n r1 => rmatch r1 st (fun st1 => k (capture n st st1))
  | Bol => match before st with [] => k st | _ :: _ => None end
  | Eol => match after st with [] => k st | _ :: _ => None end
  | WordB => if at_word_boundary st then k st else None
  end.

(** A successful match: the text of the whole match, the state it ends
    in. *)
Record rmatched : Type := RMatched {
  m_text : list ascii;
  m_end : mstate
}.

Definition m_group (n : nat) (m : rmatched) : option string :=
  option_map (fun p => str (snd p))
    (find (fun p => (fst p =? n)%nat) (caps (m_end m))).

(** Leftmost match at or after the current position. *)
Fixpoint search (r : regex) (bef aft : list ascii) {struct aft}
  : option rmatched :=
  match rmatch r (MState bef aft []) Some with
  | Some st =>
      Some (RMatched (firstn (List.length aft - List.length (after st)) aft) st)
  | None =>
      match aft with
      | [] => None
      | c :: rest => search r (c :: bef) rest
      end
  end.

(** [r.test(s)] for a regular expression without the [g] flag. *)
Definition test (r : regex) (s : string) : bool :=
  match search r [] (chars s) with Some _ => true | None => false end.

(** [s.match(r)] for a regular expression without the [g] flag. *)
Definition matchOnce (r : regex) (s : string) : option rmatched :=
  search r [] (chars s).

(** [while ((match = r.exec(s)) !== null) ...] for a regular expression
    with the [g] flag: the successive matches, each search starting
    where the previous match ended ([lastIndex]).  When a match is
    empty [lastIndex] does not move and the source loop never ends:
    the result is then [None]. *)
Fixpoint execLoop (fuel : nat) (r : regex) (bef aft : list ascii)
  : option (list rmatched) :=
  match fuel with
  | O => None
  | S fuel' =>
      match search r bef aft with
      | None => Some []
      | Some m =>
          if (List.length (after (m_end m)) <? List.length aft)%nat
          then option_map (cons m)
                 (execLoop fuel' r (before (m_end m)) (after (m_end m)))
          else None
      end
  end.

Definition execAll (r : regex) (s : string) : option (list rmatched) :=
  execLoop (S (String.length s)) r [] (chars s).

(** *** Building patterns *)

Definition lit (c : ascii) : regex := Chr (Ascii.eqb c).

(** A literal character under the [i] flag. *)
Definition lit_ci (c : ascii) : regex :=
  Chr (fun x => Ascii.eqb (upper x) (upper c)).

Fixpoint seq_of (f : ascii -> regex) (l : list ascii) : regex :=
  match l with
  | [] => Eps
  | [c] => f c
  | c :: rest => Seq (f c) (seq_of f rest)
  end.

Definition text (s : string) : regex := seq_of lit (chars s).
Definition text_ci (s : string) : regex := seq_of lit_ci (chars s).

Fixpoint alts (l : list regex) : regex :=
  match l with
  | [] => Chr (fun _ => false)
  | [r] => r
  | r :: rest => Alt r (alts rest)
  end.

Fixpoint seqs (l : list regex) : regex :=
  match l with
  | [] => Eps
  | [r] => r
  | r :: rest => Seq r (seqs rest)
  end.

Definition opt (r : regex) : regex := Alt r Eps.
Definition plus (r : regex) : regex := Seq r (Star r).

Fixpoint upto (n : nat) (r : regex) : regex :=
  match n with
  | O => Eps
  | S n' => Alt (Seq r (upto n' r)) Eps
  end.

Fixpoint exactly (n : nat) (r : regex) (tail : regex) : regex :=
  match n with
  | O => tail
  | S n' => Seq r (exactly n' r tail)
  end.

(** [r{lo,hi}], greedy. *)
Definition repeat (lo hi : nat) (r : regex) : regex :=
  exactly lo r (upto (hi - lo) r).

(** A class [[...]] given by its members, under the [i] flag. *)
Definition class_ci (members : ascii -> bool) : regex :=
  Chr (fun c => members c || members (upper c) || members (lower c)).

Definition digit : regex := Chr is_digit.
Definition space : regex := Chr is_space.

(** The least number of characters a match of [r] consumes. *)
Fixpoint min_len (r : regex) : nat :=
  match r with
  | Chr _ => 1
  | Seq r1 r2 => min_len r1 + min_len r2
  | Alt r1 r2 => Nat.min (min_len r1) (min_len r2)
  | Group _ r1 => min_len r1
  | Eps | Star _ | Bol | Eol | WordB => 0
  end.

End Regex.

(* ================================================================== *)
(** ** The catalog (optics-data.ts) *)
(* ================================================================== *)

Module DesignToken.
Record DesignToken : Type := Token {
  name : string;
  value : string;
  category : string;
  description : option string
}.
End DesignToken.
Export DesignToken.

(* ================================================================== *)
(** ** utils/css-parser.ts *)
(* ================================================================== *)

Module CssParser.
Import JsString Regex.

Inductive CSSType : Type :=
| color | spacing | font_size | font_weight | font_family
| border_radius | shadow | unknown.

Record CSSValue : Type := CssValue {
  type : CSSType;
  cvalue : string;
  line : option nat;
  property : option string
}.

Definition group_text (n : nat) (m : rmatched) : string :=
  match m_group n m with Some s => s | None => "" end.

(** [/#[0-9a-fA-F]{3,6}\b/g] *)
Definition hexRegex : regex :=
  seqs [lit "#"; repeat 3 6 (Chr is_hex); WordB].

(** [/rgba?\([^)]+\)/g] *)
Definition rgbRegex : regex :=
  seqs [text "rgb"; opt (lit "a"); lit "(";
        plus (Chr (fun c => negb (Ascii.eqb c ")"))); lit ")"].

Definition extractColors (css : string) : option (list CSSValue) :=
  match execAll hexRegex css, execAll rgbRegex css with
  | Some hs, Some rs =>
      Some (map (fun m => CssValue color (str (m_text m)) None None) hs
            ++ map (fun m => CssValue color (str (m_text m)) None None) rs)
  | _, _ => None
  end.

Definition spacingProps : list string :=
  ["padding"; "margin"; "gap"; "width"; "height"; "top"; "bottom";
   "left"; "right"].

(** [(?:px|rem|em)] under the [i] flag. *)
Definition units : regex := alts [text_ci "px"; text_ci "rem"; text_ci "em"].

(** [new RegExp(`(${spacingProps.join('|')}):\\s*([\\d.]+(?:px|rem|em))`,
    'gi')]: in the template string [\\d] is the escape [\d], so the
    class holds the digits and the dot. *)
Definition spacingRegex : regex :=
  seqs [Group 1 (alts (map text_ci spacingProps)); lit ":"; Star space;
        Group 2 (Seq (plus (class_ci (fun c => is_digit c || Ascii.eqb c ".")))
                     units)].

Definition extractSpacing (css : string) : option (list CSSValue) :=
  option_map
    (map (fun m => CssValue spacing (group_text 2 m) None (m_group 1 m)))
    (execAll spacingRegex css).

(** The class [[\\d.]] of a regular-expression literal: a backslash, the
    letter d and the dot (and, under the [i] flag, the letter D). *)
Definition backslash_d_dot : regex :=
  class_ci (fun c => Ascii.eqb c "\" || Ascii.eqb c "d" || Ascii.eqb c ".").

(** [/font-size:\s*([\\d.]+(?:px|rem|em))/gi] *)
Definition fontSizeRegex : regex :=
  seqs [text_ci "font-size:"; Star space;
        Group 1 (Seq (plus backslash_d_dot) units)].

Definition extractFontSizes (css : string) : option (list CSSValue) :=
  option_map
    (map (fun m => CssValue font_size (group_text 1 m) None (Some "font-size")))
    (execAll fontSizeRegex css).

(** [/font-weight:\s*(\\d{3}|normal|bold|lighter|bolder)/gi]: the first
    alternative is a backslash followed by three letters d. *)
Definition fontWeightRegex : regex :=
  seqs [text_ci "font-weight:"; Star space;
        Group 1 (alts [Seq (lit "\") (repeat 3 3 (lit_ci "d"));
                       text_ci "normal"; text_ci "bold";
                       text_ci "lighter"; text_ci "bolder"])].

Definition extractFontWeights (css : string) : option (list CSSValue) :=
  option_map
    (map (fun m =>
            CssValue font_weight (group_text 1 m) None (Some "font-weight")))
    (execAll fontWeightRegex css).

Definition not_semicolon : regex := Chr (fun c => negb (Ascii.eqb c ";")).

(** [/font-family:\s*([^;]+)/gi] *)
Definition fontFamilyRegex : regex :=
  seqs [text_ci "font-family:"; Star space; Group 1 (plus not_semicolon)].

Definition extractFontFamilies (css : string) : option (list CSSValue) :=
  option_map
    (map (fun m =>
            CssValue font_family (trim (group_text 1 m)) None
              (Some "font-family")))
    (execAll fontFamilyRegex css).

(** [/border-radius:\s*([\\d.]+(?:px|rem|em|%))/gi] *)
Definition borderRadiusRegex : regex :=
  seqs [text_ci "border-radius:"; Star space;
        Group 1 (Seq (plus backslash_d_dot)
                     (alts [text_ci "px"; text_ci "rem"; text_ci "em";
                            lit "%"]))].

Definition extractBorderRadius (css : string) : option (list CSSValue) :=
  option_map
    (map (fun m =>
            CssValue border_radius (group_text 1 m) None
              (Some "border-radius")))
    (execAll borderRadiusRegex css).

(** [/box-shadow:\s*([^;]+)/gi] *)
Definition boxShadowRegex : regex :=
  seqs [text_ci "box-shadow:"; Star space; Group 1 (plus not_semicolon)].

Definition extractShadows (css : string) : option (list CSSValue) :=
  option_map
    (map (fun m =>
            CssValue shadow (trim (group_text 1 m)) None (Some "box-shadow")))
    (execAll boxShadowRegex css).

Definition concatAll {A : Type} (parts : list (option (list A)))
  : option (list A) :=
  fold_right
    (fun p acc =>
       match p, acc with
       | Some l, Some ls => Some (l ++ ls)
       | _, _ => None
       end)
    (Some []) parts.

Definition extractAllValues (css : string) : option (list CSSValue) :=
  concatAll
    [extractColors css; extractSpacing css; extractFontSizes css;
     extractFontWeights css; extractFontFamilies css;
     extractBorderRadius css; extractShadows css].

Definition normalizeValue (v : string) : string :=
  stripSpaces (toLowerCase v).

(** The [for ... of] loop with its early [return]. *)
Fixpoint findMatchingToken (v : string) (tokens : list DesignToken)
  : option string :=
  match tokens with
  | [] => None
  | token :: rest =>
      if String.eqb (normalizeValue (value token)) (normalizeValue v)
      then Some (name token)
      else findMatchingToken v rest
  end.

Definition CSSType_eqb (a b : CSSType) : bool :=
  match a, b with
  | color, color
  | spacing, spacing
  | font_size, font_size
  | font_weight, font_weight
  | font_family, font_family
  | border_radius, border_radius
  | shadow, shadow
  | unknown, unknown => true
  | _, _ => false
  end.

(** [if (!grouped[value.type]) grouped[value.type] = [];
     grouped[value.type].push(value)]: the object is a list of keys with
    their arrays, a new key going to the end. *)
Fixpoint pushGrouped (v : CSSValue)
    (grouped : list (CSSType * list CSSValue))
  : list (CSSType * list CSSValue) :=
  match grouped with
  | [] => [(type v, [v])]
  | (k, vs) :: rest =>
      if CSSType_eqb k (type v) then (k, vs ++ [v]) :: rest
      else (k, vs) :: pushGrouped v rest
  end.

Definition groupValuesByType (values : list CSSValue)
  : list (CSSType * list CSSValue) :=
  fold_left (fun grouped v => pushGrouped v grouped) values [].

End CssParser.


(* ================================================================== *)
(** ** utils/color.ts *)
(* ================================================================== *)

Module Color.
Import JsString JsNumber Regex.

Record RGB : Type := Rgb {
  r : integral;
  g : integral;
  b : integral
}.

Inductive Score : Type := fail | AA | AAA.

Record ContrastResult : Type := Contrast {
  ratio : num;
  wcagAA : bool;
  wcagAAA : bool;
  score : Score
}.

(** [hex.split('').map(char => char + char).join('')] *)
Definition doubleChars (hex : string) : string :=
  str (flat_map (fun c => [c; c]) (chars hex)).

Definition hexToRgb (hex : string) : option RGB :=
  let hex := removeLeadingHash hex in
  let hex := if (String.length hex =? 3)%nat then doubleChars hex else hex in
  if negb (String.length hex =? 6)%nat then None
  else
    let r := parseInt (substring 0 2 hex) (Some 16%Z) in
    let g := parseInt (substring 2 4 hex) (Some 16%Z) in
    let b := parseInt (substring 4 6 hex) (Some 16%Z) in
    if isNaN r || isNaN g || isNaN b then None
    else Some (Rgb r g b).

(** [/rgba?\((\d+),\s*(\d+),\s*(\d+)/] *)
Definition rgbCallRegex : regex :=
  seqs [text "rgb"; opt (lit "a"); lit "(";
        Group 1 (plus digit); lit ","; Star space;
        Group 2 (plus digit); lit ","; Star space;
        Group 3 (plus digit)].

Definition rgbStringToRgb (rgbString : string) : option RGB :=
  match matchOnce rgbCallRegex rgbString with
  | None => None
  | Some m =>
      let group n := match m_group n m with Some s => s | None => "" end in
      Some (Rgb (parseInt (group 1%nat) None)
                (parseInt (group 2%nat) None)
                (parseInt (group 3%nat) None))
  end.

Definition parseColor (color : string) : option RGB :=
  let trimmed := trim color in
  if startsWith trimmed "#" then hexToRgb trimmed
  else if startsWith trimmed "rgb" then rgbStringToRgb trimmed
  else None.

Section Luminance.

(** [Math.pow], the one transcendental function of the engine, is
    left abstract. *)
Variable Math_pow : num -> num -> num.

Definition linearize (c : num) : num :=
  if le c (literal (3928 # 100000))
  then div64 c (literal (1292 # 100))
  else Math_pow (div64 (add64 c (literal (55 # 1000))) (literal (1055 # 1000)))
                (literal (24 # 10)).

Definition getRelativeLuminance (rgb : RGB) : num :=
  let rsRGB := div64 (toNum (r rgb)) (Fin 255) in
  let gsRGB := div64 (toNum (g rgb)) (Fin 255) in
  let bsRGB := div64 (toNum (b rgb)) (Fin 255) in
  add64 (add64 (mul64 (literal (2126 # 10000)) (linearize rsRGB))
               (mul64 (literal (7152 # 10000)) (linearize gsRGB)))
        (mul64 (literal (722 # 10000)) (linearize bsRGB)).

Definition getContrastRatio (color1 color2 : string) : option num :=
  match parseColor color1, parseColor color2 with
  | Some rgb1, Some rgb2 =>
      let l1 := getRelativeLuminance rgb1 in
      let l2 := getRelativeLuminance rgb2 in
      let lighter := max l1 l2 in
      let darker := min l1 l2 in
      Some (div64 (add64 lighter (literal (5 # 100)))
                  (add64 darker (literal (5 # 100))))
  | _, _ => None
  end.

Definition checkContrast (foreground background : string)
  : option ContrastResult :=
  match getContrastRatio foreground background with
  | None => None
  | Some ratio =>
      let wcagAA := ge ratio (Fin (45 # 10)) in
      let wcagAAA := ge ratio (Fin 7) in
      let score := if wcagAAA then AAA else if wcagAA then AA else fail in
      Some (Contrast
              (div64 (toNum (round (mul64 ratio (Fin 100)))) (Fin 100))
              wcagAA wcagAAA score)
  end.

End Luminance.



End Color.

(* ================================================================== *)
(** ** Array.prototype.sort and slice *)
(* ================================================================== *)

Module JsArray.
Import JsNumber.

Section Sort.
Context {A : Type}.

(** [cmp a b > 0] puts [a] after [b]. *)
Variable cmp : A -> A -> num.

Fixpoint insert (x : A) (l : list A) : list A :=
  match l with
  | [] => [x]
  | y :: rest =>
      if gt (cmp x y) (Fin 0) then y :: insert x rest else x :: l
  end.

(** [l.sort(cmp)]: the sort is stable.  For a comparator that is a
    consistent ordering every stable sort gives this result; for
    another comparator this is one of the results the language
    permits. *)
Definition sort (l : list A) : list A := fold_right insert [] l.

End Sort.

(** [l.slice(0, n)] *)
Definition slice0 {A : Type} (n : nat) (l : list A) : list A := firstn n l.

End JsArray.

(* ================================================================== *)
(** ** tools/validate.ts *)
(* ================================================================== *)

Module Validate.
Import JsString CssParser.

Inductive IssueType : Type :=
| hard_coded_value | missing_token | deprecated_token.

Inductive Severity : Type := error | warning | info.

Record ValidationIssue : Type := Issue {
  itype : IssueType;
  ivalue : string;
  iline : option nat;
  iproperty : option string;
  suggestion : option string;
  severity : Severity
}.

Record ValidationReport : Type := Report {
  valid : bool;
  issueCount : nat;
  issues : list ValidationIssue;
  hardCodedValues : nat;
  missingTokens : nat;
  totalChecked : nat
}.

(** The predicate of [tokens.filter(...)] in [suggestTokenForValue]. *)
Definition fitsCategory (v : CSSValue) (t : DesignToken) : bool :=
  match type v with
  | color => String.eqb (category t) "color"
  | spacing => String.eqb (category t) "spacing"
  | font_size => includes (name t) "font-size"
  | font_weight => includes (name t) "font-weight"
  | border_radius => String.eqb (category t) "border"
  | shadow => String.eqb (category t) "shadow"
  | font_family | unknown => false
  end.

Definition suggestTokenForValue (v : CSSValue) (tokens : list DesignToken)
  : string :=
  let categoryTokens := filter (fitsCategory v) tokens in
  match categoryTokens with
  | [] => "No matching tokens found"
  | closest :: _ =>
      ("Consider using token: " ++ name closest ++ " (" ++ value closest
         ++ ")")%string
  end.

Definition isHardCoded (i : ValidationIssue) : bool :=
  match itype i with hard_coded_value => true | _ => false end.

Definition validateTokenUsage (code : string) (tokens : list DesignToken)
  : option ValidationReport :=
  match extractAllValues code with
  | None => None
  | Some extractedValues =>
      let issues :=
        flat_map
          (fun v =>
             if truthy (findMatchingToken (cvalue v) tokens) then []
             else [Issue hard_coded_value (cvalue v) (line v) (property v)
                     (Some (suggestTokenForValue v tokens)) warning])
          extractedValues in
      Some (Report (List.length issues =? 0)%nat (List.length issues) issues
              (List.length (filter isHardCoded issues)) 0
              (List.length extractedValues))
  end.

End Validate.

(* ================================================================== *)
(** ** tools/migration.ts *)
(* ================================================================== *)

Module Migration.
Import JsString JsNumber Regex JsArray.

Record Suggestion : Type := Suggest {
  tokenName : string;
  tokenValue : string;
  scategory : string;
  similarity : num;
  reason : string
}.

Record MigrationSuggestion : Type := Migrated {
  inputValue : string;
  suggestedTokens : list Suggestion
}.

Inductive ValueType : Type :=
| vcolor | pixels | rem | em | font_weight | number | vshadow | vstring.

Definition ValueType_eqb (a b : ValueType) : bool :=
  match a, b with
  | vcolor, vcolor | pixels, pixels | rem, rem | em, em
  | font_weight, font_weight | number, number | vshadow, vshadow
  | vstring, vstring => true
  | _, _ => false
  end.

(** [/^#[0-9a-fA-F]{3,6}$/] *)
Definition hexOnly : regex := seqs [Bol; lit "#"; repeat 3 6 (Chr is_hex); Eol].
(** [/^rgba?\(/] *)
Definition rgbStart : regex := seqs [Bol; text "rgb"; opt (lit "a"); lit "("].
(** [/^\d+px$/], [/^\d+rem$/], [/^\d+em$/] *)
Definition digitsThen (unit : string) : regex :=
  seqs [Bol; plus digit; text unit; Eol].
(** [/^[34567]00$/] *)
Definition weightOnly : regex :=
  seqs [Bol; Chr (in_range 51 55); text "00"; Eol].
(** [/^\d+(\.\d+)?$/] *)
Definition numberOnly : regex :=
  seqs [Bol; plus digit; opt (Group 1 (Seq (lit ".") (plus digit))); Eol].
(** [/box-shadow|shadow/i] *)
Definition shadowWord : regex := Alt (text_ci "box-shadow") (text_ci "shadow").

Definition detectValueType (v : string) : ValueType :=
  if test hexOnly v || test rgbStart v then vcolor
  else if test (digitsThen "px") v then pixels
  else if test (digitsThen "rem") v then rem
  else if test (digitsThen "em") v then em
  else if test weightOnly v then font_weight
  else if test numberOnly v then number
  else if test shadowWord v then vshadow
  else vstring.

Definition calculateSimilarity (value1 value2 : string) (type : ValueType)
  : num :=
  match type with
  | vcolor =>
      if String.eqb (toLowerCase value1) (toLowerCase value2)
      then Fin 1 else Fin 0
  | pixels | rem | em =>
      let num1 := parseFloat value1 in
      let num2 := parseFloat value2 in
      let diff := abs (sub64 num1 num2) in
      let max := JsNumber.max num1 num2 in
      JsNumber.max (Fin 0) (sub64 (Fin 1) (div64 diff max))
  | font_weight =>
      let num1 := parseInt value1 None in
      let num2 := parseInt value2 None in
      if strictEq (toNum num1) (toNum num2) then Fin 1 else Fin (5 # 10)
  | number | vshadow | vstring =>
      if String.eqb value1 value2 then Fin 1 else literal (3 # 10)
  end.

Definition generateMigrationReason (oldValue : string) (token : DesignToken)
    (similarity : num) : string :=
  if strictEq similarity (Fin 1) then "Exact match"
  else if gt similarity (literal (9 # 10)) then "Very close match"
  else if gt similarity (literal (7 # 10)) then "Close match"
  else "Similar value".

(** [category ? tokens.filter(t => t.category === category) : tokens]: a
    category that is missing or empty selects every token. *)
Definition candidateTokens (tokens : list DesignToken)
    (category : option string) : list DesignToken :=
  match category with
  | Some c =>
      if String.eqb c "" then tokens
      else filter (fun t => String.eqb (DesignToken.category t) c) tokens
  | None => tokens
  end.

Definition suggestTokenMigration (oldValue : string)
    (tokens : list DesignToken) (category : option string)
  : MigrationSuggestion :=
  let valueType := detectValueType oldValue in
  let suggestions :=
    flat_map
      (fun token =>
         let tokenType := detectValueType (value token) in
         if ValueType_eqb valueType tokenType
         then
           let similarity :=
             calculateSimilarity oldValue (value token) valueType in
           if gt similarity (Fin (5 # 10))
           then [Suggest (name token) (value token)
                   (DesignToken.category token) similarity
                   (generateMigrationReason oldValue token similarity)]
           else []
         else [])
      (candidateTokens tokens category) in
  let sorted :=
    sort (fun a b => sub64 (similarity b) (similarity a)) suggestions in
  Migrated oldValue (slice0 5 sorted).

End Migration.

(* ================================================================== *)
(** ** tools/accessibility.ts *)
(* ================================================================== *)

Module Accessibility.
Import JsString JsNumber JsArray Color.

Record ContrastCheckResult : Type := Checked {
  foregroundToken : string;
  backgroundToken : string;
  foregroundValue : string;
  backgroundValue : string;
  contrast : option ContrastResult;
  passes : bool;
  recommendation : option string
}.

(** [tokens.find(t => t.name === n)] *)
Definition findByName (n : string) (tokens : list DesignToken)
  : option DesignToken :=
  find (fun t => String.eqb (name t) n) tokens.

Section WithPow.

Variable Math_pow : num -> num -> num.

Fixpoint firstPassing (colorTokens : list DesignToken)
    (backgroundValue : string) : string :=
  match colorTokens with
  | [] => "No alternative tokens found with sufficient contrast"
  | token :: rest =>
      match checkContrast Math_pow (value token) backgroundValue with
      | Some c =>
          if wcagAA c
          then ("Try using " ++ name token ++ " (" ++ value token
                  ++ ") for better contrast")%string
          else firstPassing rest backgroundValue
      | None => firstPassing rest backgroundValue
      end
  end.

Definition findBetterTokenCombination (currentToken : DesignToken)
    (allTokens : list DesignToken) (backgroundValue : string) : string :=
  let colorTokens :=
    filter (fun t => String.eqb (category t) "color") allTokens in
  firstPassing colorTokens backgroundValue.

Definition checkTokenContrast (foregroundToken backgroundToken : string)
    (tokens : list DesignToken) : ContrastCheckResult :=
  match findByName foregroundToken tokens,
        findByName backgroundToken tokens with
  | Some fgToken, Some bgToken =>
      match checkContrast Math_pow (value fgToken) (value bgToken) with
      | None =>
          Checked foregroundToken backgroundToken
            (value fgToken) (value bgToken) None false
            (Some "Unable to calculate contrast (non-color tokens?)")
      | Some contrast =>
          let passes := wcagAA contrast in
          let recommendation :=
            if negb passes
            then findBetterTokenCombination fgToken tokens (value bgToken)
            else "" in
          Checked foregroundToken backgroundToken
            (value fgToken) (value bgToken) (Some contrast) passes
            (Some recommendation)
      end
  | _, _ =>
      Checked foregroundToken backgroundToken "" "" None false
        (Some "Token not found")
  end.

(** The comparator of [results.sort(...)]. *)
Definition byRatioDescending (a b : ContrastCheckResult) : num :=
  match contrast a, contrast b with
  | Some ca, Some cb => sub64 (ratio cb) (ratio ca)
  | _, _ => Fin 0
  end.

Definition checkAllCombinations (backgroundToken : string)
    (tokens : list DesignToken) : list ContrastCheckResult :=
  match findByName backgroundToken tokens with
  | None => []
  | Some bgToken =>
      let colorTokens :=
        filter
          (fun t => String.eqb (category t) "color"
                    && negb (String.eqb (name t) backgroundToken))
          tokens in
      let results :=
        map (fun fgToken =>
               checkTokenContrast (name fgToken) backgroundToken tokens)
            colorTokens in
      sort byRatioDescending results
  end.

End WithPow.

End Accessibility.

(* ================================================================== *)
(** ** tools/replace.ts *)
(* ================================================================== *)

Module Replace.
Import JsString CssParser.

Record ReplacementSuggestion : Type := Replacement {
  original : string;
  replacement : string;
  tokenName : string;
  rproperty : option string
}.

Record ReplacementResult : Type := Replaced {
  originalCode : string;
  fixedCode : string;
  replacements : list ReplacementSuggestion;
  replacementCount : nat
}.

(** The replacement text of one match: [$$], [$&], [$`] and [$'] are
    expanded; the patterns built here have no capture group, so every
    other [$] stands for itself. *)
Fixpoint substitution (repl matched pre post : list ascii) : list ascii :=
  match repl with
  | "$"%char :: "$"%char :: rest => "$"%char :: substitution rest matched pre post
  | "$"%char :: "&"%char :: rest => matched ++ substitution rest matched pre post
  | "$"%char :: "`"%char :: rest => pre ++ substitution rest matched pre post
  | "$"%char :: "'"%char :: rest => post ++ substitution rest matched pre post
  | c :: rest => c :: substitution rest matched pre post
  | [] => []
  end.

(** [s.replace(new RegExp(escapeRegex(needle), 'g'), repl)]: the escaped
    pattern matches the text [needle] and nothing else, so every
    occurrence of [needle], found from left to right without overlap,
    is replaced.  [skip] counts the characters of the current match
    still to pass; an empty [needle] matches before every character
    and at the end. *)
Fixpoint replaceFrom (needle repl bef aft : list ascii) (skip : nat)
  {struct aft} : list ascii :=
  match skip with
  | S skip' =>
      match aft with
      | c :: rest => replaceFrom needle repl (c :: bef) rest skip'
      | [] => []
      end
  | O =>
      if prefixb needle aft
      then substitution repl needle (rev bef)
             (skipn (List.length needle) aft)
           ++ match aft with
              | c :: rest =>
                  match needle with
                  | [] => c :: replaceFrom needle repl (c :: bef) rest 0
                  | _ :: n' =>
                      replaceFrom needle repl (c :: bef) rest (List.length n')
                  end
              | [] => []
              end
      else match aft with
           | c :: rest => c :: replaceFrom needle repl (c :: bef) rest 0
           | [] => []
           end
  end.

Definition replaceAll (needle repl s : string) : string :=
  str (replaceFrom (chars needle) (chars repl) [] (chars s) 0).

Definition replaceHardCodedValues (code : string)
    (tokens : list DesignToken) (autofix : bool)
  : option ReplacementResult :=
  match extractAllValues code with
  | None => None
  | Some extractedValues =>
      let '(replacements, fixedCode) :=
        fold_left
          (fun (acc : list ReplacementSuggestion * string) v =>
             let '(replacements, fixedCode) := acc in
             match findMatchingToken (cvalue v) tokens with
             | Some matchingToken =>
                 if String.eqb matchingToken "" then acc
                 else
                   let replacement :=
                     ("var(--" ++ matchingToken ++ ")")%string in
                   (replacements
                      ++ [Replacement (cvalue v) replacement matchingToken
                            (property v)],
                    if autofix
                    then replaceAll (cvalue v) replacement fixedCode
                    else fixedCode)
             | None => acc
             end)
          extractedValues ([], code) in
      Some (Replaced code (if autofix then fixedCode else code)
              replacements (List.length replacements))
  end.

End Replace.

(* ================================================================== *)
(** ** optics-data.ts: the static catalog *)
(* ================================================================== *)

Module OpticsData.

Definition designTokens : list DesignToken := [
  Token "op-color-primary-h" "216" "color"
    (Some "Primary color hue (HSL)");
  Token "op-color-primary-s" "58%" "color"
    (Some "Primary color saturation (HSL)");
  Token "op-color-primary-l" "48%" "color"
    (Some "Primary color lightness (HSL)");
  Token "op-color-neutral-h" "216" "color"
    (Some "Neutral color hue (HSL, inherits from primary)");
  Token "op-color-neutral-s" "4%" "color"
    (Some "Neutral color saturation (HSL)");
  Token "op-color-neutral-l" "48%" "color"
    (Some "Neutral color lightness (HSL)");
  Token "op-color-alerts-warning-h" "47" "color"
    (Some "Warning alert hue (HSL)");
  Token "op-color-alerts-warning-s" "100%" "color"
    (Some "Warning alert saturation (HSL)");
  Token "op-color-alerts-warning-l" "61%" "color"
    (Some "Warning alert lightness (HSL)");
  Token "op-color-alerts-danger-h" "0" "color"
    (Some "Danger alert hue (HSL)");
  Token "op-color-alerts-danger-s" "99%" "color"
    (Some "Danger alert saturation (HSL)");
  Token "op-color-alerts-danger-l" "76%" "color"
    (Some "Danger alert lightness (HSL)");
  Token "op-color-alerts-info-h" "216" "color"
    (Some "Info alert hue (HSL)");
  Token "op-color-alerts-info-s" "58%" "color"
    (Some "Info alert saturation (HSL)");
  Token "op-color-alerts-info-l" "48%" "color"
    (Some "Info alert lightness (HSL)");
  Token "op-color-alerts-notice-h" "130" "color"
    (Some "Notice alert hue (HSL)");
  Token "op-color-alerts-notice-s" "61%" "color"
    (Some "Notice alert saturation (HSL)");
  Token "op-color-alerts-notice-l" "64%" "color"
    (Some "Notice alert lightness (HSL)");
  Token "op-color-white" "hsl(0deg 100% 100%)" "color"
    (Some "Pure white");
  Token "op-color-black" "hsl(0deg 0% 0%)" "color"
    (Some "Pure black");
  Token "op-space-scale-unit" "1rem" "spacing"
    (Some "Base unit for spacing scale (10px)");
  Token "op-space-3x-small" "calc(var(--op-space-scale-unit) * 0.2)" "spacing"
    (Some "2px spacing");
  Token "op-space-2x-small" "calc(var(--op-space-scale-unit) * 0.4)" "spacing"
    (Some "4px spacing");
  Token "op-space-x-small" "calc(var(--op-space-scale-unit) * 0.8)" "spacing"
    (Some "8px spacing");
  Token "op-space-small" "calc(var(--op-space-scale-unit) * 1.2)" "spacing"
    (Some "12px spacing");
  Token "op-space-medium" "calc(var(--op-space-scale-unit) * 1.6)" "spacing"
    (Some "16px spacing");
  Token "op-space-large" "calc(var(--op-space-scale-unit) * 2)" "spacing"
    (Some "20px spacing");
  Token "op-space-x-large" "calc(var(--op-space-scale-unit) * 2.4)" "spacing"
    (Some "24px spacing");
  Token "op-space-2x-large" "calc(var(--op-space-scale-unit) * 2.8)" "spacing"
    (Some "28px spacing");
  Token "op-space-3x-large" "calc(var(--op-space-scale-unit) * 4)" "spacing"
    (Some "40px spacing");
  Token "op-space-4x-large" "calc(var(--op-space-scale-unit) * 8)" "spacing"
    (Some "80px spacing");
  Token "op-font-family" "'Noto Sans', 'Noto Serif', sans-serif" "typography"
    (Some "Font family for all text");
  Token "op-font-scale-unit" "1rem" "typography"
    (Some "Base unit for font scale (10px)");
  Token "op-font-2x-small" "calc(var(--op-font-scale-unit) * 1)" "typography"
    (Some "10px font size");
  Token "op-font-x-small" "calc(var(--op-font-scale-unit) * 1.2)" "typography"
    (Some "12px font size");
  Token "op-font-small" "calc(var(--op-font-scale-unit) * 1.4)" "typography"
    (Some "14px font size");
  Token "op-font-medium" "calc(var(--op-font-scale-unit) * 1.6)" "typography"
    (Some "16px font size");
  Token "op-font-large" "calc(var(--op-font-scale-unit) * 1.8)" "typography"
    (Some "18px font size");
  Token "op-font-x-large" "calc(var(--op-font-scale-unit) * 2)" "typography"
    (Some "20px font size");
  Token "op-font-2x-large" "calc(var(--op-font-scale-unit) * 2.4)" "typography"
    (Some "24px font size");
  Token "op-font-3x-large" "calc(var(--op-font-scale-unit) * 2.8)" "typography"
    (Some "28px font size");
  Token "op-font-4x-large" "calc(var(--op-font-scale-unit) * 3.2)" "typography"
    (Some "32px font size");
  Token "op-font-5x-large" "calc(var(--op-font-scale-unit) * 3.6)" "typography"
    (Some "36px font size");
  Token "op-font-6x-large" "calc(var(--op-font-scale-unit) * 4.8)" "typography"
    (Some "48px font size");
  Token "op-font-weight-thin" "100" "typography"
    (Some "Thin font weight");
  Token "op-font-weight-extra-light" "200" "typography"
    (Some "Extra light font weight");
  Token "op-font-weight-light" "300" "typography"
    (Some "Light font weight");
  Token "op-font-weight-normal" "400" "typography"
    (Some "Normal font weight");
  Token "op-font-weight-medium" "500" "typography"
    (Some "Medium font weight");
  Token "op-font-weight-semi-bold" "600" "typography"
    (Some "Semi-bold font weight");
  Token "op-font-weight-bold" "700" "typography"
    (Some "Bold font weight");
  Token "op-font-weight-extra-bold" "800" "typography"
    (Some "Extra bold font weight");
  Token "op-font-weight-black" "900" "typography"
    (Some "Black font weight");
  Token "op-line-height-none" "0" "typography"
    (Some "No line height");
  Token "op-line-height-densest" "1" "typography"
    (Some "Densest line height");
  Token "op-line-height-denser" "1.15" "typography"
    (Some "Denser line height");
  Token "op-line-height-dense" "1.3" "typography"
    (Some "Dense line height");
  Token "op-line-height-base" "1.5" "typography"
    (Some "Base line height");
  Token "op-line-height-loose" "1.6" "typography"
    (Some "Loose line height");
  Token "op-line-height-looser" "1.7" "typography"
    (Some "Looser line height");
  Token "op-line-height-loosest" "1.8" "typography"
    (Some "Loosest line height");
  Token "op-letter-spacing-navigation" "0.01rem" "typography"
    (Some "Letter spacing for navigation");
  Token "op-letter-spacing-label" "0.04rem" "typography"
    (Some "Letter spacing for labels");
  Token "op-radius-small" "2px" "border"
    (Some "Small border radius");
  Token "op-radius-medium" "4px" "border"
    (Some "Medium border radius");
  Token "op-radius-large" "8px" "border"
    (Some "Large border radius");
  Token "op-radius-x-large" "12px" "border"
    (Some "Extra large border radius");
  Token "op-radius-2x-large" "16px" "border"
    (Some "2X large border radius");
  Token "op-radius-circle" "50%" "border"
    (Some "Circular border radius");
  Token "op-radius-pill" "9999px" "border"
    (Some "Pill-shaped border radius");
  Token "op-border-width" "1px" "border"
    (Some "Standard border width");
  Token "op-border-width-large" "2px" "border"
    (Some "Large border width");
  Token "op-border-width-x-large" "4px" "border"
    (Some "Extra large border width");
  Token "op-shadow-x-small" "0 1px 2px hsl(0deg 0% 0% / 3%), 0 1px 3px hsl(0deg 0% 0% / 15%)" "shadow"
    (Some "Extra small shadow");
  Token "op-shadow-small" "0 1px 2px hsl(0deg 0% 0% / 3%), 0 2px 6px hsl(0deg 0% 0% / 15%)" "shadow"
    (Some "Small shadow");
  Token "op-shadow-medium" "0 4px 8px hsl(0deg 0% 0% / 15%), 0 1px 3px hsl(0deg 0% 0% / 3%)" "shadow"
    (Some "Medium shadow");
  Token "op-shadow-large" "0 6px 10px hsl(0deg 0% 0% / 15%), 0 2px 3px hsl(0deg 0% 0% / 3%)" "shadow"
    (Some "Large shadow");
  Token "op-shadow-x-large" "0 8px 12px hsl(0deg 0% 0% / 15%), 0 4px 4px hsl(0deg 0% 0% / 3%)" "shadow"
    (Some "Extra large shadow");
  Token "op-opacity-none" "0" "color"
    (Some "No opacity");
  Token "op-opacity-overlay" "0.2" "color"
    (Some "Overlay opacity");
  Token "op-opacity-disabled" "0.4" "color"
    (Some "Disabled opacity");
  Token "op-opacity-half" "0.5" "color"
    (Some "Half opacity");
  Token "op-opacity-full" "1" "color"
    (Some "Full opacity")
].

End OpticsData.

(* ================================================================== *)
(** ** tools/theme-generator.ts (the catalog-override variant) *)
(* ================================================================== *)

Module ThemeGenerator.
Import JsString JsNumber.

(** An optional property of an object: missing, present with the value
    [undefined], or present with a string. *)
Inductive field : Type :=
| Absent
| Undefined
| Given (hex : string).

Record BrandColors : Type := Brand {
  primary : field;
  neutral : field;
  alerts_warning : field;
  alerts_danger : field;
  alerts_info : field;
  alerts_notice : field
}.

Record HSL : Type := Hsl {
  h : integral;
  s : integral;
  l : integral
}.

Definition hexToHSL (hex : string) : HSL :=
  let hex := removeFirstHash hex in
  let r := div64 (toNum (parseInt (substring 0 2 hex) (Some 16%Z))) (Fin 255) in
  let g := div64 (toNum (parseInt (substring 2 4 hex) (Some 16%Z))) (Fin 255) in
  let b := div64 (toNum (parseInt (substring 4 6 hex) (Some 16%Z))) (Fin 255) in
  let max := JsNumber.max (JsNumber.max r g) b in
  let min := JsNumber.min (JsNumber.min r g) b in
  let l := div64 (add64 max min) (Fin 2) in
  let '(h, s) :=
    if negb (strictEq max min)
    then
      let d := sub64 max min in
      let s :=
        if gt l (Fin (5 # 10))
        then div64 d (sub64 (sub64 (Fin 2) max) min)
        else div64 d (add64 max min) in
      let h :=
        if strictEq max r
        then div64 (add64 (div64 (sub64 g b) d)
                           (if lt g b then Fin 6 else Fin 0))
                 (Fin 6)
        else if strictEq max g
        then div64 (add64 (div64 (sub64 b r) d) (Fin 2)) (Fin 6)
        else if strictEq max b
        then div64 (add64 (div64 (sub64 r g) d) (Fin 4)) (Fin 6)
        else Fin 0 in
      (h, s)
    else (Fin 0, Fin 0) in
  Hsl (round (mul64 h (Fin 360))) (round (mul64 s (Fin 100)))
      (round (mul64 l (Fin 100))).

(** The keys of the [defaults] object, in order, with their values. *)
Definition defaults : list (string * string) :=
  [("primary", "#2D6FDB"); ("neutral", "#757882");
   ("alerts-warning", "#FFD93D"); ("alerts-danger", "#FF6B94");
   ("alerts-info", "#2D6FDB"); ("alerts-notice", "#6ACF71")].

Definition brandField (brandColors : BrandColors) (family : string) : field :=
  if String.eqb family "primary" then primary brandColors
  else if String.eqb family "neutral" then neutral brandColors
  else if String.eqb family "alerts-warning" then alerts_warning brandColors
  else if String.eqb family "alerts-danger" then alerts_danger brandColors
  else if String.eqb family "alerts-info" then alerts_info brandColors
  else if String.eqb family "alerts-notice" then alerts_notice brandColors
  else Absent.

(** [Object.entries({ ...defaults, ...brandColors })]: a key of
    [brandColors] takes the place of the default of the same name, also
    when its value is [undefined]. *)
Definition mergedEntries (brandColors : BrandColors)
  : list (string * option string) :=
  map (fun d =>
         (fst d,
          match brandField brandColors (fst d) with
          | Absent => Some (snd d)
          | Undefined => None
          | Given hex => Some hex
          end))
      defaults.

Definition generateColorTokens (brandColors : BrandColors)
  : list DesignToken :=
  flat_map
    (fun entry =>
       let familyName := fst entry in
       match snd entry with
       | None => []
       | Some hex =>
           if String.eqb hex "" then []
           else
             let hsl := hexToHSL hex in
             [Token ("op-color-" ++ familyName ++ "-h")%string
                (toString (h hsl)) "color"
                (Some (familyName ++ " color hue (HSL) - drives all "
                         ++ familyName ++ " scale tokens")%string);
              Token ("op-color-" ++ familyName ++ "-s")%string
                (toString (s hsl) ++ "%")%string "color"
                (Some (familyName ++ " color saturation (HSL)")%string);
              Token ("op-color-" ++ familyName ++ "-l")%string
                (toString (l hsl) ++ "%")%string "color"
                (Some (familyName ++ " color lightness (HSL)")%string)]
       end)
    (mergedEntries brandColors).

(** [Object.keys(brandColors).length] *)
Definition keyCount (brandColors : BrandColors) : nat :=
  List.length
    (filter (fun d =>
               match brandField brandColors (fst d) with
               | Absent => false
               | _ => true
               end)
            defaults).

(** The [tokens] of the theme [generateTheme(brandName, brandColors)]
    builds over the catalog [designTokens]; the three texts rendered
    from them are not modelled. *)
Definition generateTheme (designTokens : list DesignToken)
    (brandColors : BrandColors) : list DesignToken :=
  if (0 <? keyCount brandColors)%nat
  then
    let customColorTokens := generateColorTokens brandColors in
    map (fun token =>
           match find (fun ct => String.eqb (name ct) (name token))
                      customColorTokens with
           | Some customToken => customToken
           | None => token
           end)
        designTokens
  else designTokens.

End ThemeGenerator.

(* ================================================================== *)
(** * Vocabulary of the properties *)
(* ================================================================== *)

Import JsString JsNumber.

(** The comparator, the order and the ties of a sort by descending key. *)
Definition keyCmp {A : Type} (key : A -> num) (a b : A) : num :=
  sub64 (key b) (key a).

Definition keyDesc {A : Type} (key : A -> num) (a b : A) : Prop :=
  le (key b) (key a) = true.

Definition keyEq {A : Type} (key : A -> num) (v : num) (a : A) : bool :=
  strictEq (key a) v.

(** The scenario of the specification. *)
Definition scenarioText : string :=
  ".button { background: #0066CC; padding: 16px; font-size: 14px; }".

Definition scenarioCatalog : list DesignToken :=
  [Token "color-primary" "#0066CC" "color" None;
   Token "spacing-md" "16px" "spacing" None].



Definition smallCatalog : list DesignToken :=
  [Token "color-text" "#212529" "color" None;
   Token "spacing-md" "16px" "spacing" None].

Definition anyPow (x y : num) : num := x.

(** The suggestion made for an extracted value: one when exact matching
    finds a token with a name, none otherwise. *)
Definition replacementFor (tokens : list DesignToken) (v : CssParser.CSSValue)
  : list Replace.ReplacementSuggestion :=
  match CssParser.findMatchingToken (CssParser.cvalue v) tokens with
  | Some matchingToken =>
      if String.eqb matchingToken "" then []
      else [Replace.Replacement (CssParser.cvalue v)
              ("var(--" ++ matchingToken ++ ")")%string matchingToken
              (CssParser.property v)]
  | None => []
  end.

Definition neutralHue : DesignToken :=
  Token "op-color-neutral-h" "216" "color"
    (Some "Neutral color hue (HSL, inherits from primary)").

Definition primaryOnly : ThemeGenerator.BrandColors :=
  ThemeGenerator.Brand (ThemeGenerator.Given "#FF0000")
    ThemeGenerator.Absent ThemeGenerator.Absent ThemeGenerator.Absent
    ThemeGenerator.Absent ThemeGenerator.Absent.

(** The names of the tokens whose value differs between two catalogs of
    the same shape. *)
Definition changedNames (old new : list DesignToken) : list string :=
  map (fun p => name (fst p))
      (filter (fun p => negb (String.eqb (value (fst p)) (value (snd p))))
              (combine old new)).

Definition valueOf (n : string) (tokens : list DesignToken) : option string :=
  option_map value (Accessibility.findByName n tokens).

(** An optional [#] followed by six hex digits. *)
Definition validHex6 (hex : string) : bool :=
  let digits := chars (removeLeadingHash hex) in
  (List.length digits =? 6)%nat && forallb is_hex digits.

(** The ranges of an HSL triple, the hue being at most [hueMax]. *)
Definition hslWithin (hueMax : Z) (x : ThemeGenerator.HSL) : Prop :=
  exists hh ss ll : Z,
    x = ThemeGenerator.Hsl (Int hh) (Int ss) (Int ll)
    /\ (0 <= hh <= hueMax)%Z /\ (0 <= ss <= 100)%Z /\ (0 <= ll <= 100)%Z.

Definition boldOnly : list DesignToken :=
  [Token "font-weight-bold" "700" "typography" None].

Definition notNaN (a : num) : Prop := a <> NaN.

(** A Number other than NaN: an infinity or a binary64 number. *)
Definition isNumber (a : num) : Prop :=
  match a with
  | Fin q => exists x : Q, q == round64 x
  | PInf | NInf => True
  | NaN => False
  end.

(** The suggestion built for a token. *)
Definition suggestionOf (oldValue : string) (t : DesignToken)
  : Migration.Suggestion :=
  let sim :=
    Migration.calculateSimilarity oldValue (value t)
      (Migration.detectValueType oldValue) in
  Migration.Suggest (name t) (value t) (category t) sim
    (Migration.generateMigrationReason oldValue t sim).

(** A candidate is retained when its value has the type of the query and
    its similarity is above 0.5. *)
Definition retained (oldValue : string) (t : DesignToken) : bool :=
  Migration.ValueType_eqb (Migration.detectValueType oldValue)
    (Migration.detectValueType (value t))
  && gt (Migration.calculateSimilarity oldValue (value t)
           (Migration.detectValueType oldValue)) (Fin (5 # 10)).

(** The retained candidates, in catalog order. *)
Definition kept (oldValue : string) (tokens : list DesignToken)
    (category : option string) : list Migration.Suggestion :=
  map (suggestionOf oldValue)
      (filter (retained oldValue) (Migration.candidateTokens tokens category)).

Definition descending (a b : Migration.Suggestion) : Prop :=
  le (Migration.similarity b) (Migration.similarity a) = true.

Definition withSimilarity (v : num) (s : Migration.Suggestion) : bool :=
  strictEq (Migration.similarity s) v.

Definition unit01 (n : num) : Prop := exists q : Q, n = Fin q /\ 0 <= q <= 1.

(** The body of [hexToHSL] once the three channels are read. *)
Definition hslOfChannels (r g b : num) : ThemeGenerator.HSL :=
  let max := JsNumber.max (JsNumber.max r g) b in
  let min := JsNumber.min (JsNumber.min r g) b in
  let l := div64 (add64 max min) (Fin 2) in
  let '(h, s) :=
    if negb (strictEq max min)
    then
      let d := sub64 max min in
      let s :=
        if gt l (Fin (5 # 10))
        then div64 d (sub64 (sub64 (Fin 2) max) min)
        else div64 d (add64 max min) in
      let h :=
        if strictEq max r
        then div64 (add64 (div64 (sub64 g b) d)
                           (if lt g b then Fin 6 else Fin 0))
                 (Fin 6)
        else if strictEq max g
        then div64 (add64 (div64 (sub64 b r) d) (Fin 2)) (Fin 6)
        else if strictEq max b
        then div64 (add64 (div64 (sub64 r g) d) (Fin 4)) (Fin 6)
        else Fin 0 in
      (h, s)
    else (Fin 0, Fin 0) in
  ThemeGenerator.Hsl (round (mul64 h (Fin 360))) (round (mul64 s (Fin 100)))
    (round (mul64 l (Fin 100))).

(** A binary64 number: rounding leaves it as it is, and it is below the
    overflow threshold. *)
Definition isBinary64 (q : Q) : bool :=
  Qeq_bool (round64 q) q && Qlt_bool (Qabs q) (2 ^ 1024).

(** The channel of a byte, [k / 255], as a Number and as its value. *)
Definition channel (k : Z) : num := div64 (Fin (inject_Z k)) (Fin 255).

Definition channelValue (k : Z) : Q := round64 (inject_Z k / 255).

Definition channelGap (k : Z) : bool :=
  Qle_bool (channelValue k + (1 # 512)) (channelValue (k + 1)).

(** An integer that is at least [lo], or the positive infinity. *)
Definition atLeast (lo : Z) (i : integral) : Prop :=
  i = IPInf \/ exists z : Z, i = Int z /\ (lo <= z)%Z.

(** A call of [rgb] whose first channel has 400 digits. *)
Definition longChannel : string :=
  ("rgb(" ++ str (repeat "9"%char 400) ++ ", 0, 0)")%string.

Definition allAscii : list ascii := map ascii_of_nat (seq 0 256).

(** A pair of hex digits is read as an integer of [0, 255]. *)
Definition hexPairOk (c1 c2 : ascii) : bool :=
  if is_hex c1 && is_hex c2
  then match parseInt (String c1 (String c2 "")) (Some 16%Z) with
       | Int z => (0 <=? z)%Z && (z <=? 255)%Z
       | _ => false
       end
  else true.

(** The texts a pattern can match, assertions left aside. *)
Fixpoint lang (r : Regex.regex) (w : list ascii) : Prop :=
  match r with
  | Regex.Eps | Regex.Bol | Regex.Eol | Regex.WordB => w = []
  | Regex.Chr p => exists c, w = [c] /\ p c = true
  | Regex.Seq r1 r2 => exists u v, w = u ++ v /\ lang r1 u /\ lang r2 v
  | Regex.Alt r1 r2 => lang r1 w \/ lang r2 w
  | Regex.Star r1 => exists ws, w = List.concat ws /\ Forall (lang r1) ws
  | Regex.Group _ r1 => lang r1 w
  end.

(** The capturing groups of a pattern, and those every match sets. *)
Fixpoint groups (r : Regex.regex) : list (nat * Regex.regex) :=
  match r with
  | Regex.Seq r1 r2 | Regex.Alt r1 r2 => groups r1 ++ groups r2
  | Regex.Star r1 => groups r1
  | Regex.Group n r1 => (n, r1) :: groups r1
  | _ => []
  end.

Fixpoint sureGroups (r : Regex.regex) : list nat :=
  match r with
  | Regex.Seq r1 r2 => sureGroups r1 ++ sureGroups r2
  | Regex.Group n r1 => n :: sureGroups r1
  | _ => []
  end.

(** [t] occurs in [w]. *)
Definition occursIn (t w : list ascii) : Prop :=
  exists u v, w = u ++ t ++ v.

(** The captures [new] made while [r] matched [w]. *)
Definition capturesOf (r : Regex.regex) (w : list ascii)
    (new : list (nat * list ascii)) : Prop :=
  (forall n t, In (n, t) new ->
               exists r', In (n, r') (groups r) /\ lang r' t /\ occursIn t w)
  /\ (forall n, In n (sureGroups r) -> exists t, In (n, t) new).

Definition isHexLiteral (s : string) : bool :=
  match chars s with
  | "#"%char :: ds =>
      (3 <=? List.length ds)%nat && (List.length ds <=? 6)%nat
      && forallb is_hex ds
  | _ => false
  end.

Definition isRgbCall (s : string) : Prop :=
  exists body : list ascii,
    body <> []
    /\ forallb (fun c => negb (Ascii.eqb c ")")) body = true
    /\ (chars s = chars "rgb(" ++ body ++ chars ")"
        \/ chars s = chars "rgba(" ++ body ++ chars ")").

(** A number made of digits and dots followed by one of the units, in
    any case. *)
Definition isLength (units : list string) (s : string) : Prop :=
  exists num unit : list ascii,
    chars s = num ++ unit
    /\ num <> []
    /\ forallb (fun c => is_digit c || Ascii.eqb c ".") num = true
    /\ In (toLowerCase (str unit)) units.

(** The value of a hex digit. *)
Definition hexDigit (c : ascii) : Z :=
  match digitValue c with Some d => d | None => 0%Z end.

Definition pairValue (c1 c2 : ascii) : Z := (16 * hexDigit c1 + hexDigit c2)%Z.

(** An optional [#] followed by three hex digits. *)
Definition validHex3 (hex : string) : bool :=
  let digits := chars (removeLeadingHash hex) in
  (List.length digits =? 3)%nat && forallb is_hex digits.

Definition pairString (c1 c2 : ascii) : string := String c1 (String c2 "").

Definition forallPairs (p : ascii -> ascii -> bool) : bool :=
  forallb (fun c1 => forallb (p c1) allAscii) allAscii.

Definition integral_eqb (a b : integral) : bool :=
  match a, b with
  | Int x, Int y => (x =? y)%Z
  | IPInf, IPInf | INInf, INInf | INaN, INaN => true
  | _, _ => false
  end.

(** The lightness [hexToHSL] computes when the three channels are those
    of the byte [v], against the rounded percentage of 255. *)
Definition greyLightness (v : Z) : integral :=
  round (mul64 (div64 (add64 (channel v) (channel v)) (Fin 2)) (Fin 100)).

Definition greyOk (v : Z) : bool :=
  integral_eqb (greyLightness v) (round (Fin (inject_Z v * 100 / 255))).

Definition channelsOf (c1 c2 c3 c4 c5 c6 : ascii) : option Color.RGB :=
  let r := parseInt (pairString c1 c2) (Some 16%Z) in
  let g := parseInt (pairString c3 c4) (Some 16%Z) in
  let b := parseInt (pairString c5 c6) (Some 16%Z) in
  if isNaN r || isNaN g || isNaN b then None else Some (Color.Rgb r g b).

Definition forallChars (p : ascii -> bool) : bool := forallb p allAscii.


(** Two numbers with the same value. *)
Definition sameNumber (a b : num) : Prop :=
  match a, b with
  | Fin x, Fin y => x == y
  | PInf, PInf | NInf, NInf | NaN, NaN => True
  | _, _ => False
  end.

(** The contrast of a value against a background is computed and passes
    level AA. *)
Definition passesAA (pow : num -> num -> num) (v background : string) : bool :=
  match Color.checkContrast pow v background with
  | Some c => Color.wcagAA c
  | None => false
  end.

Definition isColorToken (t : DesignToken) : bool :=
  String.eqb (category t) "color".

Definition darkAndLight : list DesignToken :=
  [Token "spacing-md" "16px" "spacing" None;
   Token "color-dark" "#000000" "color" None;
   Token "color-light" "#ffffff" "color" None].

(** The colour tokens compared with a background. *)
Definition foregrounds (background : string) (tokens : list DesignToken)
  : list DesignToken :=
  filter (fun t => String.eqb (category t) "color"
                   && negb (String.eqb (name t) background)) tokens.

Definition sizesCatalog : list DesignToken :=
  [Token "spacing-md" "16px" "spacing" None;
   Token "font-size-md" "16px" "typography" None;
   Token "spacing-sm" "8px" "spacing" None].

Definition weightsCatalog : list DesignToken :=
  [Token "font-weight-normal" "400" "typography" None;
   Token "font-weight-bold" "700" "typography" None].

(** [grouped[t]] *)
Definition groupOf (t : CssParser.CSSType)
    (grouped : list (CssParser.CSSType * list CssParser.CSSValue))
  : option (list CssParser.CSSValue) :=
  option_map snd (find (fun p => CssParser.CSSType_eqb (fst p) t) grouped).

Definition hasType (t : CssParser.CSSType) (v : CssParser.CSSValue) : bool :=
  CssParser.CSSType_eqb (CssParser.type v) t.

(** The three base tokens built for a family from a hex colour. *)
Definition familyTokens (familyName hex : string) : list DesignToken :=
  let hsl := ThemeGenerator.hexToHSL hex in
  [Token ("op-color-" ++ familyName ++ "-h")%string
     (toString (ThemeGenerator.h hsl)) "color"
     (Some (familyName ++ " color hue (HSL) - drives all "
              ++ familyName ++ " scale tokens")%string);
   Token ("op-color-" ++ familyName ++ "-s")%string
     (toString (ThemeGenerator.s hsl) ++ "%")%string "color"
     (Some (familyName ++ " color saturation (HSL)")%string);
   Token ("op-color-" ++ familyName ++ "-l")%string
     (toString (ThemeGenerator.l hsl) ++ "%")%string "color"
     (Some (familyName ++ " color lightness (HSL)")%string)].

(** The colour a family is built from: the one supplied, the default
    when the key is missing, none when the key holds [undefined] or the
    empty string. *)
Definition effectiveColor (brandColors : ThemeGenerator.BrandColors)
    (d : string * string) : option string :=
  match ThemeGenerator.brandField brandColors (fst d) with
  | ThemeGenerator.Absent => Some (snd d)
  | ThemeGenerator.Undefined => None
  | ThemeGenerator.Given hex => if String.eqb hex "" then None else Some hex
  end.

Definition familyBlock (brandColors : ThemeGenerator.BrandColors)
    (d : string * string) : list DesignToken :=
  match effectiveColor brandColors d with
  | Some hex => familyTokens (fst d) hex
  | None => []
  end.

Definition families : list string := map fst ThemeGenerator.defaults.

Definition baseTokenNames : list string :=
  flat_map (fun f => [("op-color-" ++ f ++ "-h")%string;
                      ("op-color-" ++ f ++ "-s")%string;
                      ("op-color-" ++ f ++ "-l")%string]) families.

Definition named (n : string) (t : DesignToken) : bool := String.eqb (name t) n.

Definition emptyPrimary : ThemeGenerator.BrandColors :=
  ThemeGenerator.Brand (ThemeGenerator.Given "")
    ThemeGenerator.Absent ThemeGenerator.Absent ThemeGenerator.Absent
    ThemeGenerator.Absent ThemeGenerator.Absent.

(* ================================================================== *)
(** * Properties *)
(* ================================================================== *)

(** ** Value extraction on the scenario *)

(** C1.  On the scenario text the extraction returns two values only: the
    colour literal [#0066CC] and the spacing literal [16px] of property
    [padding].  The font-size pattern finds nothing, because its class
    [[\\d.]] holds a backslash, the letter d and the dot instead of the
    digits; the spacing pattern, built from a string, has the class
    [[\d.]].  Exact matching resolves the two extracted literals to
    [color-primary] and [spacing-md] and finds nothing for [14px]. *)
Theorem scenario_extraction :
  CssParser.extractAllValues scenarioText
  = Some [CssParser.CssValue CssParser.color "#0066CC" None None;
          CssParser.CssValue CssParser.spacing "16px" None (Some "padding")]
  /\ CssParser.extractFontSizes scenarioText = Some []
  /\ CssParser.extractSpacing "padding: 14px"
     = Some [CssParser.CssValue CssParser.spacing "14px" None (Some "padding")]
  /\ CssParser.extractFontSizes "font-size: 14px" = Some []
  /\ CssParser.findMatchingToken "#0066CC" scenarioCatalog = Some "color-primary"
  /\ CssParser.findMatchingToken "16px" scenarioCatalog = Some "spacing-md"
  /\ CssParser.findMatchingToken "14px" scenarioCatalog = None.
Proof. vm_compute. repeat split. Qed.

(** ** Termination of the extraction loops *)

Section MatcherProgress.
Import Regex.

(** Whatever the matcher hands to its continuation lies at least
    [min_len r] characters further in the input. *)
Lemma rmatch_consumes (r : regex) :
  forall (st : mstate) (k : mstate -> option mstate) (x : mstate),
    rmatch r st k = Some x ->
    exists st', k st' = Some x
                /\ (List.length (after st') + min_len r
                    <= List.length (after st))%nat.
Proof.
  induction r as [|p|r1 IH1 r2 IH2|r1 IH1 r2 IH2|r1 IH1|n r1 IH1| | |];
    intros st k x H; simpl in H |- *.
  - exists st. split; [exact H|lia].
  - destruct (after st) as [|c rest] eqn:E; [discriminate|].
    destruct (p c); [|discriminate].
    exists (advance c rest st). split; [exact H|unfold advance; simpl; lia].
  - destruct (IH1 _ _ _ H) as [st1 [H1 L1]].
    destruct (IH2 _ _ _ H1) as [st2 [H2 L2]].
    exists st2. split; [exact H2|lia].
  - destruct (rmatch r1 st k) as [y|] eqn:E.
    + injection H as H. subst y.
      destruct (IH1 _ _ _ E) as [st1 [H1 L1]].
      exists st1. split; [exact H1|lia].
    + destruct (IH2 _ _ _ H) as [st2 [H2 L2]].
      exists st2. split; [exact H2|lia].
  - revert H. generalize (List.length (after st)) at 1. intros fuel.
    revert st. induction fuel as [|fuel IHf]; intros st H.
    + exists st. split; [exact H|lia].
    + match type of H with
      | match ?m with _ => _ end = _ => destruct m as [y|] eqn:E
      end.
      * injection H as H. subst y.
        destruct (IH1 _ _ _ E) as [st1 [H1 L1]].
        destruct (List.length (after st1) <? List.length (after st))%nat
          eqn:Hlt; [|discriminate].
        apply Nat.ltb_lt in Hlt.
        destruct (IHf _ H1) as [st2 [H2 L2]].
        exists st2. split; [exact H2|lia].
      * exists st. split; [exact H|lia].
  - destruct (IH1 _ _ _ H) as [st1 [H1 L1]].
    exists (capture n st st1). split; [exact H1|unfold capture; simpl; lia].
  - destruct (before st); [|discriminate]. exists st. split; [exact H|lia].
  - destruct (after st) eqn:E; [|discriminate].
    exists st. split; [exact H|rewrite E; simpl; lia].
  - destruct (at_word_boundary st); [|discriminate].
    exists st. split; [exact H|lia].
Qed.

Lemma search_consumes (r : regex) :
  forall (aft bef : list ascii) (m : rmatched),
    search r bef aft = Some m ->
    (List.length (after (m_end m)) + min_len r <= List.length aft)%nat.
Proof.
  induction aft as [|c rest IH]; intros bef m H; simpl in H.
  - destruct (rmatch r (MState bef [] []) Some) as [st|] eqn:E;
      [|discriminate].
    injection H as H. subst m. simpl.
    destruct (rmatch_consumes _ _ _ _ E) as [st' [H' L]].
    injection H' as H'. subst st'. exact L.
  - destruct (rmatch r (MState bef (c :: rest) []) Some) as [st|] eqn:E.
    + injection H as H. subst m. simpl.
      destruct (rmatch_consumes _ _ _ _ E) as [st' [H' L]].
      injection H' as H'. subst st'. exact L.
    + specialize (IH _ _ H). simpl. lia.
Qed.

(** A pattern that cannot match the empty text makes the loop end. *)
Lemma execLoop_total (r : regex) :
  (1 <= min_len r)%nat ->
  forall (fuel : nat) (bef aft : list ascii),
    (List.length aft < fuel)%nat ->
    exists ms, execLoop fuel r bef aft = Some ms.
Proof.
  intros Hr. induction fuel as [|fuel IH]; intros bef aft Hf; [lia|].
  simpl. destruct (search r bef aft) as [m|] eqn:E.
  - pose proof (search_consumes _ _ _ _ E) as L.
    assert (Hlt : (List.length (after (m_end m)) <? List.length aft)%nat = true)
      by (apply Nat.ltb_lt; lia).
    rewrite Hlt.
    destruct (IH (before (m_end m)) (after (m_end m))) as [ms Hms]; [lia|].
    rewrite Hms. eexists. reflexivity.
  - eexists. reflexivity.
Qed.

Lemma chars_length (s : string) : List.length (chars s) = String.length s.
Proof.
  unfold chars. induction s as [|c s IH]; simpl; [reflexivity|].
  rewrite IH. reflexivity.
Qed.

Lemma execAll_total (r : regex) (s : string) :
  (1 <= min_len r)%nat -> exists ms, execAll r s = Some ms.
Proof.
  intros Hr. unfold execAll. apply execLoop_total; [exact Hr|].
  rewrite chars_length. lia.
Qed.

End MatcherProgress.

(** Every extraction loop of the parser ends, on every text. *)
Lemma extractAllValues_total (css : string) :
  exists vs, CssParser.extractAllValues css = Some vs.
Proof.
  unfold CssParser.extractAllValues, CssParser.extractColors,
    CssParser.extractSpacing, CssParser.extractFontSizes,
    CssParser.extractFontWeights, CssParser.extractFontFamilies,
    CssParser.extractBorderRadius, CssParser.extractShadows.
  destruct (execAll_total CssParser.hexRegex css) as [m1 E1];
    [vm_compute; lia|].
  destruct (execAll_total CssParser.rgbRegex css) as [m2 E2];
    [vm_compute; lia|].
  destruct (execAll_total CssParser.spacingRegex css) as [m3 E3];
    [vm_compute; lia|].
  destruct (execAll_total CssParser.fontSizeRegex css) as [m4 E4];
    [vm_compute; lia|].
  destruct (execAll_total CssParser.fontWeightRegex css) as [m5 E5];
    [vm_compute; lia|].
  destruct (execAll_total CssParser.fontFamilyRegex css) as [m6 E6];
    [vm_compute; lia|].
  destruct (execAll_total CssParser.borderRadiusRegex css) as [m7 E7];
    [vm_compute; lia|].
  destruct (execAll_total CssParser.boxShadowRegex css) as [m8 E8];
    [vm_compute; lia|].
  rewrite E1, E2, E3, E4, E5, E6, E7, E8. simpl. eexists. reflexivity.
Qed.

(** ** Replacement without autofix *)

Lemma fold_replacements (tokens : list DesignToken) (autofix : bool)
    (vs : list CssParser.CSSValue) :
  forall (acc : list Replace.ReplacementSuggestion) (fixedCode : string),
    fst (fold_left
           (fun (acc : list Replace.ReplacementSuggestion * string) v =>
              let '(replacements, fixedCode) := acc in
              match CssParser.findMatchingToken (CssParser.cvalue v) tokens with
              | Some matchingToken =>
                  if String.eqb matchingToken "" then acc
                  else
                    let replacement :=
                      ("var(--" ++ matchingToken ++ ")")%string in
                    (replacements
                       ++ [Replace.Replacement (CssParser.cvalue v) replacement
                             matchingToken (CssParser.property v)],
                     if autofix
                     then Replace.replaceAll (CssParser.cvalue v) replacement
                            fixedCode
                     else fixedCode)
              | None => acc
              end)
           vs (acc, fixedCode))
    = acc ++ flat_map (replacementFor tokens) vs.
Proof.
  induction vs as [|v vs IH]; intros acc fixedCode; cbn [fold_left flat_map].
  - rewrite app_nil_r. reflexivity.
  - unfold replacementFor at 1.
    destruct (CssParser.findMatchingToken (CssParser.cvalue v) tokens)
      as [n|]; [destruct (String.eqb n "")|]; rewrite IH.
    + reflexivity.
    + rewrite <- app_assoc. reflexivity.
    + reflexivity.
Qed.

(** C9.  Without autofix, [replaceHardCodedValues] returns, for every
    code and catalog, a result whose fixed code is the input code
    itself; the suggestions are still collected, one for each extracted
    value that matches a token, and counted. *)
Theorem replaceHardCodedValues_no_autofix :
  forall (code : string) (tokens : list DesignToken),
  exists res vs,
    Replace.replaceHardCodedValues code tokens false = Some res
    /\ Replace.fixedCode res = code
    /\ Replace.originalCode res = code
    /\ CssParser.extractAllValues code = Some vs
    /\ Replace.replacements res = flat_map (replacementFor tokens) vs
    /\ Replace.replacementCount res
       = List.length (Replace.replacements res).
Proof.
  intros code tokens. unfold Replace.replaceHardCodedValues.
  destruct (extractAllValues_total code) as [vs E]. rewrite E.
  pose proof (fold_replacements tokens false vs [] code) as Hfold.
  match type of Hfold with
  | fst ?folded = _ => destruct folded as [reps fc]
  end.
  cbn [fst app] in Hfold. subst reps.
  eexists. exists vs. split; [reflexivity|]. simpl. repeat split.
Qed.

(** ** The validation path *)




(** ** Exact-match lookup *)

Lemma findMatchingToken_skip (v : string) (pre rest : list DesignToken) :
  (forall x, In x pre ->
             CssParser.normalizeValue (value x) <> CssParser.normalizeValue v) ->
  CssParser.findMatchingToken v (pre ++ rest) = CssParser.findMatchingToken v rest.
Proof.
  induction pre as [|a pre IH]; intros H; simpl; [reflexivity|].
  destruct (String.eqb_spec (CssParser.normalizeValue (value a))
                            (CssParser.normalizeValue v)) as [E|_].
  - exfalso. exact (H a (or_introl eq_refl) E).
  - apply IH. intros x Hx. apply H. right. exact Hx.
Qed.

Lemma findMatchingToken_first (v : string) (tokens : list DesignToken) :
  (exists t, In t tokens
             /\ CssParser.normalizeValue (value t) = CssParser.normalizeValue v) ->
  exists pre u post,
    tokens = pre ++ u :: post
    /\ CssParser.findMatchingToken v tokens = Some (name u)
    /\ CssParser.normalizeValue (value u) = CssParser.normalizeValue v
    /\ (forall x, In x pre ->
                  CssParser.normalizeValue (value x)
                  <> CssParser.normalizeValue v).
Proof.
  induction tokens as [|a l IH]; intros [t [Hin Ht]]; [destruct Hin|].
  destruct (String.eqb_spec (CssParser.normalizeValue (value a))
                            (CssParser.normalizeValue v)) as [E|NE].
  - exists [], a, l. repeat split.
    + simpl. rewrite E, String.eqb_refl. reflexivity.
    + exact E.
    + intros x [].
  - destruct IH as [pre [u [post [Hl [Hf [Hu Hpre]]]]]].
    { destruct Hin as [Ha|Hin]; [subst a; contradiction|].
      exists t. split; assumption. }
    exists (a :: pre), u, post. repeat split.
    + simpl. rewrite Hl. reflexivity.
    + simpl. destruct (String.eqb_spec (CssParser.normalizeValue (value a))
                                       (CssParser.normalizeValue v));
        [contradiction|exact Hf].
    + exact Hu.
    + intros x [Hx|Hx]; [subst x; exact NE|apply Hpre; exact Hx].
Qed.

(** C8, as amended.  Looking up the stored value of a token of the
    catalog never fails: it returns the name of the first token of the
    catalog whose normalized value equals the normalized value looked up.
    That token is [t] itself when no token before [t] has the same
    normalized value.  The result is a name; it carries no similarity. *)
Theorem findMatchingToken_own_value :
  forall (tokens : list DesignToken) (t : DesignToken),
    In t tokens ->
    (exists pre u post,
        tokens = pre ++ u :: post
        /\ CssParser.findMatchingToken (value t) tokens = Some (name u)
        /\ CssParser.normalizeValue (value u) = CssParser.normalizeValue (value t)
        /\ (forall x, In x pre ->
                      CssParser.normalizeValue (value x)
                      <> CssParser.normalizeValue (value t)))
    /\ (forall pre post,
           tokens = pre ++ t :: post ->
           (forall x, In x pre ->
                      CssParser.normalizeValue (value x)
                      <> CssParser.normalizeValue (value t)) ->
           CssParser.findMatchingToken (value t) tokens = Some (name t)).
Proof.
  intros tokens t Hin. split.
  - apply findMatchingToken_first. exists t. split; [exact Hin|reflexivity].
  - intros pre post Htokens Hpre. subst tokens.
    rewrite (findMatchingToken_skip _ _ _ Hpre). simpl.
    rewrite String.eqb_refl. reflexivity.
Qed.

Lemma findMatchingToken_own_value_witness :
  CssParser.findMatchingToken (value (Token "spacing-md" "16px" "spacing" None))
    scenarioCatalog
  = Some "spacing-md".
Proof.
  apply (proj2 (findMatchingToken_own_value scenarioCatalog
                  (Token "spacing-md" "16px" "spacing" None)
                  (or_intror (or_introl eq_refl)))
           [Token "color-primary" "#0066CC" "color" None] []).
  - reflexivity.
  - intros x [Hx | []]. subst x. vm_compute. discriminate.
Defined.

(** C8, as stated, fails on the static catalog: the token
    [op-color-neutral-h] is in it, and looking up its value [216] returns
    [op-color-primary-h], an earlier token with the same value. *)
Lemma findMatchingToken_returns_another_token :
  In neutralHue OpticsData.designTokens
  /\ CssParser.findMatchingToken (value neutralHue) OpticsData.designTokens
     = Some "op-color-primary-h"
  /\ CssParser.findMatchingToken (value neutralHue) OpticsData.designTokens
     <> Some (name neutralHue).
Proof.
  split; [|split].
  - do 3 right. left. reflexivity.
  - vm_compute. reflexivity.
  - vm_compute. discriminate.
Qed.

(** ** Hex colours *)

(** C5.  [hexToRgb] lets malformed text through: a pair of characters
    whose first is a hex digit is read up to the first character that is
    not one, and a sign or a blank before a digit is accepted, so the
    guard on NaN does not see them.  A channel can then even be
    negative.  A well-formed colour and a pair that starts with a
    character that is no digit behave as documented. *)
Theorem hexToRgb_malformed_input :
  Color.hexToRgb "#1G2H3I" = Some (Color.Rgb (Int 1) (Int 2) (Int 3))
  /\ Color.hexToRgb "#-1-1-1" = Some (Color.Rgb (Int (-1)) (Int (-1)) (Int (-1)))
  /\ Color.hexToRgb "# 1 2 3" = Some (Color.Rgb (Int 1) (Int 2) (Int 3))
  /\ Color.hexToRgb "#G12H3I" = None
  /\ Color.hexToRgb "#12G" = None
  /\ Color.hexToRgb "#12345" = None
  /\ Color.hexToRgb "#0066CC" = Some (Color.Rgb (Int 0) (Int 102) (Int 204))
  /\ Color.hexToRgb "06c" = Some (Color.Rgb (Int 0) (Int 102) (Int 204)).
Proof. vm_compute. repeat split. Qed.

(** ** Contrast of two tokens *)

Lemma findByName_absent (n : string) (tokens : list DesignToken) :
  (forall t, In t tokens -> name t <> n) ->
  Accessibility.findByName n tokens = None.
Proof.
  unfold Accessibility.findByName.
  induction tokens as [|a l IH]; intros H; simpl; [reflexivity|].
  destruct (String.eqb_spec (name a) n) as [E|_].
  - exfalso. exact (H a (or_introl eq_refl) E).
  - apply IH. intros t Ht. apply H. right. exact Ht.
Qed.

Lemma checkContrast_unparsed (pow : num -> num -> num) (fg bg : string) :
  Color.parseColor fg = None \/ Color.parseColor bg = None ->
  Color.checkContrast pow fg bg = None.
Proof.
  intros H. unfold Color.checkContrast, Color.getContrastRatio.
  destruct H as [H|H]; rewrite H; [reflexivity|].
  destruct (Color.parseColor fg); reflexivity.
Qed.

(** C6.  [checkTokenContrast] is a total function: every call returns a
    result record.  When one of the two names has no entry in the catalog
    the result has no contrast, does not pass and says that a token was
    not found; when both names resolve and one of the two values is not
    parsed as a colour the result has no contrast, does not pass and
    carries the diagnostic reason. *)
Theorem checkTokenContrast_structured :
  forall (pow : num -> num -> num) (fg bg : string)
         (tokens : list DesignToken),
    ((forall t, In t tokens -> name t <> fg)
     \/ (forall t, In t tokens -> name t <> bg) ->
     Accessibility.checkTokenContrast pow fg bg tokens
     = Accessibility.Checked fg bg "" "" None false (Some "Token not found"))
    /\ (forall f b : DesignToken,
           Accessibility.findByName fg tokens = Some f ->
           Accessibility.findByName bg tokens = Some b ->
           Color.parseColor (value f) = None
           \/ Color.parseColor (value b) = None ->
           Accessibility.checkTokenContrast pow fg bg tokens
           = Accessibility.Checked fg bg (value f) (value b) None false
               (Some "Unable to calculate contrast (non-color tokens?)")).
Proof.
  intros pow fg bg tokens. unfold Accessibility.checkTokenContrast. split.
  - intros [H|H]; rewrite (findByName_absent _ _ H);
      [|destruct (Accessibility.findByName fg tokens)]; reflexivity.
  - intros f b Hf Hb Hparse. rewrite Hf, Hb.
    rewrite (checkContrast_unparsed pow _ _ Hparse). reflexivity.
Qed.

Lemma checkTokenContrast_structured_witness :
  Accessibility.checkTokenContrast anyPow "color-text" "color-missing" smallCatalog
  = Accessibility.Checked "color-text" "color-missing" "" "" None false
      (Some "Token not found")
  /\ Accessibility.checkTokenContrast anyPow "color-text" "spacing-md" smallCatalog
     = Accessibility.Checked "color-text" "spacing-md" "#212529" "16px" None false
         (Some "Unable to calculate contrast (non-color tokens?)").
Proof.
  split.
  - apply (proj1 (checkTokenContrast_structured anyPow "color-text"
                    "color-missing" smallCatalog)).
    right. intros t [Ht | [Ht | []]]; subst t; discriminate.
  - apply (proj2 (checkTokenContrast_structured anyPow "color-text"
                    "spacing-md" smallCatalog)
             (Token "color-text" "#212529" "color" None)
             (Token "spacing-md" "16px" "spacing" None)).
    + reflexivity.
    + reflexivity.
    + right. reflexivity.
Defined.

(** C10.  With a background name that has no entry in the catalog,
    [checkAllCombinations] returns the empty list. *)
Theorem checkAllCombinations_unknown_background :
  forall (pow : num -> num -> num) (bg : string) (tokens : list DesignToken),
    (forall t, In t tokens -> name t <> bg) ->
    Accessibility.checkAllCombinations pow bg tokens = [].
Proof.
  intros pow bg tokens H. unfold Accessibility.checkAllCombinations.
  rewrite (findByName_absent _ _ H). reflexivity.
Qed.

Lemma checkAllCombinations_unknown_background_witness :
  Accessibility.checkAllCombinations anyPow "color-missing" smallCatalog = [].
Proof.
  apply (checkAllCombinations_unknown_background anyPow "color-missing"
           smallCatalog).
  intros t [Ht | [Ht | []]]; subst t; discriminate.
Defined.

(** ** Theme assembly over the static catalog *)

(** C7.  With an override for [primary] alone, the theme does not keep
    the catalog values of the other families: all six families are
    rebuilt, the five without an override from the built-in default hex
    colours, whose hue, saturation and lightness are not those of the
    catalog.  The neutral hue goes from [216] to [226].  Tokens outside
    the colour category keep their value. *)
Theorem generateTheme_primary_only :
  let themed := ThemeGenerator.generateTheme OpticsData.designTokens primaryOnly in
  valueOf "op-color-neutral-h" OpticsData.designTokens = Some "216"
  /\ valueOf "op-color-neutral-h" themed = Some "226"
  /\ valueOf "op-color-alerts-danger-h" OpticsData.designTokens = Some "0"
  /\ valueOf "op-color-alerts-danger-h" themed = Some "343"
  /\ changedNames OpticsData.designTokens themed
     = ["op-color-primary-h"; "op-color-primary-s"; "op-color-primary-l";
        "op-color-neutral-h"; "op-color-neutral-s";
        "op-color-alerts-warning-h"; "op-color-alerts-warning-l";
        "op-color-alerts-danger-h"; "op-color-alerts-danger-s";
        "op-color-alerts-danger-l"; "op-color-alerts-info-h";
        "op-color-alerts-info-s"; "op-color-alerts-info-l";
        "op-color-alerts-notice-h"; "op-color-alerts-notice-s";
        "op-color-alerts-notice-l"]
  /\ filter (fun t => negb (String.eqb (category t) "color")) themed
     = filter (fun t => negb (String.eqb (category t) "color"))
         OpticsData.designTokens.
Proof. vm_compute. repeat split. Qed.

(** ** Rounding to binary64 *)

Lemma nearestEven_comp (x y : Q) : x == y -> nearestEven x = nearestEven y.
Proof.
  intros H. unfold nearestEven. rewrite (Qfloor_comp _ _ H).
  assert (E : Qcompare (x - inject_Z (Qfloor y)) (1 # 2)
              = Qcompare (y - inject_Z (Qfloor y)) (1 # 2)).
  { apply Qcompare_comp; [rewrite H; reflexivity|reflexivity]. }
  rewrite E. reflexivity.
Qed.

Lemma nearestEven_bounds (q : Q) :
  inject_Z (nearestEven q) - (1 # 2) <= q <= inject_Z (nearestEven q) + (1 # 2).
Proof.
  unfold nearestEven.
  pose proof (Qfloor_le q) as Hlo. pose proof (Qlt_floor q) as Hhi.
  rewrite inject_Z_plus in Hhi. change (inject_Z 1) with 1 in Hhi.
  destruct (Qcompare_spec (q - inject_Z (Qfloor q)) (1 # 2)) as [E|E|E].
  - destruct (Z.even (Qfloor q));
      [|rewrite inject_Z_plus; change (inject_Z 1) with 1]; lra.
  - lra.
  - rewrite inject_Z_plus. change (inject_Z 1) with 1. lra.
Qed.

Lemma nearestEven_mono (x y : Q) : x <= y -> (nearestEven x <= nearestEven y)%Z.
Proof.
  intros H. destruct (Z_le_gt_dec (nearestEven x) (nearestEven y)) as [L|G];
    [exact L|exfalso].
  pose proof (nearestEven_bounds x) as [Bx _].
  pose proof (nearestEven_bounds y) as [_ By].
  assert (G' : inject_Z (nearestEven y) + 1 <= inject_Z (nearestEven x)).
  { change 1 with (inject_Z 1). rewrite <- inject_Z_plus, <- Zle_Qle. lia. }
  assert (E : x == y) by lra.
  rewrite (nearestEven_comp _ _ E) in G. lia.
Qed.

Lemma nearestEven_Z (z : Z) : nearestEven (inject_Z z) = z.
Proof.
  unfold nearestEven. rewrite Qfloor_Z.
  destruct (Qcompare_spec (inject_Z z - inject_Z z) (1 # 2)) as [E|E|E];
    [exfalso; lra|reflexivity|exfalso; lra].
Qed.

Lemma pow2_pos (k : Z) : 0 < 2 ^ k.
Proof. apply Qpower_0_lt. reflexivity. Qed.

Lemma pow2_add (a b : Z) : 2 ^ (a + b) == 2 ^ a * 2 ^ b.
Proof. apply Qpower_plus. discriminate. Qed.

Lemma pow2_le (a b : Z) : (a <= b)%Z -> 2 ^ a <= 2 ^ b.
Proof. intros H. apply Qpower_le_compat_l; [exact H|discriminate]. Qed.

Lemma pow2_Z (n : Z) : (0 <= n)%Z -> inject_Z (2 ^ n) == 2 ^ n.
Proof. intros H. rewrite (Zpower_Qpower 2 n H). reflexivity. Qed.

Lemma ilog2_spec (q : Q) : 0 < q -> 2 ^ ilog2 q <= q /\ q < 2 ^ (ilog2 q + 1).
Proof.
  intros Hq. unfold ilog2.
  destruct q as [n d]. cbn [Qnum Qden].
  assert (Hn : (0 < n)%Z).
  { unfold Qlt in Hq. cbn in Hq. lia. }
  set (a := Z.log2 n). set (b := Z.log2 (Z.pos d)).
  destruct (Z.log2_spec n Hn) as [An An'].
  destruct (Z.log2_spec (Z.pos d) ltac:(lia)) as [Bd Bd'].
  fold a in An, An'. fold b in Bd, Bd'.
  assert (Ha : (0 <= a)%Z) by apply Z.log2_nonneg.
  assert (Hb : (0 <= b)%Z) by apply Z.log2_nonneg.
  assert (Qn : 2 ^ a <= inject_Z n /\ inject_Z n < 2 ^ (a + 1)).
  { split.
    - rewrite <- pow2_Z by lia. rewrite <- Zle_Qle. exact An.
    - rewrite <- pow2_Z by lia. rewrite <- Zlt_Qlt. exact An'. }
  assert (Qd : 2 ^ b <= inject_Z (Z.pos d) /\ inject_Z (Z.pos d) < 2 ^ (b + 1)).
  { split.
    - rewrite <- pow2_Z by lia. rewrite <- Zle_Qle. exact Bd.
    - rewrite <- pow2_Z by lia. rewrite <- Zlt_Qlt. exact Bd'. }
  assert (Eq : n # d == inject_Z n / inject_Z (Z.pos d)) by apply Qmake_Qdiv.
  assert (Dpos : 0 < inject_Z (Z.pos d)) by reflexivity.
  assert (Lo : 2 ^ (a - b - 1) <= n # d).
  { rewrite Eq. apply Qle_shift_div_l; [exact Dpos|].
    apply Qle_trans with (2 ^ (a - b - 1) * 2 ^ (b + 1)).
    - apply Qmult_le_l; [apply pow2_pos|apply Qlt_le_weak, Qd].
    - rewrite <- pow2_add. replace (a - b - 1 + (b + 1))%Z with a by lia.
      apply Qn. }
  assert (Hi : n # d < 2 ^ (a - b + 1)).
  { rewrite Eq. apply Qlt_shift_div_r; [exact Dpos|].
    apply Qlt_le_trans with (2 ^ (a + 1)); [apply Qn|].
    replace (a + 1)%Z with (a - b + 1 + b)%Z by lia. rewrite pow2_add.
    apply Qmult_le_l; [apply pow2_pos|apply Qd]. }
  destruct (Qle_bool (2 ^ (a - b)) (n # d)) eqn:E.
  - apply Qle_bool_iff in E. split; assumption.
  - assert (E' : n # d < 2 ^ (a - b)).
    { apply Qnot_le_lt. intros C. apply Qle_bool_iff in C. congruence. }
    replace (a - b - 1 + 1)%Z with (a - b)%Z by lia. split; assumption.
Qed.

Lemma ilog2_mono (x y : Q) : 0 < x -> x <= y -> (ilog2 x <= ilog2 y)%Z.
Proof.
  intros Hx Hxy. destruct (ilog2_spec x Hx) as [Lx _].
  destruct (ilog2_spec y) as [_ Uy]; [lra|].
  assert (H : 2 ^ ilog2 x < 2 ^ (ilog2 y + 1)) by lra.
  apply Qpower_lt_compat_l_inv in H; [lia|reflexivity].
Qed.

Lemma expo64_mono (x y : Q) : 0 < x -> x <= y -> (expo64 x <= expo64 y)%Z.
Proof.
  intros Hx Hxy. unfold expo64. pose proof (ilog2_mono x y Hx Hxy). lia.
Qed.

(** The scaled magnitude is below [2^53], and at least [2^52] above the
    least exponent. *)
Lemma scaled_below (q : Q) : 0 < q -> q / 2 ^ expo64 q < 2 ^ 53.
Proof.
  intros Hq. destruct (ilog2_spec q Hq) as [_ U].
  apply Qlt_shift_div_r; [apply pow2_pos|].
  rewrite <- pow2_add.
  apply Qlt_le_trans with (2 ^ (ilog2 q + 1)); [exact U|].
  apply pow2_le. unfold expo64. lia.
Qed.

Lemma scaled_above (q : Q) :
  0 < q -> (-1074 < expo64 q)%Z -> 2 ^ 52 <= q / 2 ^ expo64 q.
Proof.
  intros Hq He. destruct (ilog2_spec q Hq) as [L _].
  apply Qle_shift_div_l; [apply pow2_pos|].
  rewrite <- pow2_add.
  apply Qle_trans with (2 ^ ilog2 q); [|exact L].
  apply pow2_le. unfold expo64 in *. lia.
Qed.

Lemma roundMagnitude_nonneg (q : Q) : 0 < q -> 0 <= roundMagnitude q.
Proof.
  intros Hq. unfold roundMagnitude.
  apply Qmult_le_0_compat; [|apply Qlt_le_weak, pow2_pos].
  change 0 with (inject_Z 0). rewrite <- Zle_Qle.
  rewrite <- (nearestEven_Z 0). apply nearestEven_mono.
  change (inject_Z 0) with 0.
  apply Qle_shift_div_l; [apply pow2_pos|lra].
Qed.

Lemma roundMagnitude_comp (x y : Q) :
  0 < x -> x == y -> roundMagnitude x == roundMagnitude y.
Proof.
  intros Hx H. unfold roundMagnitude.
  assert (E : expo64 x = expo64 y).
  { unfold expo64. f_equal. f_equal.
    apply Z.le_antisymm; apply ilog2_mono; lra. }
  rewrite E. rewrite (nearestEven_comp (x / 2 ^ expo64 y) (y / 2 ^ expo64 y)).
  - reflexivity.
  - rewrite H. reflexivity.
Qed.

Lemma roundMagnitude_mono (x y : Q) :
  0 < x -> x <= y -> roundMagnitude x <= roundMagnitude y.
Proof.
  intros Hx Hxy. assert (Hy : 0 < y) by lra.
  pose proof (expo64_mono x y Hx Hxy) as He.
  unfold roundMagnitude.
  destruct (Z.eq_dec (expo64 x) (expo64 y)) as [E|NE].
  - rewrite E. apply Qmult_le_compat_r; [|apply Qlt_le_weak, pow2_pos].
    rewrite <- Zle_Qle. apply nearestEven_mono.
    apply Qmult_le_compat_r; [exact Hxy|].
    apply Qlt_le_weak, Qinv_lt_0_compat, pow2_pos.
  - assert (Hlt : (expo64 x + 1 <= expo64 y)%Z) by lia.
    apply Qle_trans with (2 ^ 53 * 2 ^ expo64 x).
    + apply Qmult_le_compat_r; [|apply Qlt_le_weak, pow2_pos].
      rewrite <- (pow2_Z 53) by lia. rewrite <- Zle_Qle.
      rewrite <- (nearestEven_Z (2 ^ 53)). apply nearestEven_mono.
      rewrite (pow2_Z 53) by lia. apply Qlt_le_weak, scaled_below, Hx.
    + apply Qle_trans with (2 ^ 52 * 2 ^ expo64 y).
      * rewrite <- !pow2_add. apply pow2_le. lia.
      * apply Qmult_le_compat_r; [|apply Qlt_le_weak, pow2_pos].
        rewrite <- (pow2_Z 52) by lia. rewrite <- Zle_Qle.
        rewrite <- (nearestEven_Z (2 ^ 52)). apply nearestEven_mono.
        rewrite (pow2_Z 52) by lia. apply scaled_above; [exact Hy|].
        unfold expo64 in *. lia.
Qed.

Lemma round64_sign (q : Q) :
  (0 <= q -> 0 <= round64 q) /\ (q <= 0 -> round64 q <= 0).
Proof.
  unfold round64. destruct (Qcompare_spec q 0) as [E|L|G].
  - split; intros; lra.
  - split; intros H; [lra|]. rewrite Qred_correct.
    pose proof (roundMagnitude_nonneg (- q)). lra.
  - split; intros H; [|lra]. rewrite Qred_correct.
    apply roundMagnitude_nonneg. exact G.
Qed.

Lemma round64_mono (x y : Q) : x <= y -> round64 x <= round64 y.
Proof.
  intros H.
  destruct (Qlt_le_dec 0 x) as [Px|Nx].
  - unfold round64.
    destruct (Qcompare_spec x 0) as [E|L|G]; [lra|lra|].
    destruct (Qcompare_spec y 0) as [E'|L'|G']; [lra|lra|].
    rewrite !Qred_correct. apply roundMagnitude_mono; assumption.
  - destruct (Qlt_le_dec y 0) as [Ny|Py].
    + unfold round64.
      destruct (Qcompare_spec x 0) as [E|L|G]; [lra| |lra].
      destruct (Qcompare_spec y 0) as [E'|L'|G']; [lra| |lra].
      rewrite !Qred_correct.
      pose proof (roundMagnitude_mono (- y) (- x)). lra.
    + destruct (round64_sign x) as [_ Hx]. destruct (round64_sign y) as [Hy _].
      specialize (Hx Nx). specialize (Hy Py). lra.
Qed.

Lemma round64_comp (x y : Q) : x == y -> round64 x = round64 y.
Proof.
  intros H. unfold round64.
  assert (E : Qcompare x 0 = Qcompare y 0)
    by (apply Qcompare_comp; [exact H|reflexivity]).
  rewrite E. destruct (Qcompare_spec y 0) as [E'|L|G].
  - reflexivity.
  - apply Qred_complete. rewrite (roundMagnitude_comp (- x) (- y)); [reflexivity|lra|lra].
  - apply Qred_complete. apply roundMagnitude_comp; lra.
Qed.

Lemma round64_opp (q : Q) : round64 (- q) == - round64 q.
Proof.
  unfold round64.
  destruct (Qcompare_spec q 0) as [E|L|G];
    destruct (Qcompare_spec (- q) 0) as [E'|L'|G']; try lra.
  - rewrite !Qred_correct. ring.
  - rewrite !Qred_correct.
    rewrite (roundMagnitude_comp (- - q) q); [reflexivity|lra|ring].
Qed.

(** An integer that fits in 53 bits is a binary64 number; the rounding of
    any integer is an integer. *)
Lemma round64_Z (z : Z) :
  exists m : Z, round64 (inject_Z z) == inject_Z m
                /\ ((Z.abs z < 2 ^ 53)%Z -> m = z).
Proof.
  assert (Pos : forall z, (0 < z)%Z ->
            exists m : Z, roundMagnitude (inject_Z z) == inject_Z m
                          /\ ((z < 2 ^ 53)%Z -> m = z)).
  { clear z. intros z Hz.
    assert (Hq : 0 < inject_Z z).
    { change 0 with (inject_Z 0). rewrite <- Zlt_Qlt. exact Hz. }
    unfold roundMagnitude. set (e := expo64 (inject_Z z)).
    destruct (Z_le_gt_dec e 0) as [Le|Gt].
    - exists z. split; [|reflexivity].
      assert (E : inject_Z z / 2 ^ e == inject_Z (z * 2 ^ (- e))).
      { rewrite inject_Z_mult, pow2_Z by lia. rewrite Qpower_opp.
        field. apply Qpower_not_0. discriminate. }
      rewrite (nearestEven_comp _ _ E), nearestEven_Z.
      rewrite inject_Z_mult, pow2_Z by lia. rewrite Qpower_opp.
      field. apply Qpower_not_0. discriminate.
    - exists (nearestEven (inject_Z z / 2 ^ e) * 2 ^ e)%Z. split.
      + rewrite inject_Z_mult, pow2_Z by lia. reflexivity.
      + intros Hsmall. exfalso.
        destruct (ilog2_spec _ Hq) as [L _].
        assert (Hlt : inject_Z z < 2 ^ 53).
        { rewrite <- (pow2_Z 53) by lia. rewrite <- Zlt_Qlt. exact Hsmall. }
        assert (H : 2 ^ ilog2 (inject_Z z) < 2 ^ 53) by lra.
        apply Qpower_lt_compat_l_inv in H; [|reflexivity].
        unfold e, expo64 in Gt. lia. }
  destruct (Z.lt_trichotomy z 0) as [N|[E|P]].
  - destruct (Pos (- z)%Z ltac:(lia)) as [m [Hm Hs]].
    exists (- m)%Z. split.
    + unfold round64.
      destruct (Qcompare_spec (inject_Z z) 0) as [E|L|G].
      * exfalso. unfold Qeq in E. cbn in E. lia.
      * rewrite Qred_correct, inject_Z_opp.
        rewrite (roundMagnitude_comp (- inject_Z z) (inject_Z (- z))).
        -- rewrite Hm. reflexivity.
        -- lra.
        -- rewrite inject_Z_opp. reflexivity.
      * exfalso. unfold Qlt in G. cbn in G. lia.
    + intros H. rewrite Hs; lia.
  - subst z. exists 0%Z. split; [reflexivity|reflexivity].
  - destruct (Pos z P) as [m [Hm Hs]]. exists m. split.
    + unfold round64.
      destruct (Qcompare_spec (inject_Z z) 0) as [E|L|G].
      * exfalso. unfold Qeq in E. cbn in E. lia.
      * exfalso. unfold Qlt in L. cbn in L. lia.
      * rewrite Qred_correct. exact Hm.
    + intros H. apply Hs. lia.
Qed.

(** *** The Number for an integer *)

(** [integer64 z] is [z] rounded to binary64. *)
Lemma integer64_agrees (z : Z) :
  sameNumber (toNum (integer64 z)) (toBinary64 (Fin (inject_Z z))).
Proof.
  destruct (round64_Z z) as [m [Hm Hs]].
  unfold integer64, toBinary64.
  destruct (Z.abs z <? 2 ^ 53)%Z eqn:E.
  - apply Z.ltb_lt in E. specialize (Hs E). subst m. cbn [toNum].
    assert (Hsmall : Qabs (round64 (inject_Z z)) < 2 ^ 1024).
    { rewrite Hm. change (Qabs (inject_Z z)) with (inject_Z (Z.abs z)).
      apply Qlt_le_trans with (2 ^ 53).
      - rewrite <- (pow2_Z 53) by lia. rewrite <- Zlt_Qlt. exact E.
      - apply pow2_le. lia. }
    set (r := round64 (inject_Z z)) in *. set (big := 2 ^ 1024) in *.
    cbv zeta. destruct (Qle_bool big (Qabs r)) eqn:O.
    + apply Qle_bool_iff in O. exfalso. lra.
    + cbn [sameNumber]. symmetry. exact Hm.
  - set (r := round64 (inject_Z z)) in *. set (big := 2 ^ 1024) in *.
    cbv zeta. destruct (Qle_bool big (Qabs r)).
    + unfold inf_of_sign. destruct (Qlt_bool 0 r); exact I.
    + cbn [toNum sameNumber]. rewrite (Qfloor_comp _ _ Hm), Qfloor_Z.
      symmetry. exact Hm.
Qed.

(** *** The sign of a difference *)

(** Every binary64 number is a multiple of [2^-1074]. *)
Lemma roundMagnitude_grid (q : Q) :
  exists k : Z, roundMagnitude q == inject_Z k * 2 ^ (-1074).
Proof.
  unfold roundMagnitude. set (e := expo64 q).
  exists (nearestEven (q / 2 ^ e) * 2 ^ (e + 1074))%Z.
  assert (He : (0 <= e + 1074)%Z) by (unfold e, expo64; lia).
  rewrite inject_Z_mult, pow2_Z by exact He.
  replace e with (e + 1074 + -1074)%Z at 2 by lia.
  rewrite pow2_add. ring.
Qed.

Lemma round64_grid (q : Q) :
  exists k : Z, round64 q == inject_Z k * 2 ^ (-1074).
Proof.
  unfold round64. destruct (Qcompare q 0).
  - exists 0%Z. ring.
  - destruct (roundMagnitude_grid (- q)) as [k Hk]. exists (- k)%Z.
    rewrite Qred_correct, Hk, inject_Z_opp. ring.
  - destruct (roundMagnitude_grid q) as [k Hk]. exists k.
    rewrite Qred_correct. exact Hk.
Qed.

Lemma least_binary64 : round64 (2 ^ (-1074)) == 2 ^ (-1074).
Proof. vm_compute. reflexivity. Qed.

(** The difference of two Numbers is rounded to a number of the same
    sign: it is zero, or at least [2^-1074] in magnitude. *)
Lemma round64_difference_sign (x y : Q) :
  (0 < round64 x - round64 y -> 0 < round64 (round64 x - round64 y))
  /\ (round64 x - round64 y < 0 -> round64 (round64 x - round64 y) < 0).
Proof.
  destruct (round64_grid x) as [kx Hx]. destruct (round64_grid y) as [ky Hy].
  pose proof (pow2_pos (-1074)) as Hu. pose proof least_binary64 as Hl.
  set (u := 2 ^ (-1074)) in *.
  assert (E : round64 x - round64 y == inject_Z (kx - ky) * u).
  { rewrite Hx, Hy. unfold Z.sub. rewrite inject_Z_plus, inject_Z_opp. ring. }
  split; intros H.
  - assert (Hk : (1 <= kx - ky)%Z).
    { destruct (Z_lt_le_dec 0 (kx - ky)) as [L|G]; [lia|exfalso].
      assert (inject_Z (kx - ky) <= 0)
        by (change 0 with (inject_Z 0); rewrite <- Zle_Qle; exact G).
      rewrite E in H. nra. }
    assert (Hge : u <= round64 x - round64 y).
    { rewrite E. assert (1 <= inject_Z (kx - ky))
        by (change 1 with (inject_Z 1); rewrite <- Zle_Qle; exact Hk).
      nra. }
    pose proof (round64_mono _ _ Hge) as M. rewrite Hl in M. lra.
  - assert (Hk : (kx - ky <= -1)%Z).
    { destruct (Z_lt_le_dec (kx - ky) 0) as [L|G]; [lia|exfalso].
      assert (0 <= inject_Z (kx - ky))
        by (change 0 with (inject_Z 0); rewrite <- Zle_Qle; exact G).
      rewrite E in H. nra. }
    assert (Hle : round64 x - round64 y <= - u).
    { rewrite E. assert (inject_Z (kx - ky) <= -1)
        by (change (-1) with (inject_Z (-1)); rewrite <- Zle_Qle; exact Hk).
      nra. }
    pose proof (round64_mono _ _ Hle) as M.
    rewrite round64_opp, Hl in M. lra.
Qed.

(** *** Rounding at work *)

(** [0.1] is not a binary64 number, and the integer after [2^53] is
    not one either. *)
Lemma rounding_examples :
  literal (1 # 10) = Fin (3602879701896397 # 36028797018963968)
  /\ parseInt "9007199254740993" None = Int 9007199254740992
  /\ parseInt (str (repeat "9"%char 400)) None = IPInf
  /\ parseFloat "1e400" = PInf.
Proof. vm_compute. repeat split. Qed.

(** ** Order facts on numbers *)

Lemma Qlt_bool_iff (x y : Q) : Qlt_bool x y = true <-> x < y.
Proof.
  unfold Qlt_bool. rewrite negb_true_iff. split.
  - intros H. apply Qnot_le_lt. intros L.
    apply Qle_bool_iff in L. congruence.
  - intros H. destruct (Qle_bool y x) eqn:E; [|reflexivity].
    apply Qle_bool_iff in E. exfalso. exact (Qlt_not_le _ _ H E).
Qed.

Lemma Qlt_bool_false (x y : Q) : Qlt_bool x y = false <-> y <= x.
Proof.
  unfold Qlt_bool. rewrite negb_false_iff. apply Qle_bool_iff.
Qed.

Lemma gt_notNaN (a b : num) : gt a b = true -> notNaN a.
Proof. intros H E. subst a. destruct b; discriminate. Qed.

Lemma isNumber_notNaN (a : num) : isNumber a -> notNaN a.
Proof. intros H E. subst a. exact H. Qed.

(** What comes out of a rounded operation is a Number. *)
Lemma toBinary64_isNumber (a : num) :
  notNaN (toBinary64 a) -> isNumber (toBinary64 a).
Proof.
  destruct a as [q| | |]; cbn [toBinary64 isNumber]; intros H;
    [|exact I|exact I|apply H; reflexivity].
  destruct (Qle_bool _ _).
  - unfold inf_of_sign. destruct (Qlt_bool 0 (round64 q)); exact I.
  - exists q. reflexivity.
Qed.

(** On Numbers other than NaN, the sign of [b - a] tells whether
    [a < b]. *)
Lemma sub64_positive_lt (a b : num) :
  isNumber a -> isNumber b -> gt (sub64 b a) (Fin 0) = lt a b.
Proof.
  intros Ha Hb. destruct a as [x| | |], b as [y| | |];
    try reflexivity; try contradiction.
  destruct Ha as [x0 Hx]. destruct Hb as [y0 Hy].
  unfold sub64, sub, gt. cbn [neg add].
  assert (E : round64 (y + - x) = round64 (round64 y0 - round64 x0)).
  { apply round64_comp. rewrite Hx, Hy. reflexivity. }
  destruct (round64_difference_sign y0 x0) as [Hpos Hneg].
  destruct (round64_sign (round64 y0 - round64 x0)) as [_ Hle].
  rewrite <- E in Hpos, Hneg, Hle.
  assert (Hlt : lt (Fin 0) (toBinary64 (Fin (y + - x)))
                = Qlt_bool 0 (round64 (y + - x))).
  { unfold toBinary64. destruct (Qle_bool _ _); [|reflexivity].
    unfold inf_of_sign. destruct (Qlt_bool 0 (round64 (y + - x))); reflexivity. }
  rewrite Hlt. cbn [lt].
  destruct (Qlt_bool x y) eqn:Exy.
  - apply Qlt_bool_iff in Exy. apply Qlt_bool_iff. apply Hpos. lra.
  - apply Qlt_bool_false in Exy. apply Qlt_bool_false. apply Hle. lra.
Qed.

Lemma lt_le (a b : num) : lt a b = true -> le a b = true.
Proof.
  destruct a as [x| | |], b as [y| | |]; simpl; try congruence.
  intros H. apply Qlt_bool_iff in H. apply Qle_bool_iff. lra.
Qed.

Lemma not_lt_le (a b : num) :
  notNaN a -> notNaN b -> lt a b = false -> le b a = true.
Proof.
  intros Ha Hb. destruct a as [x| | |], b as [y| | |]; simpl; try congruence;
    try (exfalso; apply Ha; reflexivity); try (exfalso; apply Hb; reflexivity).
  intros H. apply Qlt_bool_false in H. apply Qle_bool_iff. exact H.
Qed.

Lemma le_trans (a b c : num) :
  le a b = true -> le b c = true -> le a c = true.
Proof.
  destruct a as [x| | |], b as [y| | |], c as [z| | |]; simpl; try congruence.
  intros H1 H2. apply Qle_bool_iff in H1, H2. apply Qle_bool_iff. lra.
Qed.

Lemma lt_not_both_eq (a b v : num) :
  lt a b = true -> strictEq a v = true -> strictEq b v = true -> False.
Proof.
  destruct a as [x| | |], b as [y| | |], v as [z| | |]; simpl; try congruence.
  intros H1 H2 H3. apply Qlt_bool_iff in H1.
  apply Qeq_bool_iff in H2, H3. lra.
Qed.

(** ** The stable sort *)

Section SortByKey.
Context {A : Type}.
Variable key : A -> num.

Lemma insert_perm (x : A) (l : list A) :
  Permutation (JsArray.insert (keyCmp key) x l) (x :: l).
Proof.
  induction l as [|y l IH]; cbn [JsArray.insert]; [apply Permutation_refl|].
  destruct (gt (keyCmp key x y) (Fin 0)).
  - apply Permutation_trans with (y :: x :: l).
    + apply perm_skip. exact IH.
    + apply perm_swap.
  - apply Permutation_refl.
Qed.

Lemma sort_perm (l : list A) : Permutation (JsArray.sort (keyCmp key) l) l.
Proof.
  induction l as [|x l IH]; [apply perm_nil|].
  unfold JsArray.sort. cbn [fold_right]. fold (JsArray.sort (keyCmp key) l).
  apply Permutation_trans with (x :: JsArray.sort (keyCmp key) l).
  - apply insert_perm.
  - apply perm_skip. exact IH.
Qed.

Lemma insert_sorted (x : A) (l : list A) :
  isNumber (key x) -> Forall (fun y => isNumber (key y)) l ->
  StronglySorted (keyDesc key) l -> StronglySorted (keyDesc key) (JsArray.insert (keyCmp key) x l).
Proof.
  intros Hx. induction l as [|y l IH]; intros Hl Hs; cbn [JsArray.insert].
  - constructor; constructor.
  - inversion Hl as [|? ? Hy Hl']; subst.
    inversion Hs as [|? ? Hs' Hall]; subst.
    unfold keyCmp at 1. rewrite (sub64_positive_lt _ _ Hx Hy).
    destruct (lt (key x) (key y)) eqn:E.
    + constructor; [apply IH; assumption|].
      apply (Permutation_Forall (Permutation_sym (insert_perm x l))).
      constructor; [apply lt_le; exact E|exact Hall].
    + pose proof (not_lt_le _ _ (isNumber_notNaN _ Hx) (isNumber_notNaN _ Hy) E)
        as Hyx.
      constructor; [exact Hs|].
      constructor; [exact Hyx|].
      apply Forall_impl with (P := keyDesc key y); [|exact Hall].
      intros z Hz. unfold keyDesc in *. apply le_trans with (key y); assumption.
Qed.

Lemma sort_sorted (l : list A) :
  Forall (fun y => isNumber (key y)) l -> StronglySorted (keyDesc key) (JsArray.sort (keyCmp key) l).
Proof.
  induction l as [|x l IH]; intros Hl; [constructor|].
  unfold JsArray.sort. cbn [fold_right]. fold (JsArray.sort (keyCmp key) l).
  inversion Hl as [|? ? Hx Hl']; subst.
  apply insert_sorted; [exact Hx| |apply IH; exact Hl'].
  apply (Permutation_Forall (Permutation_sym (sort_perm l))). exact Hl'.
Qed.

Lemma insert_stable (v : num) (x : A) (l : list A) :
  isNumber (key x) -> Forall (fun y => isNumber (key y)) l ->
  filter (keyEq key v) (JsArray.insert (keyCmp key) x l) = filter (keyEq key v) (x :: l).
Proof.
  intros Hx. induction l as [|y l IH]; intros Hl; [reflexivity|].
  inversion Hl as [|? ? Hy Hl']; subst.
  cbn [JsArray.insert]. unfold keyCmp at 1. rewrite (sub64_positive_lt _ _ Hx Hy).
  destruct (lt (key x) (key y)) eqn:E; [|reflexivity].
  cbn [filter]. rewrite (IH Hl'). cbn [filter].
  destruct (keyEq key v x) eqn:Ex, (keyEq key v y) eqn:Ey; try reflexivity.
  exfalso. exact (lt_not_both_eq _ _ _ E Ex Ey).
Qed.

Lemma sort_stable (v : num) (l : list A) :
  Forall (fun y => isNumber (key y)) l ->
  filter (keyEq key v) (JsArray.sort (keyCmp key) l) = filter (keyEq key v) l.
Proof.
  induction l as [|x l IH]; intros Hl; [reflexivity|].
  inversion Hl as [|? ? Hx Hl']; subst.
  unfold JsArray.sort. cbn [fold_right]. fold (JsArray.sort (keyCmp key) l).
  rewrite insert_stable.
  - cbn [filter]. rewrite (IH Hl'). reflexivity.
  - exact Hx.
  - apply (Permutation_Forall (Permutation_sym (sort_perm l))). exact Hl'.
Qed.

End SortByKey.

Lemma StronglySorted_firstn {A : Type} (R : A -> A -> Prop) (n : nat) (l : list A) :
  StronglySorted R l -> StronglySorted R (firstn n l).
Proof.
  revert l. induction n as [|n IH]; intros l Hs; [constructor|].
  destruct l as [|x l]; [constructor|]. simpl.
  inversion Hs as [|? ? Hs' Hall]; subst.
  constructor; [apply IH; exact Hs'|].
  apply Forall_forall. intros y Hy.
  eapply Forall_forall in Hall; [exact Hall|].
  revert Hy. clear. revert l. induction n as [|n IH]; intros l Hy; [destruct Hy|].
  destruct l as [|z l]; [destruct Hy|].
  destruct Hy as [Hy|Hy]; [left; exact Hy|right; apply IH; exact Hy].
Qed.

Lemma flat_map_keep {A B : Type} (p : A -> bool) (f : A -> B) (l : list A) :
  flat_map (fun a => if p a then [f a] else []) l = map f (filter p l).
Proof.
  induction l as [|a l IH]; simpl; [reflexivity|].
  destruct (p a); simpl; rewrite IH; reflexivity.
Qed.

Lemma ValueType_eqb_eq (a b : Migration.ValueType) :
  Migration.ValueType_eqb a b = true <-> a = b.
Proof. destruct a, b; simpl; split; congruence. Qed.

(** ** Migration suggestions *)

(** [Math.max(0, a - b)] is a Number, or NaN. *)
Lemma max_zero_isNumber (a b : num) :
  notNaN (JsNumber.max (Fin 0) (sub64 a b)) ->
  isNumber (JsNumber.max (Fin 0) (sub64 a b)).
Proof.
  unfold sub64. intros H.
  assert (Hn : notNaN (toBinary64 (sub a b))).
  { intros E. apply H. rewrite E. reflexivity. }
  pose proof (toBinary64_isNumber _ Hn) as Hi.
  destruct (toBinary64 (sub a b)) as [q| | |]; try contradiction.
  - unfold JsNumber.max. destruct (lt (Fin 0) (Fin q)); [exact Hi|].
    exists 0. vm_compute. reflexivity.
  - exact I.
  - exists 0. vm_compute. reflexivity.
Qed.

(** A similarity is a Number, or NaN. *)
Lemma calculateSimilarity_isNumber (value1 value2 : string)
    (type : Migration.ValueType) :
  notNaN (Migration.calculateSimilarity value1 value2 type) ->
  isNumber (Migration.calculateSimilarity value1 value2 type).
Proof.
  assert (H1 : isNumber (Fin 1)) by (exists 1; vm_compute; reflexivity).
  assert (H0 : isNumber (Fin 0)) by (exists 0; vm_compute; reflexivity).
  assert (H5 : isNumber (Fin (5 # 10)))
    by (exists (5 # 10); vm_compute; reflexivity).
  assert (H3 : isNumber (literal (3 # 10))).
  { apply toBinary64_isNumber. intros E. vm_compute in E. discriminate. }
  unfold Migration.calculateSimilarity. destruct type.
  - destruct (String.eqb _ _); intros _; assumption.
  - apply max_zero_isNumber.
  - apply max_zero_isNumber.
  - apply max_zero_isNumber.
  - destruct (strictEq _ _); intros _; assumption.
  - destruct (String.eqb _ _); intros _; assumption.
  - destruct (String.eqb _ _); intros _; assumption.
  - destruct (String.eqb _ _); intros _; assumption.
Qed.

Lemma kept_above_half (oldValue : string) (tokens : list DesignToken)
    (category : option string) (s : Migration.Suggestion) :
  In s (kept oldValue tokens category) ->
  gt (Migration.similarity s) (Fin (5 # 10)) = true.
Proof.
  unfold kept. intros H. apply in_map_iff in H. destruct H as [t [Hs Ht]].
  apply filter_In in Ht. destruct Ht as [_ Hr].
  unfold retained in Hr. apply andb_true_iff in Hr. destruct Hr as [_ Hg].
  subst s. exact Hg.
Qed.

(** C3, as amended.  The suggestions returned are the first five of a
    ranking of the retained candidates: the candidates whose value has
    the type of the query and whose similarity is above 0.5.  A
    candidate of the right type is in the ranking exactly when its
    similarity is above 0.5, so a similarity of exactly 0.5 is
    discarded.  The ranking is sorted by descending similarity and
    candidates of equal similarity keep their catalog order. *)
Theorem suggestTokenMigration_ranking :
  forall (oldValue : string) (tokens : list DesignToken)
         (category : option string),
  exists ranked : list Migration.Suggestion,
    Migration.suggestedTokens
      (Migration.suggestTokenMigration oldValue tokens category)
    = firstn 5 ranked
    /\ (List.length
          (Migration.suggestedTokens
             (Migration.suggestTokenMigration oldValue tokens category))
        <= 5)%nat
    /\ StronglySorted descending
         (Migration.suggestedTokens
            (Migration.suggestTokenMigration oldValue tokens category))
    /\ Permutation ranked (kept oldValue tokens category)
    /\ StronglySorted descending ranked
    /\ (forall v : num,
           filter (withSimilarity v) ranked
           = filter (withSimilarity v) (kept oldValue tokens category))
    /\ (forall s, In s ranked ->
                  gt (Migration.similarity s) (Fin (5 # 10)) = true)
    /\ (forall t,
           In t (Migration.candidateTokens tokens category) ->
           Migration.detectValueType (value t)
           = Migration.detectValueType oldValue ->
           (In (suggestionOf oldValue t) ranked
            <-> gt (Migration.calculateSimilarity oldValue (value t)
                      (Migration.detectValueType oldValue))
                   (Fin (5 # 10)) = true)).
Proof.
  intros oldValue tokens category.
  set (cmp := fun a b : Migration.Suggestion =>
                sub64 (Migration.similarity b) (Migration.similarity a)).
  exists (JsArray.sort cmp (kept oldValue tokens category)).
  assert (Hcode :
            Migration.suggestedTokens
              (Migration.suggestTokenMigration oldValue tokens category)
            = firstn 5 (JsArray.sort cmp (kept oldValue tokens category))).
  { unfold Migration.suggestTokenMigration, kept, JsArray.slice0.
    cbn [Migration.suggestedTokens]. f_equal. f_equal.
    rewrite <- (flat_map_keep (retained oldValue) (suggestionOf oldValue)).
    apply flat_map_ext. intros t. unfold retained, suggestionOf.
    destruct (Migration.ValueType_eqb _ _); [|reflexivity].
    destruct (gt _ _); reflexivity. }
  assert (Hnum :
            Forall (fun s => isNumber (Migration.similarity s))
                   (kept oldValue tokens category)).
  { apply Forall_forall. intros s Hs.
    pose proof (gt_notNaN _ _ (kept_above_half _ _ _ _ Hs)) as Hn.
    unfold kept in Hs. apply in_map_iff in Hs. destruct Hs as [t [<- _]].
    apply calculateSimilarity_isNumber. exact Hn. }
  pose proof (sort_perm Migration.similarity (kept oldValue tokens category))
    as Hperm.
  pose proof (sort_sorted Migration.similarity _ Hnum) as Hsorted.
  fold cmp in Hperm, Hsorted.
  split; [exact Hcode|]. rewrite Hcode.
  split; [apply firstn_le_length|].
  split; [apply StronglySorted_firstn; exact Hsorted|].
  split; [exact Hperm|].
  split; [exact Hsorted|].
  split; [intros v; apply (sort_stable Migration.similarity v _ Hnum)|].
  split.
  - intros s Hs. apply (kept_above_half oldValue tokens category).
    apply (Permutation_in _ Hperm). exact Hs.
  - intros t Ht Hty. split.
    + intros Hin. apply (Permutation_in _ Hperm) in Hin.
      unfold kept in Hin. apply in_map_iff in Hin.
      destruct Hin as [t' [Heq Ht']].
      apply filter_In in Ht'. destruct Ht' as [_ Hr].
      unfold retained in Hr. apply andb_true_iff in Hr. destruct Hr as [_ Hg].
      assert (Hsim : Migration.similarity (suggestionOf oldValue t')
                     = Migration.similarity (suggestionOf oldValue t))
        by (rewrite Heq; reflexivity).
      simpl in Hsim. rewrite <- Hsim. exact Hg.
    + intros Hg. apply (Permutation_in _ (Permutation_sym Hperm)).
      unfold kept. apply in_map. apply filter_In. split; [exact Ht|].
      unfold retained. rewrite Hg, Hty.
      rewrite (proj2 (ValueType_eqb_eq _ _) eq_refl). reflexivity.
Qed.

Lemma suggestTokenMigration_ranking_witness :
  (List.length
     (Migration.suggestedTokens
        (Migration.suggestTokenMigration "400" boldOnly None)) <= 5)%nat.
Proof.
  destruct (suggestTokenMigration_ranking "400" boldOnly None)
    as [ranked [_ [Hlen _]]].
  exact Hlen.
Defined.

(** C3, as stated, fails: a font-weight candidate whose weight differs
    from the query has similarity 0.5, which is not below 0.5, and it is
    discarded all the same: the test kept in the code is
    [similarity > 0.5]. *)
Lemma suggestTokenMigration_drops_half :
  Migration.detectValueType "400" = Migration.font_weight
  /\ Migration.detectValueType "700" = Migration.font_weight
  /\ Migration.calculateSimilarity "400" "700" Migration.font_weight
     = Fin (5 # 10)
  /\ lt (Fin (5 # 10)) (Fin (5 # 10)) = false
  /\ Migration.suggestedTokens
       (Migration.suggestTokenMigration "400" boldOnly None) = [].
Proof. vm_compute. repeat split. Qed.

(** ** Numbers between 0 and 1 *)

Lemma div_Fin (x y : Q) : ~ y == 0 -> div (Fin x) (Fin y) = Fin (x / y).
Proof.
  intros H. unfold div. destruct (Qeq_bool y 0) eqn:E; [|reflexivity].
  apply Qeq_bool_iff in E. contradiction.
Qed.

Lemma Qdiv_unit (x y : Q) : 0 <= x <= y -> 0 < y -> 0 <= x / y <= 1.
Proof.
  intros [H0 H1] Hy. split.
  - apply Qle_shift_div_l; [exact Hy|lra].
  - apply Qle_shift_div_r; [exact Hy|lra].
Qed.

Lemma Qdiv_sym_unit (x y : Q) :
  - y <= x <= y -> 0 < y ->
  -1 <= x / y <= 1 /\ (x < 0 -> x / y <= 0) /\ (0 <= x -> 0 <= x / y).
Proof.
  intros [H0 H1] Hy. repeat split.
  - apply Qle_shift_div_l; [exact Hy|lra].
  - apply Qle_shift_div_r; [exact Hy|lra].
  - intros Hx. apply Qle_shift_div_r; [exact Hy|lra].
  - intros Hx. apply Qle_shift_div_l; [exact Hy|lra].
Qed.

Lemma max_Fin (x y : Q) :
  exists z, JsNumber.max (Fin x) (Fin y) = Fin z
            /\ (z = x \/ z = y) /\ x <= z /\ y <= z.
Proof.
  unfold JsNumber.max, lt. destruct (Qlt_bool x y) eqn:E.
  - apply Qlt_bool_iff in E. exists y. repeat split; [right; reflexivity|lra|lra].
  - apply Qlt_bool_false in E. exists x. repeat split; [left; reflexivity|lra|lra].
Qed.

Lemma min_Fin (x y : Q) :
  exists z, JsNumber.min (Fin x) (Fin y) = Fin z
            /\ (z = x \/ z = y) /\ z <= x /\ z <= y.
Proof.
  unfold JsNumber.min, lt. destruct (Qlt_bool y x) eqn:E.
  - apply Qlt_bool_iff in E. exists y. repeat split; [right; reflexivity|lra|lra].
  - apply Qlt_bool_false in E. exists x. repeat split; [left; reflexivity|lra|lra].
Qed.

(** ** Hue, saturation and lightness of three channels *)

Lemma hexToHSL_channels (hex : string) :
  ThemeGenerator.hexToHSL hex
  = let hex := removeFirstHash hex in
    hslOfChannels
      (div64 (toNum (parseInt (substring 0 2 hex) (Some 16%Z))) (Fin 255))
      (div64 (toNum (parseInt (substring 2 4 hex) (Some 16%Z))) (Fin 255))
      (div64 (toNum (parseInt (substring 4 6 hex) (Some 16%Z))) (Fin 255)).
Proof. unfold ThemeGenerator.hexToHSL, hslOfChannels. reflexivity. Qed.

Lemma isBinary64_spec (q : Q) :
  isBinary64 q = true -> round64 q == q /\ Qabs q < 2 ^ 1024.
Proof.
  unfold isBinary64. intros H. apply andb_true_iff in H. destruct H as [H1 H2].
  split; [apply Qeq_bool_iff, H1|apply Qlt_bool_iff, H2].
Qed.

(** A value between two binary64 numbers is rounded to a number between
    them, without overflow. *)
Lemma toBinary64_between (lo hi q : Q) :
  isBinary64 lo = true -> isBinary64 hi = true -> lo <= q <= hi ->
  toBinary64 (Fin q) = Fin (round64 q) /\ lo <= round64 q <= hi.
Proof.
  intros Hlo Hhi [L U].
  destruct (isBinary64_spec lo Hlo) as [Elo Blo].
  destruct (isBinary64_spec hi Hhi) as [Ehi Bhi].
  pose proof (round64_mono lo q L) as M1.
  pose proof (round64_mono q hi U) as M2.
  rewrite Elo in M1. rewrite Ehi in M2.
  split; [|split; assumption].
  unfold toBinary64. set (big := 2 ^ 1024) in *.
  destruct (Qle_bool big (Qabs (round64 q))) eqn:E; [exfalso|reflexivity].
  apply Qle_bool_iff in E.
  apply Qabs_Qlt_condition in Blo, Bhi.
  assert (C : Qabs (round64 q) < big) by (apply Qabs_Qlt_condition; lra).
  lra.
Qed.

Lemma add64_Fin (x y : Q) : add64 (Fin x) (Fin y) = toBinary64 (Fin (x + y)).
Proof. reflexivity. Qed.

Lemma sub64_Fin (x y : Q) : sub64 (Fin x) (Fin y) = toBinary64 (Fin (x + - y)).
Proof. reflexivity. Qed.

Lemma mul64_Fin (x y : Q) : mul64 (Fin x) (Fin y) = toBinary64 (Fin (x * y)).
Proof. reflexivity. Qed.

Lemma div64_Fin (x y : Q) :
  ~ y == 0 -> div64 (Fin x) (Fin y) = toBinary64 (Fin (x / y)).
Proof. intros H. unfold div64. rewrite div_Fin by exact H. reflexivity. Qed.

Lemma round64_within (x y : Q) :
  - y <= x <= y -> - round64 y <= round64 x <= round64 y.
Proof.
  intros [L U]. split; [|apply round64_mono, U].
  rewrite <- round64_opp. apply round64_mono, L.
Qed.

Lemma Qdiv_nonpos (x y : Q) : x <= 0 -> 0 < y -> x / y <= 0.
Proof. intros Hx Hy. apply Qle_shift_div_r; [exact Hy|lra]. Qed.

(** [Math.round] of a number of [0, N] is an integer of [0, N]. *)
Lemma round_between (x : Q) (N : Z) :
  0 <= x <= inject_Z N ->
  exists z : Z, round (Fin x) = Int z /\ (0 <= z <= N)%Z.
Proof.
  intros [Hlo Hhi]. cbn [round]. eexists. split; [reflexivity|]. split.
  - change 0%Z with (Qfloor (inject_Z 0)). apply Qfloor_resp_le.
    change (inject_Z 0) with 0. lra.
  - apply Z.lt_succ_r. rewrite Zlt_Qlt.
    apply Qle_lt_trans with (x + (1 # 2)); [apply Qfloor_le|].
    unfold Z.succ. rewrite inject_Z_plus. change (inject_Z 1) with 1. lra.
Qed.

(** A number of [0, 1] scaled by 100 or 360 and rounded is an integer
    of that range. *)
Lemma round_scaled64 (n : num) (N : Z) :
  unit01 n -> (0 <= N)%Z -> isBinary64 (inject_Z N) = true ->
  exists z : Z, round (mul64 n (Fin (inject_Z N))) = Int z /\ (0 <= z <= N)%Z.
Proof.
  intros [q [E [H0 H1]]] HN HB. subst n. rewrite mul64_Fin.
  assert (HNq : 0 <= inject_Z N)
    by (change 0 with (inject_Z 0); rewrite <- Zle_Qle; exact HN).
  assert (Hlo : 0 <= q * inject_Z N) by (apply Qmult_le_0_compat; assumption).
  assert (Hhi : q * inject_Z N <= inject_Z N).
  { setoid_replace (inject_Z N) with (1 * inject_Z N) at 2 by ring.
    apply Qmult_le_compat_r; assumption. }
  destruct (toBinary64_between 0 (inject_Z N) (q * inject_Z N)) as [Er Br];
    [reflexivity|exact HB|split; assumption|].
  rewrite Er. apply round_between. exact Br.
Qed.

Lemma hsl_of_units (h s l : num) :
  unit01 h -> unit01 s -> unit01 l ->
  hslWithin 360
    (ThemeGenerator.Hsl (round (mul64 h (Fin 360))) (round (mul64 s (Fin 100)))
       (round (mul64 l (Fin 100)))).
Proof.
  intros Hh Hs Hl.
  destruct (round_scaled64 h 360 Hh) as [hh [Eh Bh]]; [lia|reflexivity|].
  destruct (round_scaled64 s 100 Hs) as [ss [Es Bs]]; [lia|reflexivity|].
  destruct (round_scaled64 l 100 Hl) as [ll [El Bl]]; [lia|reflexivity|].
  exists hh, ss, ll.
  change (Fin (inject_Z 360)) with (Fin 360) in Eh.
  change (Fin (inject_Z 100)) with (Fin 100) in Es, El.
  rewrite Eh, Es, El. repeat split; lia.
Qed.

Lemma unit01_zero : unit01 (Fin 0).
Proof. exists 0. split; [reflexivity|lra]. Qed.

Lemma unit01_between (q : Q) :
  0 <= q <= 1 ->
  toBinary64 (Fin q) = Fin (round64 q) /\ unit01 (Fin (round64 q)).
Proof.
  intros H. destruct (toBinary64_between 0 1 q) as [E B];
    [reflexivity|reflexivity|exact H|].
  split; [exact E|]. exists (round64 q). split; [reflexivity|exact B].
Qed.

(** *** The channels *)

Lemma channel_value (k : Z) :
  (0 <= k <= 255)%Z ->
  channel k = Fin (channelValue k) /\ 0 <= channelValue k <= 1.
Proof.
  intros [H0 H1]. unfold channel, channelValue. rewrite div64_Fin by lra.
  apply (toBinary64_between 0 1); [reflexivity|reflexivity|].
  apply Qdiv_unit; [|lra]. split.
  - change 0 with (inject_Z 0). rewrite <- Zle_Qle. exact H0.
  - change 255 with (inject_Z 255). rewrite <- Zle_Qle. exact H1.
Qed.

Lemma channelValue_mono (k1 k2 : Z) :
  (k1 <= k2)%Z -> channelValue k1 <= channelValue k2.
Proof.
  intros H. unfold channelValue. apply round64_mono.
  apply Qmult_le_compat_r; [rewrite <- Zle_Qle; exact H|].
  apply Qlt_le_weak, Qinv_lt_0_compat. reflexivity.
Qed.

Lemma channelGaps_checked :
  forallb channelGap (map Z.of_nat (seq 0 255)) = true.
Proof. vm_compute. reflexivity. Qed.

(** Two channels of different bytes are at least [1/512] apart. *)
Lemma channelValue_gap (k1 k2 : Z) :
  (0 <= k2 < k1)%Z -> (k1 <= 255)%Z ->
  channelValue k2 + (1 # 512) <= channelValue k1.
Proof.
  intros H H1. pose proof channelGaps_checked as G.
  rewrite forallb_forall in G.
  assert (Hin : In (k1 - 1)%Z (map Z.of_nat (seq 0 255))).
  { replace (k1 - 1)%Z with (Z.of_nat (Z.to_nat (k1 - 1))) by lia.
    apply in_map. apply in_seq. lia. }
  specialize (G _ Hin). unfold channelGap in G. apply Qle_bool_iff in G.
  replace (k1 - 1 + 1)%Z with k1 in G by lia.
  pose proof (channelValue_mono k2 (k1 - 1) ltac:(lia)). lra.
Qed.

Lemma channelValue_apart (kM km : Z) :
  (0 <= kM <= 255)%Z -> (0 <= km <= 255)%Z ->
  channelValue km <= channelValue kM ->
  ~ channelValue kM == channelValue km ->
  channelValue km + (1 # 512) <= channelValue kM.
Proof.
  intros HM Hm Hle Hne. destruct (Z_lt_le_dec km kM) as [L|G].
  - apply channelValue_gap; lia.
  - exfalso. apply Hne. pose proof (channelValue_mono kM km G). lra.
Qed.

(** *** The three components *)

Lemma lightness_unit (M m : Q) :
  0 <= m -> m <= M -> M <= 1 ->
  add64 (Fin M) (Fin m) = Fin (round64 (M + m))
  /\ 0 <= round64 (M + m) <= 2
  /\ div64 (Fin (round64 (M + m))) (Fin 2)
     = Fin (round64 (round64 (M + m) / 2))
  /\ unit01 (Fin (round64 (round64 (M + m) / 2))).
Proof.
  intros H0 H1 H2. rewrite add64_Fin.
  destruct (toBinary64_between 0 2 (M + m)) as [E B];
    [reflexivity|reflexivity|lra|].
  split; [exact E|]. split; [exact B|].
  rewrite div64_Fin by lra. apply unit01_between. apply Qdiv_unit; lra.
Qed.

Lemma saturation_unit (M m : Q) :
  0 <= m -> m + (1 # 512) <= M -> M <= 1 ->
  sub64 (Fin M) (Fin m) = Fin (round64 (M + - m))
  /\ (1 # 512) <= round64 (M + - m) <= 1
  /\ unit01 (div64 (Fin (round64 (M + - m)))
                   (sub64 (sub64 (Fin 2) (Fin M)) (Fin m)))
  /\ unit01 (div64 (Fin (round64 (M + - m))) (add64 (Fin M) (Fin m))).
Proof.
  intros H0 H1 H2. rewrite sub64_Fin.
  destruct (toBinary64_between (1 # 512) 1 (M + - m)) as [Ed Bd];
    [reflexivity|reflexivity|lra|].
  split; [exact Ed|]. split; [exact Bd|].
  set (d := round64 (M + - m)) in *. split.
  - rewrite (sub64_Fin 2 M).
    destruct (toBinary64_between 1 2 (2 + - M)) as [Et Bt];
      [reflexivity|reflexivity|lra|].
    rewrite Et. set (t := round64 (2 + - M)) in *. rewrite (sub64_Fin t m).
    destruct (toBinary64_between 0 2 (t + - m)) as [En Bn];
      [reflexivity|reflexivity|lra|].
    rewrite En.
    assert (Hd : d <= round64 (t + - m)) by (apply round64_mono; lra).
    set (n := round64 (t + - m)) in *.
    rewrite div64_Fin by lra.
    destruct (unit01_between (d / n)) as [E U]; [apply Qdiv_unit; lra|].
    rewrite E. exact U.
  - rewrite (add64_Fin M m).
    destruct (toBinary64_between 0 2 (M + m)) as [En Bn];
      [reflexivity|reflexivity|lra|].
    rewrite En.
    assert (Hd : d <= round64 (M + m)) by (apply round64_mono; lra).
    set (n := round64 (M + m)) in *.
    rewrite div64_Fin by lra.
    destruct (unit01_between (d / n)) as [E U]; [apply Qdiv_unit; lra|].
    rewrite E. exact U.
Qed.

(** The difference of two channels over the spread, as rounded. *)
Lemma hue_ratio (x y d0 : Q) :
  - d0 <= x + - y <= d0 -> d0 <= 1 -> (1 # 512) <= round64 d0 <= 1 ->
  div64 (sub64 (Fin x) (Fin y)) (Fin (round64 d0))
  = Fin (round64 (round64 (x + - y) / round64 d0))
  /\ -1 <= round64 (round64 (x + - y) / round64 d0) <= 1
  /\ (x < y -> round64 (round64 (x + - y) / round64 d0) <= 0)
  /\ (y <= x -> 0 <= round64 (round64 (x + - y) / round64 d0)).
Proof.
  intros Hxy Hd1 Hd. pose proof (round64_within _ _ Hxy) as Hu.
  rewrite sub64_Fin.
  destruct (toBinary64_between (-1) 1 (x + - y)) as [Eu _];
    [reflexivity|reflexivity|lra|].
  rewrite Eu. set (u := round64 (x + - y)) in *.
  set (d := round64 d0) in *.
  rewrite div64_Fin by lra.
  destruct (Qdiv_sym_unit u d) as [B [_ P]]; [lra|lra|].
  destruct (toBinary64_between (-1) 1 (u / d)) as [Er Br];
    [reflexivity|reflexivity|exact B|].
  split; [exact Er|]. split; [exact Br|]. split.
  - intros Hlt.
    assert (Hu0 : u <= 0).
    { destruct (round64_sign (x + - y)) as [_ S]. apply S. lra. }
    pose proof (round64_mono (u / d) 0 (Qdiv_nonpos u d Hu0 ltac:(lra))) as M.
    exact M.
  - intros Hge.
    assert (Hu0 : 0 <= u).
    { destruct (round64_sign (x + - y)) as [S _]. apply S. lra. }
    pose proof (round64_mono 0 (u / d) (P Hu0)) as M. exact M.
Qed.

Lemma hue_unit (q c : Q) :
  0 <= q + c <= 6 -> isBinary64 c = true ->
  unit01 (div64 (add64 (Fin q) (Fin c)) (Fin 6)).
Proof.
  intros H Hc. rewrite add64_Fin.
  destruct (toBinary64_between 0 6 (q + c)) as [E B];
    [reflexivity|reflexivity|exact H|].
  rewrite E. rewrite div64_Fin by lra.
  destruct (unit01_between (round64 (q + c) / 6)) as [E' U];
    [apply Qdiv_unit; lra|].
  rewrite E'. exact U.
Qed.

Lemma hslOfChannels_range (kr kg kb : Z) :
  (0 <= kr <= 255)%Z -> (0 <= kg <= 255)%Z -> (0 <= kb <= 255)%Z ->
  hslWithin 360
    (hslOfChannels (Fin (channelValue kr)) (Fin (channelValue kg))
       (Fin (channelValue kb))).
Proof.
  intros Hkr Hkg Hkb. unfold hslOfChannels.
  destruct (channel_value kr Hkr) as [_ Hr].
  destruct (channel_value kg Hkg) as [_ Hg].
  destruct (channel_value kb Hkb) as [_ Hb].
  assert (Kr : exists k, (0 <= k <= 255)%Z /\ channelValue kr = channelValue k)
    by (exists kr; split; [exact Hkr|reflexivity]).
  assert (Kg : exists k, (0 <= k <= 255)%Z /\ channelValue kg = channelValue k)
    by (exists kg; split; [exact Hkg|reflexivity]).
  assert (Kb : exists k, (0 <= k <= 255)%Z /\ channelValue kb = channelValue k)
    by (exists kb; split; [exact Hkb|reflexivity]).
  generalize dependent (channelValue kr). intros r Hr Kr.
  generalize dependent (channelValue kg). intros g Hg Kg.
  generalize dependent (channelValue kb). intros b Hb Kb.
  destruct (max_Fin r g) as [M1 [E1 [O1 [L1 L1']]]].
  destruct (max_Fin M1 b) as [M [E2 [O2 [L2 L2']]]].
  destruct (min_Fin r g) as [m1 [E3 [O3 [L3 L3']]]].
  destruct (min_Fin m1 b) as [m [E4 [O4 [L4 L4']]]].
  rewrite E1, E2, E3, E4. clear E1 E2 E3 E4.
  assert (KM : exists k, (0 <= k <= 255)%Z /\ M = channelValue k)
    by (destruct O2 as [-> | ->]; [destruct O1 as [-> | ->]|]; assumption).
  assert (Km : exists k, (0 <= k <= 255)%Z /\ m = channelValue k)
    by (destruct O4 as [-> | ->]; [destruct O3 as [-> | ->]|]; assumption).
  assert (HM : M <= 1) by (destruct O2, O1; subst; lra).
  assert (Hm : 0 <= m) by (destruct O4, O3; subst; lra).
  assert (HrM : m <= r <= M) by lra.
  assert (HgM : m <= g <= M) by lra.
  assert (HbM : m <= b <= M) by lra.
  clear O1 O2 O3 O4 L1 L1' L2 L2' L3 L3' L4 L4' M1 m1 Kr Kg Kb.
  cbv zeta.
  destruct (lightness_unit M m) as [Es [Bs [El Ul]]]; [lra..|].
  cbn [strictEq]. destruct (Qeq_bool M m) eqn:Eq; cbn [negb].
  - rewrite Es, El.
    apply hsl_of_units; [apply unit01_zero|apply unit01_zero|exact Ul].
  - apply Qeq_bool_neq in Eq.
    destruct KM as [kM [HkM EM]]. destruct Km as [km [Hkm Em]].
    assert (Hgap : m + (1 # 512) <= M).
    { rewrite EM, Em. apply channelValue_apart; try assumption.
      - rewrite <- EM, <- Em. lra.
      - rewrite <- EM, <- Em. exact Eq. }
    destruct (saturation_unit M m) as [Ed [Bd [S1 S2]]]; [lra..|].
    rewrite Ed in *.
    apply hsl_of_units.
    + (* hue *)
      destruct (hue_ratio g b (M + - m)) as [E1 [B1 [N1 P1]]];
        [lra|lra|exact Bd|].
      destruct (hue_ratio b r (M + - m)) as [E2 [B2 _]];
        [lra|lra|exact Bd|].
      destruct (hue_ratio r g (M + - m)) as [E3 [B3 _]];
        [lra|lra|exact Bd|].
      rewrite E1, E2, E3.
      destruct (Qeq_bool M r); [|destruct (Qeq_bool M g); [|destruct (Qeq_bool M b)]].
      * unfold lt. destruct (Qlt_bool g b) eqn:Egb.
        -- apply Qlt_bool_iff in Egb. specialize (N1 Egb).
           apply hue_unit; [lra|reflexivity].
        -- apply Qlt_bool_false in Egb. specialize (P1 Egb).
           apply hue_unit; [lra|reflexivity].
      * apply hue_unit; [lra|reflexivity].
      * apply hue_unit; [lra|reflexivity].
      * apply unit01_zero.
    + (* saturation *)
      destruct (gt _ _); assumption.
    + (* lightness *)
      rewrite Es, El. exact Ul.
Qed.

Lemma allAscii_complete (c : ascii) : In c allAscii.
Proof.
  rewrite <- (ascii_nat_embedding c). apply in_map. apply in_seq.
  pose proof (nat_ascii_bounded c). lia.
Qed.

Lemma hexPairs_checked :
  forallb (fun c1 => forallb (hexPairOk c1) allAscii) allAscii = true.
Proof. vm_compute. reflexivity. Qed.

Lemma parseInt_hex_pair (c1 c2 : ascii) :
  is_hex c1 = true -> is_hex c2 = true ->
  exists z : Z,
    parseInt (String c1 (String c2 "")) (Some 16%Z) = Int z
    /\ (0 <= z <= 255)%Z.
Proof.
  intros H1 H2. pose proof hexPairs_checked as H.
  rewrite forallb_forall in H. specialize (H c1 (allAscii_complete c1)).
  rewrite forallb_forall in H. specialize (H c2 (allAscii_complete c2)).
  unfold hexPairOk in H. rewrite H1, H2 in H. cbn [andb] in H.
  destruct (parseInt (String c1 (String c2 "")) (Some 16%Z)) as [z| | |];
    try discriminate.
  exists z. split; [reflexivity|]. apply andb_true_iff in H.
  destruct H as [Ha Hb]. apply Z.leb_le in Ha, Hb. lia.
Qed.

Lemma channel_of_hex_pair (c1 c2 : ascii) :
  is_hex c1 = true -> is_hex c2 = true ->
  exists k : Z,
    div64 (toNum (parseInt (String c1 (String c2 "")) (Some 16%Z))) (Fin 255)
    = Fin (channelValue k)
    /\ (0 <= k <= 255)%Z.
Proof.
  intros H1 H2. destruct (parseInt_hex_pair c1 c2 H1 H2) as [z [E B]].
  rewrite E. cbn [toNum]. exists z. split; [|exact B].
  apply (channel_value z B).
Qed.

Lemma str_chars (s : string) : str (chars s) = s.
Proof. apply string_of_list_ascii_of_string. Qed.

Lemma chars_str (l : list ascii) : chars (str l) = l.
Proof. apply list_ascii_of_string_of_list_ascii. Qed.

Lemma is_hex_not_hash (c : ascii) : is_hex c = true -> Ascii.eqb c "#" = false.
Proof.
  intros H. destruct (Ascii.eqb_spec c "#"%char) as [E|_]; [|reflexivity].
  subst c. discriminate.
Qed.

Lemma removeFirst_absent (x : ascii) (l : list ascii) :
  forallb (fun c => negb (Ascii.eqb c x)) l = true -> removeFirst x l = l.
Proof.
  induction l as [|c l IH]; simpl; [reflexivity|].
  intros H. apply andb_true_iff in H. destruct H as [Hc Hl].
  apply negb_true_iff in Hc. rewrite Hc, (IH Hl). reflexivity.
Qed.

Lemma removeLeadingHash_cases (s : string) :
  (exists rest, s = String "#" rest /\ removeLeadingHash s = rest)
  \/ ((forall rest, s <> String "#" rest) /\ removeLeadingHash s = s).
Proof.
  destruct s as [|a s]; [right; split; [discriminate|reflexivity]|].
  destruct (Ascii.eqb_spec a "#"%char) as [E|NE].
  - subst a. left. exists s. split; reflexivity.
  - right. split; [intros rest H; injection H as H _; contradiction|].
    destruct a as [[] [] [] [] [] [] [] []]; try reflexivity.
    exfalso. apply NE. reflexivity.
Qed.

(** Once its first [#] is removed, a valid colour is six hex digits. *)
Lemma validHex6_digits (hex : string) :
  validHex6 hex = true ->
  exists c1 c2 c3 c4 c5 c6 : ascii,
    chars (removeFirstHash hex) = [c1; c2; c3; c4; c5; c6]
    /\ forallb is_hex [c1; c2; c3; c4; c5; c6] = true.
Proof.
  unfold validHex6. intros H. apply andb_true_iff in H.
  destruct H as [Hlen Hhex]. apply Nat.eqb_eq in Hlen.
  assert (Hsame : chars (removeFirstHash hex) = chars (removeLeadingHash hex)).
  { unfold removeFirstHash. rewrite chars_str.
    destruct (removeLeadingHash_cases hex) as [[rest [E1 E2]]|[_ E]].
    - rewrite E2. subst hex. unfold chars. simpl. reflexivity.
    - rewrite E in Hhex |- *. apply removeFirst_absent.
      rewrite forallb_forall in Hhex |- *. intros c Hc.
      rewrite (is_hex_not_hash c (Hhex c Hc)). reflexivity. }
  rewrite Hsame.
  destruct (chars (removeLeadingHash hex))
    as [|c1 [|c2 [|c3 [|c4 [|c5 [|c6 [|c7 l]]]]]]]; try discriminate.
  exists c1, c2, c3, c4, c5, c6. split; [reflexivity|exact Hhex].
Qed.

(** C2, as amended.  For every valid six-digit hex colour the triple of
    [hexToHSL] is made of integers: a hue from 0 to 360, both ends
    included, a saturation from 0 to 100 and a lightness from 0 to
    100. *)
Theorem hexToHSL_range :
  forall hex : string,
    validHex6 hex = true -> hslWithin 360 (ThemeGenerator.hexToHSL hex).
Proof.
  intros hex Hvalid. rewrite hexToHSL_channels. cbv zeta.
  destruct (validHex6_digits hex Hvalid)
    as [c1 [c2 [c3 [c4 [c5 [c6 [Hchars Hhex]]]]]]].
  unfold substring. rewrite Hchars.
  cbn [forallb] in Hhex.
  repeat (apply andb_true_iff in Hhex; destruct Hhex as [? Hhex]).
  cbn [Nat.sub skipn firstn str string_of_list_ascii].
  destruct (channel_of_hex_pair c1 c2) as [kr [Er Br]]; [assumption..|].
  destruct (channel_of_hex_pair c3 c4) as [kg [Eg Bg]]; [assumption..|].
  destruct (channel_of_hex_pair c5 c6) as [kb [Eb Bb]]; [assumption..|].
  rewrite Er, Eg, Eb. apply hslOfChannels_range; assumption.
Qed.

Lemma hexToHSL_range_witness :
  hslWithin 360 (ThemeGenerator.hexToHSL "#2D6FDB").
Proof. apply (hexToHSL_range "#2D6FDB"). reflexivity. Defined.

(** C2, as stated, fails: the hue of [#FF0001] is 360, outside the
    half-open range. *)
Lemma hexToHSL_hue_reaches_360 :
  validHex6 "#FF0001" = true
  /\ ThemeGenerator.hexToHSL "#FF0001"
     = ThemeGenerator.Hsl (Int 360) (Int 100) (Int 50)
  /\ ~ hslWithin 359 (ThemeGenerator.hexToHSL "#FF0001").
Proof.
  split; [reflexivity|]. split; [vm_compute; reflexivity|].
  intros [hh [ss [ll [E [[_ Hh] _]]]]].
  vm_compute in E. injection E as E1 _ _. subst hh. lia.
Qed.

(** The hue of [#4ba6f3] is 207.5 in exact arithmetic, which would round
    to 208; the division by 6 and the multiplication by 360 leave it
    just below, and the code returns 207.  In the same way the
    similarity of two lengths can be exactly one half. *)
Lemma hexToHSL_rounding_examples :
  ThemeGenerator.hexToHSL "#4ba6f3"
  = ThemeGenerator.Hsl (Int 207) (Int 87) (Int 62)
  /\ ThemeGenerator.hexToHSL "#000d28"
     = ThemeGenerator.Hsl (Int 220) (Int 100) (Int 8)
  /\ Migration.calculateSimilarity "4503599627370496px" "9007199254740991px"
       Migration.pixels
     = Fin (1 # 2).
Proof. vm_compute. repeat split. Qed.

Lemma occursIn_app_l (t w u : list ascii) : occursIn t w -> occursIn t (u ++ w).
Proof.
  intros [a [b E]]. exists (u ++ a), b. rewrite E, <- app_assoc. reflexivity.
Qed.

Lemma occursIn_app_r (t w u : list ascii) : occursIn t w -> occursIn t (w ++ u).
Proof.
  intros [a [b E]]. exists a, (b ++ u). rewrite E, <- !app_assoc. reflexivity.
Qed.

Lemma occursIn_refl (w : list ascii) : occursIn w w.
Proof. exists [], []. rewrite app_nil_r. reflexivity. Qed.

Lemma occursIn_trans (t w z : list ascii) :
  occursIn t w -> occursIn w z -> occursIn t z.
Proof.
  intros H [a [b E]]. subst z. apply occursIn_app_l, occursIn_app_r. exact H.
Qed.

Lemma capturesOf_nil (r : Regex.regex) (w : list ascii) :
  sureGroups r = [] -> capturesOf r w [].
Proof.
  intros H. split; [intros n t []|]. rewrite H. intros n [].
Qed.

Section MatcherSoundness.
Import Regex.

Ltac no_progress st H :=
  exists st, [], [];
  split; [exact H|]; split; [reflexivity|]; split; [reflexivity|];
  split; [reflexivity|]; split; [|apply capturesOf_nil; reflexivity].

(** What the matcher hands to its continuation: the state reached after
    a text [w] of the pattern, with the captures made on the way put in
    front of the earlier ones. *)
Lemma rmatch_sound (r : regex) :
  forall (st : mstate) (k : mstate -> option mstate) (x : mstate),
    rmatch r st k = Some x ->
    exists st' w new,
      k st' = Some x
      /\ after st = w ++ after st'
      /\ before st' = rev w ++ before st
      /\ caps st' = new ++ caps st
      /\ lang r w
      /\ capturesOf r w new.
Proof.
  induction r as [|p|r1 IH1 r2 IH2|r1 IH1 r2 IH2|r1 IH1|n r1 IH1| | |];
    intros st k x H; cbn [rmatch] in H.
  - no_progress st H. reflexivity.
  - destruct (after st) as [|c rest] eqn:E; [discriminate|].
    destruct (p c) eqn:Ep; [|discriminate].
    exists (advance c rest st), [c], [].
    split; [exact H|]. split; [reflexivity|]. split; [reflexivity|].
    split; [reflexivity|]. split; [exists c; split; [reflexivity|exact Ep]|].
    apply capturesOf_nil. reflexivity.
  - destruct (IH1 _ _ _ H) as [st1 [w1 [n1 [H1 [A1 [B1 [C1 [L1 [G1 S1]]]]]]]]].
    destruct (IH2 _ _ _ H1) as [st2 [w2 [n2 [H2 [A2 [B2 [C2 [L2 [G2 S2]]]]]]]]].
    exists st2, (w1 ++ w2), (n2 ++ n1).
    split; [exact H2|].
    split; [rewrite A1, A2, app_assoc; reflexivity|].
    split; [rewrite B2, B1, rev_app_distr, app_assoc; reflexivity|].
    split; [rewrite C2, C1, app_assoc; reflexivity|].
    split; [exists w1, w2; repeat split; assumption|].
    split.
    + intros n t Hin. apply in_app_or in Hin. cbn [groups].
      destruct Hin as [Hin|Hin].
      * destruct (G2 _ _ Hin) as [r' [Hr [Hl Ho]]].
        exists r'. split; [apply in_or_app; right; exact Hr|].
        split; [exact Hl|apply occursIn_app_l; exact Ho].
      * destruct (G1 _ _ Hin) as [r' [Hr [Hl Ho]]].
        exists r'. split; [apply in_or_app; left; exact Hr|].
        split; [exact Hl|apply occursIn_app_r; exact Ho].
    + intros n Hn. cbn [sureGroups] in Hn. apply in_app_or in Hn.
      destruct Hn as [Hn|Hn].
      * destruct (S1 _ Hn) as [t Ht]. exists t. apply in_or_app. right. exact Ht.
      * destruct (S2 _ Hn) as [t Ht]. exists t. apply in_or_app. left. exact Ht.
  - destruct (rmatch r1 st k) as [y|] eqn:E.
    + injection H as H. subst y.
      destruct (IH1 _ _ _ E) as [st1 [w1 [n1 [H1 [A1 [B1 [C1 [L1 [G1 S1]]]]]]]]].
      exists st1, w1, n1. repeat split; try assumption.
      * left. exact L1.
      * intros n t Hin. destruct (G1 _ _ Hin) as [r' [Hr [Hl Ho]]].
        exists r'. split; [cbn [groups]; apply in_or_app; left; exact Hr|].
        split; assumption.
      * intros n [].
    + destruct (IH2 _ _ _ H) as [st2 [w2 [n2 [H2 [A2 [B2 [C2 [L2 [G2 S2]]]]]]]]].
      exists st2, w2, n2. repeat split; try assumption.
      * right. exact L2.
      * intros n t Hin. destruct (G2 _ _ Hin) as [r' [Hr [Hl Ho]]].
        exists r'. split; [cbn [groups]; apply in_or_app; right; exact Hr|].
        split; assumption.
      * intros n [].
  - revert H. generalize (List.length (after st)). intros fuel.
    revert st. induction fuel as [|fuel IHf]; intros st H.
    + no_progress st H. exists []. split; [reflexivity|constructor].
    + match type of H with
      | match ?m with _ => _ end = _ => destruct m as [y|] eqn:E
      end.
      * injection H as H. subst y.
        destruct (IH1 _ _ _ E)
          as [st1 [w1 [n1 [H1 [A1 [B1 [C1 [L1 [G1 S1]]]]]]]]].
        destruct (List.length (after st1) <? List.length (after st))%nat;
          [|discriminate].
        destruct (IHf _ H1)
          as [st2 [w2 [n2 [H2 [A2 [B2 [C2 [[ws [Ew Fw]] [G2 S2]]]]]]]]].
        exists st2, (w1 ++ w2), (n2 ++ n1).
        split; [exact H2|].
        split; [rewrite A1, A2, app_assoc; reflexivity|].
        split; [rewrite B2, B1, rev_app_distr, app_assoc; reflexivity|].
        split; [rewrite C2, C1, app_assoc; reflexivity|].
        split.
        { exists (w1 :: ws). split; [cbn [List.concat]; rewrite Ew; reflexivity|].
          constructor; assumption. }
        split; [|intros n []].
        intros n t Hin. apply in_app_or in Hin. cbn [groups].
        destruct Hin as [Hin|Hin].
        -- destruct (G2 _ _ Hin) as [r' [Hr [Hl Ho]]].
           exists r'. split; [exact Hr|].
           split; [exact Hl|apply occursIn_app_l; exact Ho].
        -- destruct (G1 _ _ Hin) as [r' [Hr [Hl Ho]]].
           exists r'. split; [exact Hr|].
           split; [exact Hl|apply occursIn_app_r; exact Ho].
      * no_progress st H. exists []. split; [reflexivity|constructor].
  - destruct (IH1 _ _ _ H) as [st1 [w1 [n1 [H1 [A1 [B1 [C1 [L1 [G1 S1]]]]]]]]].
    exists (capture n st st1), w1, ((n, w1) :: n1).
    assert (Ecap : firstn (List.length (after st) - List.length (after st1))
                     (after st) = w1).
    { rewrite A1. rewrite length_app.
      replace (List.length w1 + List.length (after st1)
               - List.length (after st1))%nat with (List.length w1) by lia.
      rewrite firstn_app, firstn_all, Nat.sub_diag. cbn [firstn].
      apply app_nil_r. }
    split; [exact H1|].
    split; [exact A1|]. split; [exact B1|].
    split; [unfold capture; cbn [caps]; rewrite Ecap, C1; reflexivity|].
    split; [exact L1|].
    split.
    + intros m t [Hin|Hin].
      * injection Hin as -> ->. exists r1.
        split; [left; reflexivity|]. split; [exact L1|apply occursIn_refl].
      * destruct (G1 _ _ Hin) as [r' [Hr [Hl Ho]]].
        exists r'. split; [right; exact Hr|]. split; assumption.
    + intros m [Hm|Hm].
      * subst m. exists w1. left. reflexivity.
      * destruct (S1 _ Hm) as [t Ht]. exists t. right. exact Ht.
  - destruct (before st) eqn:E; [|discriminate]. rewrite <- E.
    no_progress st H. reflexivity.
  - destruct (after st) eqn:E; [|discriminate]. rewrite <- E.
    no_progress st H. reflexivity.
  - destruct (at_word_boundary st); [|discriminate].
    no_progress st H. reflexivity.
Qed.

End MatcherSoundness.

Section SearchSoundness.
Import Regex.

Lemma firstn_prefix_length {A : Type} (w rest : list A) :
  firstn (List.length (w ++ rest) - List.length rest) (w ++ rest) = w.
Proof.
  rewrite length_app.
  replace (List.length w + List.length rest - List.length rest)%nat
    with (List.length w) by lia.
  rewrite firstn_app, firstn_all, Nat.sub_diag. cbn [firstn]. apply app_nil_r.
Qed.

(** The leftmost match: its text is a text of the pattern and lies in the
    input between what was skipped and what is left. *)
Lemma search_sound (r : regex) :
  forall (aft bef : list ascii) (m : rmatched),
    search r bef aft = Some m ->
    exists pre,
      aft = pre ++ m_text m ++ after (m_end m)
      /\ lang r (m_text m)
      /\ capturesOf r (m_text m) (caps (m_end m)).
Proof.
  assert (Hhere : forall aft bef st,
             rmatch r (MState bef aft []) Some = Some st ->
             aft = firstn (List.length aft - List.length (after st)) aft
                   ++ after st
             /\ lang r (firstn (List.length aft - List.length (after st)) aft)
             /\ capturesOf r
                  (firstn (List.length aft - List.length (after st)) aft)
                  (caps st)).
  { intros aft bef st E.
    destruct (rmatch_sound _ _ _ _ E) as [st' [w [new [H' [A [_ [C [L G]]]]]]]].
    injection H' as H'. subst st'. cbn [after caps] in A, C.
    rewrite app_nil_r in C. rewrite C, A, firstn_prefix_length.
    repeat split; try assumption; apply G. }
  induction aft as [|c rest IH]; intros bef m H; cbn [search] in H.
  - destruct (rmatch r (MState bef [] []) Some) as [st|] eqn:E; [|discriminate].
    injection H as H. subst m. cbn [m_text m_end].
    destruct (Hhere _ _ _ E) as [A [L G]].
    exists []. split; [exact A|]. split; assumption.
  - destruct (rmatch r (MState bef (c :: rest) []) Some) as [st|] eqn:E.
    + injection H as H. subst m. cbn [m_text m_end].
      destruct (Hhere _ _ _ E) as [A [L G]].
      exists []. split; [exact A|]. split; assumption.
    + destruct (IH _ _ H) as [pre [A [L G]]].
      exists (c :: pre). split; [cbn [app]; rewrite <- A; reflexivity|].
      split; assumption.
Qed.

(** Every match of the loop is a text of the pattern that occurs in the
    input. *)
Lemma execLoop_sound (r : regex) :
  forall (fuel : nat) (bef aft : list ascii) (ms : list rmatched),
    execLoop fuel r bef aft = Some ms ->
    Forall (fun m => lang r (m_text m)
                     /\ capturesOf r (m_text m) (caps (m_end m))
                     /\ occursIn (m_text m) aft) ms.
Proof.
  induction fuel as [|fuel IH]; intros bef aft ms H; [discriminate|].
  cbn [execLoop] in H. destruct (search r bef aft) as [m|] eqn:E.
  - destruct (List.length (after (m_end m)) <? List.length aft)%nat;
      [|discriminate].
    destruct (execLoop fuel r (before (m_end m)) (after (m_end m)))
      as [ms'|] eqn:E'; [|discriminate].
    injection H as H. subst ms.
    destruct (search_sound _ _ _ _ E) as [pre [A [L G]]].
    constructor.
    + split; [exact L|]. split; [exact G|].
      exists pre, (after (m_end m)). exact A.
    + specialize (IH _ _ _ E').
      apply Forall_impl with (2 := IH). intros m' [L' [G' O']].
      split; [exact L'|]. split; [exact G'|].
      rewrite A. apply occursIn_app_l, occursIn_app_l. exact O'.
  - injection H as H. subst ms. constructor.
Qed.

Lemma execAll_sound (r : regex) (s : string) (ms : list rmatched) :
  execAll r s = Some ms ->
  Forall (fun m => lang r (m_text m)
                   /\ capturesOf r (m_text m) (caps (m_end m))
                   /\ occursIn (m_text m) (chars s)) ms.
Proof. apply execLoop_sound. Qed.

(** A group that was captured holds a text of that group, which occurs
    in the match; a group every match sets was captured. *)
Lemma m_group_sound (r : regex) (m : rmatched) (n : nat) (s : string) :
  capturesOf r (m_text m) (caps (m_end m)) ->
  m_group n m = Some s ->
  exists r', In (n, r') (groups r) /\ lang r' (chars s)
             /\ occursIn (chars s) (m_text m).
Proof.
  intros [G _] H. unfold m_group in H.
  destruct (find (fun p => (fst p =? n)%nat) (caps (m_end m)))
    as [[n' t]|] eqn:E; [|discriminate].
  injection H as H. subst s. apply find_some in E. destruct E as [Hin Hn].
  apply Nat.eqb_eq in Hn. cbn [fst] in Hn. subst n'.
  cbn [snd]. rewrite chars_str. apply (G _ _ Hin).
Qed.

Lemma m_group_sure (r : regex) (m : rmatched) (n : nat) :
  capturesOf r (m_text m) (caps (m_end m)) ->
  In n (sureGroups r) ->
  exists s, m_group n m = Some s.
Proof.
  intros [_ S] Hn. destruct (S _ Hn) as [t Ht]. unfold m_group.
  destruct (find (fun p => (fst p =? n)%nat) (caps (m_end m))) as [p|] eqn:E.
  - eexists. reflexivity.
  - exfalso. pose proof (find_none _ _ E _ Ht) as Hf. cbn [fst] in Hf.
    rewrite Nat.eqb_refl in Hf. discriminate.
Qed.

End SearchSoundness.

(** ** Occurrence in a text *)

Lemma prefixb_app (t v : list ascii) : prefixb t (t ++ v) = true.
Proof.
  induction t as [|c t IH]; [reflexivity|].
  cbn [prefixb app]. rewrite Ascii.eqb_refl, IH. reflexivity.
Qed.

Lemma infixb_occurs (t w : list ascii) : occursIn t w -> infixb t w = true.
Proof.
  intros [u [v E]]. subst w. induction u as [|c u IH].
  - cbn [app]. destruct (t ++ v) eqn:E'; cbn [infixb]; rewrite <- E';
      rewrite prefixb_app; reflexivity.
  - cbn [app infixb]. rewrite IH. apply orb_true_r.
Qed.

Lemma dropSpaces_suffix (l : list ascii) : exists u, l = u ++ dropSpaces l.
Proof.
  induction l as [|c l [u IH]]; [exists []; reflexivity|].
  cbn [dropSpaces]. destruct (is_space c).
  - exists (c :: u). cbn [app]. rewrite <- IH. reflexivity.
  - exists []. reflexivity.
Qed.

Lemma trim_occurs (s : string) : occursIn (chars (trim s)) (chars s).
Proof.
  unfold trim. rewrite chars_str.
  destruct (dropSpaces_suffix (chars s)) as [u Hu].
  destruct (dropSpaces_suffix (rev (dropSpaces (chars s)))) as [v Hv].
  exists u, (rev v). rewrite Hu at 1. f_equal.
  rewrite <- (rev_involutive (dropSpaces (chars s))) at 1.
  rewrite Hv at 1. rewrite rev_app_distr. reflexivity.
Qed.

Lemma occursIn_nil (w : list ascii) : occursIn [] w.
Proof. exists [], w. reflexivity. Qed.

Lemma group_text_occurs (r : Regex.regex) (m : Regex.rmatched) (n : nat) :
  capturesOf r (Regex.m_text m) (Regex.caps (Regex.m_end m)) ->
  occursIn (chars (CssParser.group_text n m)) (Regex.m_text m).
Proof.
  intros G. unfold CssParser.group_text.
  destruct (Regex.m_group n m) as [s|] eqn:E; [|apply occursIn_nil].
  destruct (m_group_sound _ _ _ _ G E) as [r' [_ [_ O]]]. exact O.
Qed.

(** ** What the extraction returns *)

Lemma Forall_map_intro {A B : Type} (P : B -> Prop) (f : A -> B) (l : list A) :
  Forall (fun a => P (f a)) l -> Forall P (map f l).
Proof. intros H. apply Forall_map. exact H. Qed.

Lemma includes_match (r : Regex.regex) (css : string)
    (ms : list Regex.rmatched) :
  Regex.execAll r css = Some ms ->
  Forall (fun m => includes css (str (Regex.m_text m)) = true) ms.
Proof.
  intros H. apply Forall_impl with (2 := execAll_sound _ _ _ H).
  intros m [_ [_ O]]. unfold includes. rewrite chars_str.
  apply infixb_occurs. exact O.
Qed.

Lemma includes_group (r : Regex.regex) (n : nat) (css : string)
    (ms : list Regex.rmatched) :
  Regex.execAll r css = Some ms ->
  Forall (fun m => includes css (CssParser.group_text n m) = true) ms.
Proof.
  intros H. apply Forall_impl with (2 := execAll_sound _ _ _ H).
  intros m [_ [G O]]. unfold includes. apply infixb_occurs.
  apply occursIn_trans with (Regex.m_text m); [|exact O].
  apply group_text_occurs with (r := r). exact G.
Qed.

Lemma includes_trimmed_group (r : Regex.regex) (n : nat) (css : string)
    (ms : list Regex.rmatched) :
  Regex.execAll r css = Some ms ->
  Forall (fun m => includes css (trim (CssParser.group_text n m)) = true) ms.
Proof.
  intros H. apply Forall_impl with (2 := execAll_sound _ _ _ H).
  intros m [_ [G O]]. unfold includes. apply infixb_occurs.
  apply occursIn_trans with (chars (CssParser.group_text n m));
    [apply trim_occurs|].
  apply occursIn_trans with (Regex.m_text m); [|exact O].
  apply group_text_occurs with (r := r). exact G.
Qed.

(** X1.  Every literal the extraction returns occurs verbatim in the text
    it was extracted from. *)
Theorem extracted_values_occur :
  forall css : string,
  exists vs,
    CssParser.extractAllValues css = Some vs
    /\ Forall (fun v => includes css (CssParser.cvalue v) = true) vs.
Proof.
  intros css.
  unfold CssParser.extractAllValues, CssParser.extractColors,
    CssParser.extractSpacing, CssParser.extractFontSizes,
    CssParser.extractFontWeights, CssParser.extractFontFamilies,
    CssParser.extractBorderRadius, CssParser.extractShadows.
  destruct (execAll_total CssParser.hexRegex css) as [m1 E1];
    [vm_compute; lia|].
  destruct (execAll_total CssParser.rgbRegex css) as [m2 E2];
    [vm_compute; lia|].
  destruct (execAll_total CssParser.spacingRegex css) as [m3 E3];
    [vm_compute; lia|].
  destruct (execAll_total CssParser.fontSizeRegex css) as [m4 E4];
    [vm_compute; lia|].
  destruct (execAll_total CssParser.fontWeightRegex css) as [m5 E5];
    [vm_compute; lia|].
  destruct (execAll_total CssParser.fontFamilyRegex css) as [m6 E6];
    [vm_compute; lia|].
  destruct (execAll_total CssParser.borderRadiusRegex css) as [m7 E7];
    [vm_compute; lia|].
  destruct (execAll_total CssParser.boxShadowRegex css) as [m8 E8];
    [vm_compute; lia|].
  rewrite E1, E2, E3, E4, E5, E6, E7, E8.
  cbn [option_map CssParser.concatAll fold_right].
  eexists. split; [reflexivity|].
  repeat (apply Forall_app; split); try apply Forall_nil;
    apply Forall_map_intro; cbn [CssParser.cvalue].
  - apply (includes_match _ _ _ E1).
  - apply (includes_match _ _ _ E2).
  - apply (includes_group _ _ _ _ E3).
  - apply (includes_group _ _ _ _ E4).
  - apply (includes_group _ _ _ _ E5).
  - apply (includes_trimmed_group _ _ _ _ E6).
  - apply (includes_group _ _ _ _ E7).
  - apply (includes_trimmed_group _ _ _ _ E8).
Qed.

Lemma lang_lit (c : ascii) (w : list ascii) :
  lang (Regex.lit c) w -> w = [c].
Proof.
  intros [x [E Hx]]. apply Ascii.eqb_eq in Hx. subst. reflexivity.
Qed.

Lemma lang_star_chr (p : ascii -> bool) (w : list ascii) :
  lang (Regex.Star (Regex.Chr p)) w -> forallb p w = true.
Proof.
  intros [ws [E F]]. subst w. induction F as [|x ws [c [Ex Hc]] F IH];
    [reflexivity|].
  subst x. cbn [List.concat app forallb]. rewrite Hc, IH. reflexivity.
Qed.

Lemma lang_plus_chr (p : ascii -> bool) (w : list ascii) :
  lang (Regex.plus (Regex.Chr p)) w -> w <> [] /\ forallb p w = true.
Proof.
  intros [u [v [E [[c [Eu Hc]] Hv]]]]. subst u w.
  apply lang_star_chr in Hv. split; [discriminate|].
  cbn [app forallb]. rewrite Hc, Hv. reflexivity.
Qed.

Lemma lang_chr_then (p : ascii -> bool) (r : Regex.regex) (w : list ascii) :
  lang (Regex.Seq (Regex.Chr p) r) w ->
  exists c rest, w = c :: rest /\ p c = true /\ lang r rest.
Proof.
  intros [u [v [E [[c [Eu Hc]] Hv]]]]. subst u w.
  exists c, v. repeat split; assumption.
Qed.

Lemma lang_hexRegex (w : list ascii) :
  lang CssParser.hexRegex w -> isHexLiteral (str w) = true.
Proof.
  unfold CssParser.hexRegex, Regex.seqs, Regex.repeat, Regex.lit.
  cbn [Nat.sub Regex.exactly Regex.upto].
  intros H. apply lang_chr_then in H. destruct H as [h [w1 [-> [Hh H]]]].
  apply Ascii.eqb_eq in Hh. subst h.
  destruct H as [ds [b [-> [H Hb]]]]. cbn [lang] in Hb. subst b.
  unfold isHexLiteral. rewrite chars_str, app_nil_r.
  apply lang_chr_then in H. destruct H as [c1 [w1 [-> [H1 H]]]].
  apply lang_chr_then in H. destruct H as [c2 [w2 [-> [H2 H]]]].
  apply lang_chr_then in H. destruct H as [c3 [w3 [-> [H3 H]]]].
  destruct H as [H|H]; [|cbn [lang] in H; subst; cbn; rewrite H1, H2, H3;
                         reflexivity].
  apply lang_chr_then in H. destruct H as [c4 [w4 [-> [H4 H]]]].
  destruct H as [H|H]; [|cbn [lang] in H; subst; cbn;
                         rewrite H1, H2, H3, H4; reflexivity].
  apply lang_chr_then in H. destruct H as [c5 [w5 [-> [H5 H]]]].
  destruct H as [H|H]; [|cbn [lang] in H; subst; cbn;
                         rewrite H1, H2, H3, H4, H5; reflexivity].
  apply lang_chr_then in H. destruct H as [c6 [w6 [-> [H6 H]]]].
  cbn [lang] in H. subst. cbn. rewrite H1, H2, H3, H4, H5, H6. reflexivity.
Qed.

Lemma lang_rgbRegex (w : list ascii) :
  lang CssParser.rgbRegex w -> isRgbCall (str w).
Proof.
  unfold CssParser.rgbRegex, Regex.seqs, Regex.text, Regex.opt, Regex.lit.
  cbn [chars list_ascii_of_string Regex.seq_of].
  intros [u [v [-> [Hu H]]]].
  apply lang_chr_then in Hu. destruct Hu as [a1 [u1 [-> [H1 Hu]]]].
  apply lang_chr_then in Hu. destruct Hu as [a2 [u2 [-> [H2 Hu]]]].
  destruct Hu as [a3 [-> H3]].
  apply Ascii.eqb_eq in H1, H2, H3. subst a1 a2 a3.
  destruct H as [o [v1 [-> [Ho H]]]].
  apply lang_chr_then in H. destruct H as [p [v2 [-> [Hp H]]]].
  apply Ascii.eqb_eq in Hp. subst p.
  destruct H as [body [close [-> [Hbody [c [-> Hc]]]]]].
  apply Ascii.eqb_eq in Hc. subst c.
  apply lang_plus_chr in Hbody. destruct Hbody as [Hne Hall].
  exists body. split; [exact Hne|]. split; [exact Hall|].
  rewrite chars_str. destruct Ho as [[a [-> Ha]]|Ho].
  - apply Ascii.eqb_eq in Ha. subst a. right. reflexivity.
  - cbn [lang] in Ho. subst o. left. reflexivity.
Qed.

(** X2.  Every value [extractColors] returns is of kind colour, carries no
    property and no line, and is either a [#] followed by three to six
    hex digits or a call [rgb(...)] or [rgba(...)] whose body is not
    empty and holds no closing parenthesis. *)
Theorem extractColors_shape :
  forall css : string,
  exists vs,
    CssParser.extractColors css = Some vs
    /\ Forall (fun v => CssParser.type v = CssParser.color
                        /\ CssParser.property v = None
                        /\ CssParser.line v = None
                        /\ (isHexLiteral (CssParser.cvalue v) = true
                            \/ isRgbCall (CssParser.cvalue v))) vs.
Proof.
  intros css. unfold CssParser.extractColors.
  destruct (execAll_total CssParser.hexRegex css) as [m1 E1];
    [vm_compute; lia|].
  destruct (execAll_total CssParser.rgbRegex css) as [m2 E2];
    [vm_compute; lia|].
  rewrite E1, E2. eexists. split; [reflexivity|].
  apply Forall_app. split; apply Forall_map_intro; cbn.
  - apply Forall_impl with (2 := execAll_sound _ _ _ E1).
    intros m [L _]. repeat split. left. apply lang_hexRegex. exact L.
  - apply Forall_impl with (2 := execAll_sound _ _ _ E2).
    intros m [L _]. repeat split. right. apply lang_rgbRegex. exact L.
Qed.

Lemma upper_eq_lower_checked :
  forallb (fun x => forallb (fun c => implb (Ascii.eqb (upper x) (upper c))
                                        (Ascii.eqb (lower x) (lower c)))
                      allAscii) allAscii = true.
Proof. vm_compute. reflexivity. Qed.

Lemma upper_eq_lower (x c : ascii) :
  Ascii.eqb (upper x) (upper c) = true -> lower x = lower c.
Proof.
  intros H. pose proof upper_eq_lower_checked as A.
  rewrite forallb_forall in A. specialize (A x (allAscii_complete x)).
  rewrite forallb_forall in A. specialize (A c (allAscii_complete c)).
  rewrite H in A. apply Ascii.eqb_eq. exact A.
Qed.

Lemma lang_seq_of_ci (l w : list ascii) :
  lang (Regex.seq_of Regex.lit_ci l) w -> map lower w = map lower l.
Proof.
  revert w. induction l as [|c l IH]; intros w H.
  - cbn [Regex.seq_of lang] in H. subst w. reflexivity.
  - destruct l as [|c' l'].
    + cbn [Regex.seq_of] in H. destruct H as [x [-> Hx]].
      cbn [map]. rewrite (upper_eq_lower _ _ Hx). reflexivity.
    + change (Regex.seq_of Regex.lit_ci (c :: c' :: l'))
        with (Regex.Seq (Regex.lit_ci c) (Regex.seq_of Regex.lit_ci (c' :: l')))
        in H.
      apply lang_chr_then in H. destruct H as [x [rest [-> [Hx H]]]].
      cbn [map]. rewrite (upper_eq_lower _ _ Hx), (IH _ H). reflexivity.
Qed.

Lemma lang_text_ci (s : string) (w : list ascii) :
  lang (Regex.text_ci s) w -> toLowerCase (str w) = toLowerCase s.
Proof.
  intros H. unfold toLowerCase. rewrite chars_str.
  rewrite (lang_seq_of_ci _ _ H). reflexivity.
Qed.

Lemma lang_alts (l : list Regex.regex) (w : list ascii) :
  lang (Regex.alts l) w -> exists r, In r l /\ lang r w.
Proof.
  induction l as [|r l IH]; intros H.
  - destruct H as [c [_ Hc]]. discriminate.
  - destruct l as [|r' l'].
    + exists r. split; [left; reflexivity|exact H].
    + change (Regex.alts (r :: r' :: l'))
        with (Regex.Alt r (Regex.alts (r' :: l'))) in H.
      destruct H as [H|H].
      * exists r. split; [left; reflexivity|exact H].
      * destruct (IH H) as [r0 [Hin Hl]]. exists r0.
        split; [right; exact Hin|exact Hl].
Qed.

(** One of the words of [words], all in lower case, in any case. *)
Lemma lang_alts_text_ci (words : list string) (w : list ascii) :
  Forall (fun s => toLowerCase s = s) words ->
  lang (Regex.alts (map Regex.text_ci words)) w ->
  In (toLowerCase (str w)) words.
Proof.
  intros Hlow H. apply lang_alts in H. destruct H as [r [Hin Hl]].
  apply in_map_iff in Hin. destruct Hin as [s [<- Hs]].
  rewrite (lang_text_ci _ _ Hl).
  rewrite Forall_forall in Hlow. rewrite (Hlow _ Hs). exact Hs.
Qed.

Lemma digit_or_dot_ci_checked :
  forallb (fun c =>
             implb ((is_digit c || Ascii.eqb c ".")
                    || (is_digit (upper c) || Ascii.eqb (upper c) ".")
                    || (is_digit (lower c) || Ascii.eqb (lower c) "."))
                   (is_digit c || Ascii.eqb c "."))
          allAscii = true.
Proof. vm_compute. reflexivity. Qed.

Lemma lang_number_ci (w : list ascii) :
  lang (Regex.plus
          (Regex.class_ci (fun c => is_digit c || Ascii.eqb c "."))) w ->
  w <> [] /\ forallb (fun c => is_digit c || Ascii.eqb c ".") w = true.
Proof.
  intros H. apply lang_plus_chr in H. destruct H as [Hne Hall].
  split; [exact Hne|]. rewrite forallb_forall in Hall |- *.
  intros c Hc. specialize (Hall c Hc). cbv beta in Hall.
  pose proof digit_or_dot_ci_checked as A. rewrite forallb_forall in A.
  specialize (A c (allAscii_complete c)). cbv beta in A.
  rewrite Hall in A. exact A.
Qed.

Lemma lang_length (w : list ascii) :
  lang (Regex.Seq
          (Regex.plus (Regex.class_ci (fun c => is_digit c || Ascii.eqb c ".")))
          CssParser.units) w ->
  isLength ["px"; "rem"; "em"] (str w).
Proof.
  intros [num [unit [-> [Hnum Hunit]]]].
  apply lang_number_ci in Hnum. destruct Hnum as [Hne Hall].
  exists num, unit. rewrite chars_str.
  split; [reflexivity|]. split; [exact Hne|]. split; [exact Hall|].
  apply (lang_alts_text_ci ["px"; "rem"; "em"]); [|exact Hunit].
  repeat constructor.
Qed.

(** X3.  Every value [extractSpacing] returns is of kind spacing, names
    as its property one of the nine spacing properties, in any case, and
    is a run of digits and dots followed by [px], [rem] or [em], in any
    case. *)
Theorem extractSpacing_shape :
  forall css : string,
  exists vs,
    CssParser.extractSpacing css = Some vs
    /\ Forall (fun v =>
                 CssParser.type v = CssParser.spacing
                 /\ (exists p, CssParser.property v = Some p
                               /\ In (toLowerCase p) CssParser.spacingProps)
                 /\ isLength ["px"; "rem"; "em"] (CssParser.cvalue v)) vs.
Proof.
  intros css. unfold CssParser.extractSpacing.
  destruct (execAll_total CssParser.spacingRegex css) as [ms E];
    [vm_compute; lia|].
  rewrite E. eexists. split; [reflexivity|].
  apply Forall_map_intro. cbn [CssParser.type CssParser.property CssParser.cvalue].
  apply Forall_impl with (2 := execAll_sound _ _ _ E).
  intros m [_ [G _]]. split; [reflexivity|].
  destruct (m_group_sure _ _ 1%nat G) as [p Hp]; [left; reflexivity|].
  destruct (m_group_sure _ _ 2%nat G) as [v Hv]; [right; left; reflexivity|].
  split.
  - exists p. split; [exact Hp|].
    destruct (m_group_sound _ _ _ _ G Hp) as [r' [Hr [Hl _]]].
    destruct Hr as [Hr|[Hr|[]]]; [|discriminate].
    injection Hr as <-.
    rewrite <- (str_chars p).
    apply lang_alts_text_ci; [repeat constructor|exact Hl].
  - unfold CssParser.group_text. rewrite Hv.
    destruct (m_group_sound _ _ _ _ G Hv) as [r' [Hr [Hl _]]].
    destruct Hr as [Hr|[Hr|[]]]; [discriminate|].
    injection Hr as <-.
    rewrite <- (str_chars v). apply lang_length. exact Hl.
Qed.

Lemma forallPairs_spec (p : ascii -> ascii -> bool) :
  forallPairs p = true -> forall c1 c2, p c1 c2 = true.
Proof.
  intros H c1 c2. unfold forallPairs in H. rewrite forallb_forall in H.
  specialize (H c1 (allAscii_complete c1)). rewrite forallb_forall in H.
  exact (H c2 (allAscii_complete c2)).
Qed.

Lemma integral_eqb_eq (a b : integral) : integral_eqb a b = true -> a = b.
Proof.
  destruct a, b; cbn; try discriminate; try reflexivity.
  intros H. apply Z.eqb_eq in H. subst. reflexivity.
Qed.

(** Two characters read in base 16: NaN, or an integer from -15 to 255;
    two hex digits give their value. *)
Lemma parseInt_pair_checked :
  forallPairs (fun c1 c2 =>
    match parseInt (pairString c1 c2) (Some 16%Z) with
    | Int z => (-15 <=? z)%Z && (z <=? 255)%Z
               && implb (is_hex c1 && is_hex c2) (z =? pairValue c1 c2)%Z
    | INaN => negb (is_hex c1 && is_hex c2)
    | _ => false
    end) = true.
Proof. vm_compute. reflexivity. Qed.

Lemma parseInt_pair (c1 c2 : ascii) :
  parseInt (pairString c1 c2) (Some 16%Z) = INaN
  \/ exists z, parseInt (pairString c1 c2) (Some 16%Z) = Int z
               /\ (-15 <= z <= 255)%Z.
Proof.
  pose proof (forallPairs_spec _ parseInt_pair_checked c1 c2) as H.
  cbv beta in H.
  destruct (parseInt (pairString c1 c2) (Some 16%Z)) as [z| | |];
    try discriminate; [right|left; reflexivity].
  exists z. split; [reflexivity|].
  apply andb_true_iff in H. destruct H as [H _].
  apply andb_true_iff in H. destruct H as [H1 H2].
  apply Z.leb_le in H1, H2. lia.
Qed.

Lemma parseInt_hex_digits (c1 c2 : ascii) :
  is_hex c1 = true -> is_hex c2 = true ->
  parseInt (pairString c1 c2) (Some 16%Z) = Int (pairValue c1 c2)
  /\ (0 <= pairValue c1 c2 <= 255)%Z.
Proof.
  intros H1 H2.
  pose proof (forallPairs_spec _ parseInt_pair_checked c1 c2) as H.
  cbv beta in H. rewrite H1, H2 in H. cbn [andb implb negb] in H.
  destruct (parseInt_hex_pair c1 c2 H1 H2) as [z [E B]].
  unfold pairString in *. rewrite E in H |- *.
  apply andb_true_iff in H. destruct H as [_ H]. apply Z.eqb_eq in H.
  subst z. split; [reflexivity|exact B].
Qed.

(** ** [hexToRgb] *)

Lemma hexToRgb_chars6 (hex : string) (c1 c2 c3 c4 c5 c6 : ascii) :
  chars (removeLeadingHash hex) = [c1; c2; c3; c4; c5; c6] ->
  Color.hexToRgb hex = channelsOf c1 c2 c3 c4 c5 c6.
Proof.
  intros H. unfold Color.hexToRgb.
  rewrite <- (str_chars (removeLeadingHash hex)), H. reflexivity.
Qed.

Lemma hexToRgb_chars3 (hex : string) (c1 c2 c3 : ascii) :
  chars (removeLeadingHash hex) = [c1; c2; c3] ->
  Color.hexToRgb hex = channelsOf c1 c1 c2 c2 c3 c3.
Proof.
  intros H. unfold Color.hexToRgb.
  rewrite <- (str_chars (removeLeadingHash hex)), H. reflexivity.
Qed.

Lemma length_str (l : list ascii) : String.length (str l) = List.length l.
Proof. rewrite <- chars_length, chars_str. reflexivity. Qed.

Lemma doubleChars_length (s : string) :
  String.length (Color.doubleChars s) = (2 * String.length s)%nat.
Proof.
  unfold Color.doubleChars. rewrite length_str, <- chars_length.
  induction (chars s) as [|c l IH]; [reflexivity|].
  cbn [flat_map app List.length]. rewrite IH. lia.
Qed.

Lemma hexToRgb_length (hex : string) (rgb : Color.RGB) :
  Color.hexToRgb hex = Some rgb ->
  String.length (removeLeadingHash hex) = 3%nat
  \/ String.length (removeLeadingHash hex) = 6%nat.
Proof.
  unfold Color.hexToRgb. intros H.
  destruct (String.length (removeLeadingHash hex) =? 3)%nat eqn:E3.
  - left. apply Nat.eqb_eq. exact E3.
  - destruct (String.length (removeLeadingHash hex) =? 6)%nat eqn:E6.
    + right. apply Nat.eqb_eq. exact E6.
    + discriminate.
Qed.

Lemma channelsOf_bounds (c1 c2 c3 c4 c5 c6 : ascii) (rgb : Color.RGB) :
  channelsOf c1 c2 c3 c4 c5 c6 = Some rgb ->
  exists r g b : Z,
    rgb = Color.Rgb (Int r) (Int g) (Int b)
    /\ (-15 <= r <= 255)%Z /\ (-15 <= g <= 255)%Z /\ (-15 <= b <= 255)%Z.
Proof.
  unfold channelsOf. intros H.
  destruct (parseInt_pair c1 c2) as [E1|[r [E1 B1]]]; rewrite E1 in H;
    [discriminate|].
  destruct (parseInt_pair c3 c4) as [E2|[g [E2 B2]]]; rewrite E2 in H;
    [discriminate|].
  destruct (parseInt_pair c5 c6) as [E3|[b [E3 B3]]]; rewrite E3 in H;
    [discriminate|].
  injection H as <-. exists r, g, b. repeat split; lia.
Qed.

Lemma hexToRgb_channel_bounds (hex : string) (rgb : Color.RGB) :
  Color.hexToRgb hex = Some rgb ->
  exists r g b : Z,
    rgb = Color.Rgb (Int r) (Int g) (Int b)
    /\ (-15 <= r <= 255)%Z /\ (-15 <= g <= 255)%Z /\ (-15 <= b <= 255)%Z.
Proof.
  intros H. pose proof (hexToRgb_length _ _ H) as Hlen.
  rewrite <- chars_length in Hlen. destruct Hlen as [Hlen|Hlen].
  - destruct (chars (removeLeadingHash hex)) as [|c1 [|c2 [|c3 [|c4 l]]]] eqn:E;
      try discriminate.
    rewrite (hexToRgb_chars3 _ _ _ _ E) in H.
    apply (channelsOf_bounds _ _ _ _ _ _ _ H).
  - destruct (chars (removeLeadingHash hex))
      as [|c1 [|c2 [|c3 [|c4 [|c5 [|c6 [|c7 l]]]]]]] eqn:E; try discriminate.
    rewrite (hexToRgb_chars6 _ _ _ _ _ _ _ E) in H.
    apply (channelsOf_bounds _ _ _ _ _ _ _ H).
Qed.

(** X4.  [hexToRgb] returns a colour only for three or six characters
    after the optional leading [#]; its channels are then integers from
    -15 to 255, never NaN. *)
Theorem hexToRgb_success :
  forall (hex : string) (rgb : Color.RGB),
    Color.hexToRgb hex = Some rgb ->
    (String.length (removeLeadingHash hex) = 3%nat
     \/ String.length (removeLeadingHash hex) = 6%nat)
    /\ exists r g b : Z,
        rgb = Color.Rgb (Int r) (Int g) (Int b)
        /\ (-15 <= r <= 255)%Z /\ (-15 <= g <= 255)%Z /\ (-15 <= b <= 255)%Z.
Proof.
  intros hex rgb H. split.
  - exact (hexToRgb_length _ _ H).
  - exact (hexToRgb_channel_bounds _ _ H).
Qed.

Lemma hexToRgb_success_witness :
  exists r g b : Z,
    Color.Rgb (Int 0) (Int 102) (Int 204) = Color.Rgb (Int r) (Int g) (Int b)
    /\ (-15 <= r <= 255)%Z /\ (-15 <= g <= 255)%Z /\ (-15 <= b <= 255)%Z.
Proof.
  apply (proj2 (hexToRgb_success "#0066CC"
                  (Color.Rgb (Int 0) (Int 102) (Int 204)) eq_refl)).
Defined.

Lemma channelsOf_hex (c1 c2 c3 c4 c5 c6 : ascii) :
  forallb is_hex [c1; c2; c3; c4; c5; c6] = true ->
  channelsOf c1 c2 c3 c4 c5 c6
  = Some (Color.Rgb (Int (pairValue c1 c2)) (Int (pairValue c3 c4))
            (Int (pairValue c5 c6)))
  /\ (0 <= pairValue c1 c2 <= 255)%Z /\ (0 <= pairValue c3 c4 <= 255)%Z
  /\ (0 <= pairValue c5 c6 <= 255)%Z.
Proof.
  intros H. cbn [forallb] in H.
  repeat (apply andb_true_iff in H; destruct H as [? H]).
  destruct (parseInt_hex_digits c1 c2) as [E1 B1]; [assumption..|].
  destruct (parseInt_hex_digits c3 c4) as [E2 B2]; [assumption..|].
  destruct (parseInt_hex_digits c5 c6) as [E3 B3]; [assumption..|].
  unfold channelsOf. rewrite E1, E2, E3. repeat split; lia.
Qed.

(** X5.  On six hex digits, with or without the leading [#], [hexToRgb]
    returns the three pairs read in base 16, each from 0 to 255; on three
    hex digits it returns each digit doubled, that is 17 times the
    digit. *)
Theorem hexToRgb_valid :
  forall hex : string,
    (validHex6 hex = true ->
     exists c1 c2 c3 c4 c5 c6 : ascii,
       chars (removeLeadingHash hex) = [c1; c2; c3; c4; c5; c6]
       /\ Color.hexToRgb hex
          = Some (Color.Rgb (Int (pairValue c1 c2)) (Int (pairValue c3 c4))
                    (Int (pairValue c5 c6)))
       /\ (0 <= pairValue c1 c2 <= 255)%Z /\ (0 <= pairValue c3 c4 <= 255)%Z
       /\ (0 <= pairValue c5 c6 <= 255)%Z)
    /\ (validHex3 hex = true ->
        exists c1 c2 c3 : ascii,
          chars (removeLeadingHash hex) = [c1; c2; c3]
          /\ Color.hexToRgb hex
             = Some (Color.Rgb (Int (17 * hexDigit c1)) (Int (17 * hexDigit c2))
                       (Int (17 * hexDigit c3)))
          /\ (0 <= 17 * hexDigit c1 <= 255)%Z
          /\ (0 <= 17 * hexDigit c2 <= 255)%Z
          /\ (0 <= 17 * hexDigit c3 <= 255)%Z).
Proof.
  intros hex. split; intros H.
  - unfold validHex6 in H. apply andb_true_iff in H. destruct H as [Hlen Hhex].
    apply Nat.eqb_eq in Hlen.
    destruct (chars (removeLeadingHash hex))
      as [|c1 [|c2 [|c3 [|c4 [|c5 [|c6 [|c7 l]]]]]]] eqn:E; try discriminate.
    exists c1, c2, c3, c4, c5, c6. split; [reflexivity|].
    rewrite (hexToRgb_chars6 _ _ _ _ _ _ _ E).
    apply channelsOf_hex. exact Hhex.
  - unfold validHex3 in H. apply andb_true_iff in H. destruct H as [Hlen Hhex].
    apply Nat.eqb_eq in Hlen.
    destruct (chars (removeLeadingHash hex)) as [|c1 [|c2 [|c3 [|c4 l]]]] eqn:E;
      try discriminate.
    exists c1, c2, c3. split; [reflexivity|].
    rewrite (hexToRgb_chars3 _ _ _ _ E).
    cbn [forallb] in Hhex.
    repeat (apply andb_true_iff in Hhex; destruct Hhex as [? Hhex]).
    replace (17 * hexDigit c1)%Z with (pairValue c1 c1) by (unfold pairValue; lia).
    replace (17 * hexDigit c2)%Z with (pairValue c2 c2) by (unfold pairValue; lia).
    replace (17 * hexDigit c3)%Z with (pairValue c3 c3) by (unfold pairValue; lia).
    apply channelsOf_hex. cbn [forallb].
    repeat (apply andb_true_iff; split); try assumption; reflexivity.
Qed.

Lemma hexToRgb_valid_witness :
  exists c1 c2 c3 : ascii,
    chars (removeLeadingHash "#06c") = [c1; c2; c3]
    /\ Color.hexToRgb "#06c"
       = Some (Color.Rgb (Int (17 * hexDigit c1)) (Int (17 * hexDigit c2))
                 (Int (17 * hexDigit c3)))
    /\ (0 <= 17 * hexDigit c1 <= 255)%Z
    /\ (0 <= 17 * hexDigit c2 <= 255)%Z
    /\ (0 <= 17 * hexDigit c3 <= 255)%Z.
Proof. apply (proj2 (hexToRgb_valid "#06c")). reflexivity. Defined.

(** ** Letter case *)

Lemma forallChars_spec (p : ascii -> bool) :
  forallChars p = true -> forall c, p c = true.
Proof.
  intros H c. unfold forallChars in H. rewrite forallb_forall in H.
  exact (H c (allAscii_complete c)).
Qed.





Lemma readSign_cases (l : list ascii) :
  match l with
  | c :: rest =>
      if Ascii.eqb c "-" then readSign l = (true, rest)
      else if Ascii.eqb c "+" then readSign l = (false, rest)
      else readSign l = (false, l)
  | [] => readSign l = (false, l)
  end.
Proof.
  destruct l as [|c rest]; [reflexivity|].
  destruct (Ascii.eqb_spec c "-"%char) as [->|N1]; [reflexivity|].
  destruct (Ascii.eqb_spec c "+"%char) as [->|N2]; [reflexivity|].
  destruct c as [[] [] [] [] [] [] [] []]; try reflexivity;
    exfalso; (apply N1; reflexivity) || (apply N2; reflexivity).
Qed.



Lemma hexPrefix_other (c : ascii) (rest : list ascii) :
  c <> "0"%char \/ List.length rest = 0%nat ->
  match c :: rest with
  | "0"%char :: x :: _ => Ascii.eqb (lower x) "x"
  | _ => false
  end = false.
Proof.
  intros [N|E].
  - destruct c as [[] [] [] [] [] [] [] []]; try reflexivity.
    exfalso. apply N. reflexivity.
  - destruct rest; [|discriminate].
    destruct c as [[] [] [] [] [] [] [] []]; reflexivity.
Qed.





Lemma chars_inj (s t : string) : chars s = chars t -> s = t.
Proof. intros H. rewrite <- (str_chars s), <- (str_chars t), H. reflexivity. Qed.












(** ** [Color.rgbToHex] *)







(** ** Reading decimal digits *)

Lemma digit_facts_checked :
  forallChars (fun c =>
    implb (is_digit c)
          (negb (is_space c) && negb (Ascii.eqb c "-") && negb (Ascii.eqb c "+")
           && negb (Ascii.eqb (lower c) "x")
           && match digitValue c with
              | Some d => (0 <=? d)%Z && (d <? 10)%Z
              | None => false
              end)) = true.
Proof. vm_compute. reflexivity. Qed.

Lemma digit_facts (c : ascii) :
  is_digit c = true ->
  is_space c = false /\ Ascii.eqb c "-" = false /\ Ascii.eqb c "+" = false
  /\ Ascii.eqb (lower c) "x" = false
  /\ exists d, digitValue c = Some d /\ (0 <= d < 10)%Z.
Proof.
  intros Hc. pose proof (forallChars_spec _ digit_facts_checked c) as H.
  cbv beta in H. rewrite Hc in H. cbn [implb] in H.
  repeat (apply andb_true_iff in H; destruct H as [H ?]).
  repeat match goal with
         | X : negb _ = true |- _ => apply negb_true_iff in X
         end.
  repeat split; try assumption.
  destruct (digitValue c) as [d|]; [|discriminate].
  exists d. split; [reflexivity|].
  match goal with
  | X : (_ && _)%bool = true |- _ =>
      apply andb_true_iff in X; destruct X as [X1 X2];
      apply Z.leb_le in X1; apply Z.ltb_lt in X2
  end.
  lia.
Qed.

Lemma readDigits_all (ds : list ascii) :
  forallb is_digit ds = true ->
  forall acc : option Z,
    ds <> [] ->
    match acc with Some a => (0 <= a)%Z | None => True end ->
    exists v, readDigits 10 acc ds = (Some v, []) /\ (0 <= v)%Z.
Proof.
  induction ds as [|c ds IH]; intros Hall acc Hne Hacc; [contradiction|].
  cbn [forallb] in Hall. apply andb_true_iff in Hall. destruct Hall as [Hc Hds].
  destruct (digit_facts c Hc) as [_ [_ [_ [_ [d [Ed Bd]]]]]].
  cbn [readDigits]. rewrite Ed.
  assert (Hlt : (d <? 10)%Z = true) by (apply Z.ltb_lt; lia). rewrite Hlt.
  destruct ds as [|c' ds'].
  - cbn [readDigits]. eexists. split; [reflexivity|].
    destruct acc as [a|]; nia.
  - apply IH; [exact Hds|discriminate|].
    destruct acc as [a|]; nia.
Qed.

(** The Number for an integer that is not negative is an integer that is
    not negative, or the positive infinity. *)
Lemma integer64_nonneg (v : Z) : (0 <= v)%Z -> atLeast 0 (integer64 v).
Proof.
  intros Hv. unfold integer64.
  destruct (Z.abs v <? 2 ^ 53)%Z; [right; exists v; split; [reflexivity|exact Hv]|].
  unfold toBinary64.
  assert (Hr : 0 <= round64 (inject_Z v)).
  { destruct (round64_sign (inject_Z v)) as [S _]. apply S.
    change 0 with (inject_Z 0). rewrite <- Zle_Qle. exact Hv. }
  pose proof (pow2_pos 1024) as Hbig.
  set (r := round64 (inject_Z v)) in *. set (big := 2 ^ 1024) in *.
  cbv zeta. destruct (Qle_bool big (Qabs r)) eqn:E.
  - apply Qle_bool_iff in E. rewrite Qabs_pos in E by exact Hr.
    unfold inf_of_sign. destruct (Qlt_bool 0 r) eqn:S; [left; reflexivity|].
    apply Qlt_bool_false in S. exfalso. lra.
  - right. exists (Qfloor r). split; [reflexivity|].
    change 0%Z with (Qfloor (inject_Z 0)). apply Qfloor_resp_le. exact Hr.
Qed.

Lemma atLeast_weaken (lo lo' : Z) (i : integral) :
  (lo' <= lo)%Z -> atLeast lo i -> atLeast lo' i.
Proof.
  intros H [E|[z [E B]]]; [left; exact E|right].
  exists z. split; [exact E|lia].
Qed.

(** A run of digits, not empty, is read by [parseInt] without a radix as
    an integer that is not negative, or as the positive infinity. *)
Lemma parseInt_digits (ds : list ascii) :
  ds <> [] -> forallb is_digit ds = true ->
  atLeast 0 (parseInt (str ds) None).
Proof.
  intros Hne Hall. unfold parseInt. rewrite chars_str.
  destruct ds as [|c ds]; [contradiction|].
  pose proof Hall as Hall'. cbn [forallb] in Hall'.
  apply andb_true_iff in Hall'. destruct Hall' as [Hc Hds].
  destruct (digit_facts c Hc) as [Hs [Hm [Hp _]]].
  cbn [dropSpaces]. rewrite Hs.
  pose proof (readSign_cases (c :: ds)) as Hsign. cbv beta iota in Hsign.
  rewrite Hm, Hp in Hsign. rewrite Hsign.
  assert (Hprefix :
            match c :: ds with
            | "0"%char :: x :: _ => Ascii.eqb (lower x) "x"
            | _ => false
            end = false).
  { destruct ds as [|x rest];
      [apply (hexPrefix_other c []); right; reflexivity|].
    cbn [forallb] in Hds. apply andb_true_iff in Hds. destruct Hds as [Hx _].
    destruct (digit_facts x Hx) as [_ [_ [_ [Hxx _]]]].
    destruct (Ascii.eqb_spec c "0"%char) as [->|N].
    - exact Hxx.
    - apply (hexPrefix_other c (x :: rest)). left. exact N. }
  rewrite Hprefix. cbn [andb].
  destruct (readDigits_all (c :: ds) Hall None Hne I) as [v [Ev Bv]].
  rewrite Ev. cbn [fst]. apply integer64_nonneg. exact Bv.
Qed.

(** ** Parsed colours *)

Lemma lang_digits (w : list ascii) :
  lang (Regex.plus Regex.digit) w -> w <> [] /\ forallb is_digit w = true.
Proof. apply lang_plus_chr. Qed.

(** Each of the three groups of the pattern is a run of digits, which
    [parseInt] reads in full. *)
Lemma rgbStringToRgb_reads_digits (s : string) (rgb : Color.RGB) :
  Color.rgbStringToRgb s = Some rgb ->
  atLeast 0 (Color.r rgb) /\ atLeast 0 (Color.g rgb)
  /\ atLeast 0 (Color.b rgb).
Proof.
  intros H. unfold Color.rgbStringToRgb, Regex.matchOnce in H.
  destruct (Regex.search Color.rgbCallRegex [] (chars s)) as [m|] eqn:E;
    [|discriminate].
  destruct (search_sound _ _ _ _ E) as [pre [_ [_ G]]].
  injection H as <-.
  assert (Hgroup : forall n, In n [1; 2; 3]%nat ->
            atLeast 0
              (parseInt (match Regex.m_group n m with Some s => s | None => "" end)
                 None)).
  { intros n Hn.
    destruct (m_group_sure _ _ n G) as [t Ht];
      [destruct Hn as [<-|[<-|[<-|[]]]]; cbn; tauto|].
    rewrite Ht.
    destruct (m_group_sound _ _ _ _ G Ht) as [r' [Hr [Hl _]]].
    assert (Hd : lang (Regex.plus Regex.digit) (chars t)).
    { cbn in Hr. destruct Hr as [Hr|[Hr|[Hr|[]]]]; injection Hr as _ <-;
        exact Hl. }
    apply lang_digits in Hd. destruct Hd as [Hne Hall].
    rewrite <- (str_chars t). apply parseInt_digits; assumption. }
  cbn [Color.r Color.g Color.b].
  repeat split; apply Hgroup; cbn; tauto.
Qed.

(** X9.  The channels of [rgbStringToRgb] are never NaN and never
    negative: each is an integer that is not negative, or the positive
    infinity, which a long run of digits gives.  Nothing bounds them
    from above. *)
Theorem rgbStringToRgb_channels :
  forall (s : string) (rgb : Color.RGB),
    Color.rgbStringToRgb s = Some rgb ->
    atLeast 0 (Color.r rgb) /\ atLeast 0 (Color.g rgb)
    /\ atLeast 0 (Color.b rgb).
Proof.
  intros s rgb H. exact (rgbStringToRgb_reads_digits s rgb H).
Qed.

Lemma rgbStringToRgb_channels_witness :
  atLeast 0 IPInf /\ atLeast 0 (Int 0) /\ atLeast 0 (Int 0).
Proof.
  apply (rgbStringToRgb_channels longChannel
           (Color.Rgb IPInf (Int 0) (Int 0))).
  vm_compute. reflexivity.
Defined.

(** X10.  A colour that [parseColor] accepts has three channels that are
    never NaN: each is an integer that is not below -15, or the positive
    infinity. *)
Theorem parseColor_channels :
  forall (color : string) (rgb : Color.RGB),
    Color.parseColor color = Some rgb ->
    atLeast (-15) (Color.r rgb) /\ atLeast (-15) (Color.g rgb)
    /\ atLeast (-15) (Color.b rgb).
Proof.
  intros color rgb H. unfold Color.parseColor in H.
  destruct (startsWith (trim color) "#").
  - destruct (hexToRgb_channel_bounds _ _ H) as [r [g [b [E [Br [Bg Bb]]]]]].
    subst rgb. cbn [Color.r Color.g Color.b].
    repeat split; right; eexists; (split; [reflexivity|lia]).
  - destruct (startsWith (trim color) "rgb"); [|discriminate].
    destruct (rgbStringToRgb_reads_digits _ _ H) as [Br [Bg Bb]].
    repeat split; apply (atLeast_weaken 0); (lia || assumption).
Qed.

Lemma parseColor_channels_witness :
  atLeast (-15) IPInf /\ atLeast (-15) (Int 0) /\ atLeast (-15) (Int 0).
Proof.
  apply (parseColor_channels longChannel (Color.Rgb IPInf (Int 0) (Int 0))).
  vm_compute. reflexivity.
Defined.

(** ** Contrast *)

(** X11.  [checkContrast] returns no result exactly when one of the two
    colours is not parsed.  In a result, passing AAA implies passing AA,
    and the score is the highest level passed. *)
Theorem checkContrast_levels :
  forall (pow : num -> num -> num) (fg bg : string),
    (Color.checkContrast pow fg bg = None
     <-> Color.parseColor fg = None \/ Color.parseColor bg = None)
    /\ forall c,
        Color.checkContrast pow fg bg = Some c ->
        (Color.wcagAAA c = true -> Color.wcagAA c = true)
        /\ (Color.score c = Color.AAA <-> Color.wcagAAA c = true)
        /\ (Color.score c = Color.AA
            <-> Color.wcagAA c = true /\ Color.wcagAAA c = false)
        /\ (Color.score c = Color.fail <-> Color.wcagAA c = false).
Proof.
  intros pow fg bg. unfold Color.checkContrast, Color.getContrastRatio.
  destruct (Color.parseColor fg) as [rgb1|], (Color.parseColor bg) as [rgb2|].
  2-4: split; [split; [tauto|reflexivity]|discriminate].
  split; [split; [discriminate|intros [H|H]; discriminate]|].
  intros c H. cbv zeta in H.
  match type of H with
  | context [ge ?x (Fin 7)] => remember x as ratio eqn:Eratio
  end.
  assert (Himp : ge ratio (Fin 7) = true -> ge ratio (Fin (45 # 10)) = true).
  { unfold ge. intros H7. apply le_trans with (Fin 7); [reflexivity|exact H7]. }
  remember (ge ratio (Fin 7)) as aaa eqn:E7.
  remember (ge ratio (Fin (45 # 10))) as aa eqn:E45.
  clear Eratio E7 E45. injection H as <-.
  cbn [Color.wcagAA Color.wcagAAA Color.score].
  destruct aaa.
  - rewrite (Himp eq_refl). repeat split; try tauto; try discriminate.
    intros [_ H]. discriminate.
  - destruct aa; repeat split; try tauto;
      try discriminate; intros [H _]; discriminate.
Qed.

Lemma checkContrast_levels_witness :
  Color.checkContrast anyPow "#000000" "16px" = None.
Proof.
  apply (proj1 (checkContrast_levels anyPow "#000000" "16px")).
  right. reflexivity.
Defined.

(** *** Symmetry *)

Lemma sameNumber_refl (a : num) : sameNumber a a.
Proof. destruct a; cbn; [reflexivity|exact I..]. Qed.

Lemma max_comm (a b : num) : sameNumber (JsNumber.max a b) (JsNumber.max b a).
Proof.
  destruct a as [x| | |], b as [y| | |]; cbn; try exact I;
    try apply Qeq_refl.
  destruct (Qlt_bool x y) eqn:E1, (Qlt_bool y x) eqn:E2; cbn;
    try (apply Qlt_bool_iff in E1); try (apply Qlt_bool_false in E1);
    try (apply Qlt_bool_iff in E2); try (apply Qlt_bool_false in E2); lra.
Qed.

Lemma min_comm (a b : num) : sameNumber (JsNumber.min a b) (JsNumber.min b a).
Proof.
  destruct a as [x| | |], b as [y| | |]; cbn; try exact I;
    try apply Qeq_refl.
  destruct (Qlt_bool x y) eqn:E1, (Qlt_bool y x) eqn:E2; cbn;
    try (apply Qlt_bool_iff in E1); try (apply Qlt_bool_false in E1);
    try (apply Qlt_bool_iff in E2); try (apply Qlt_bool_false in E2); lra.
Qed.

Lemma add_comp (a a' b b' : num) :
  sameNumber a a' -> sameNumber b b' -> sameNumber (add a b) (add a' b').
Proof.
  destruct a, a', b, b'; cbn; try tauto. intros H1 H2. rewrite H1, H2.
  reflexivity.
Qed.

(** Two numbers with the same value are rounded to the same Number. *)
Lemma toBinary64_comp (a a' : num) :
  sameNumber a a' -> toBinary64 a = toBinary64 a'.
Proof.
  destruct a, a'; cbn [sameNumber]; try tauto; try reflexivity.
  intros H. unfold toBinary64. rewrite (round64_comp _ _ H). reflexivity.
Qed.

(** X12.  The contrast of two colours does not depend on which is the
    foreground: both orders give the same reported ratio, the same
    levels and the same score, or both give no result. *)
Theorem checkContrast_symmetric :
  forall (pow : num -> num -> num) (fg bg : string),
    Color.checkContrast pow fg bg = Color.checkContrast pow bg fg.
Proof.
  intros pow fg bg. unfold Color.checkContrast, Color.getContrastRatio.
  destruct (Color.parseColor fg) as [rgb1|], (Color.parseColor bg) as [rgb2|];
    try reflexivity.
  set (l1 := Color.getRelativeLuminance pow rgb1).
  set (l2 := Color.getRelativeLuminance pow rgb2).
  assert (H : div64 (add64 (JsNumber.max l1 l2) (literal (5 # 100)))
                    (add64 (JsNumber.min l1 l2) (literal (5 # 100)))
              = div64 (add64 (JsNumber.max l2 l1) (literal (5 # 100)))
                      (add64 (JsNumber.min l2 l1) (literal (5 # 100)))).
  { assert (Emax : add64 (JsNumber.max l1 l2) (literal (5 # 100))
                   = add64 (JsNumber.max l2 l1) (literal (5 # 100))).
    { unfold add64. apply toBinary64_comp.
      apply add_comp; [apply max_comm|apply sameNumber_refl]. }
    assert (Emin : add64 (JsNumber.min l1 l2) (literal (5 # 100))
                   = add64 (JsNumber.min l2 l1) (literal (5 # 100))).
    { unfold add64. apply toBinary64_comp.
      apply add_comp; [apply min_comm|apply sameNumber_refl]. }
    rewrite Emax, Emin. reflexivity. }
  cbv zeta. rewrite H. reflexivity.
Qed.

(** ** Alternatives with enough contrast *)

Lemma firstPassing_skip (pow : num -> num -> num) (background : string)
    (pre rest : list DesignToken) :
  (forall x, In x pre -> passesAA pow (value x) background = false) ->
  Accessibility.firstPassing pow (pre ++ rest) background
  = Accessibility.firstPassing pow rest background.
Proof.
  induction pre as [|a pre IH]; intros H; [reflexivity|].
  cbn [app Accessibility.firstPassing].
  pose proof (H a (or_introl eq_refl)) as Ha. unfold passesAA in Ha.
  assert (IH' := IH (fun x Hx => H x (or_intror Hx))).
  destruct (Color.checkContrast pow (value a) background) as [c|];
    [rewrite Ha|]; exact IH'.
Qed.

Lemma filter_skip {A : Type} (p q : A -> bool) (l : list A) :
  (forall x, In x l -> p x = true -> q x = false) ->
  forall x, In x (filter p l) -> q x = false.
Proof.
  intros H x Hx. apply filter_In in Hx. destruct Hx as [Hin Hp].
  exact (H x Hin Hp).
Qed.

(** X13.  The alternative proposed is the first colour token of the
    catalog, in catalog order, whose contrast against the background
    passes AA, whichever token is the current one; tokens of other
    categories are never proposed.  When no colour token passes, the
    answer says that there is no alternative. *)
Theorem findBetterTokenCombination_first_fit :
  forall (pow : num -> num -> num) (current : DesignToken)
         (background : string),
    (forall (pre post : list DesignToken) (t : DesignToken),
        (forall x, In x pre -> isColorToken x = true ->
                   passesAA pow (value x) background = false) ->
        isColorToken t = true ->
        passesAA pow (value t) background = true ->
        Accessibility.findBetterTokenCombination pow current
          (pre ++ t :: post) background
        = ("Try using " ++ name t ++ " (" ++ value t
             ++ ") for better contrast")%string)
    /\ (forall tokens : list DesignToken,
           (forall x, In x tokens -> isColorToken x = true ->
                      passesAA pow (value x) background = false) ->
           Accessibility.findBetterTokenCombination pow current tokens
             background
           = "No alternative tokens found with sufficient contrast").
Proof.
  intros pow current background.
  unfold Accessibility.findBetterTokenCombination. split.
  - intros pre post t Hpre Ht Hpass. fold isColorToken.
    change (fun t0 : DesignToken => String.eqb (category t0) "color")
      with isColorToken.
    rewrite filter_app. cbn [filter]. rewrite Ht.
    rewrite firstPassing_skip by (apply filter_skip; exact Hpre).
    cbn [Accessibility.firstPassing]. unfold passesAA in Hpass.
    destruct (Color.checkContrast pow (value t) background) as [c|];
      [|discriminate].
    rewrite Hpass. reflexivity.
  - intros tokens H.
    change (fun t0 : DesignToken => String.eqb (category t0) "color")
      with isColorToken.
    rewrite <- (app_nil_r (filter isColorToken tokens)).
    rewrite firstPassing_skip by (apply filter_skip; exact H). reflexivity.
Qed.

Lemma findBetterTokenCombination_first_fit_witness :
  Accessibility.findBetterTokenCombination anyPow
    (Token "color-dark" "#000000" "color" None) darkAndLight "#000000"
  = "Try using color-light (#ffffff) for better contrast"
  /\ Accessibility.findBetterTokenCombination anyPow
       (Token "color-dark" "#000000" "color" None)
       [Token "spacing-md" "16px" "spacing" None] "#000000"
     = "No alternative tokens found with sufficient contrast".
Proof.
  destruct (findBetterTokenCombination_first_fit anyPow
              (Token "color-dark" "#000000" "color" None) "#000000")
    as [Hfirst Hnone].
  split.
  - apply (Hfirst [Token "spacing-md" "16px" "spacing" None;
                   Token "color-dark" "#000000" "color" None] []
             (Token "color-light" "#ffffff" "color" None)).
    + intros x [Hx|[Hx|[]]] Hc; subst x; [discriminate|].
      vm_compute. reflexivity.
    + reflexivity.
    + vm_compute. reflexivity.
  - apply Hnone. intros x [Hx|[]] Hc. subst x. discriminate.
Defined.

(** ** All combinations against a background *)

Lemma insert_permutation {A : Type} (cmp : A -> A -> num) (x : A) (l : list A) :
  Permutation (JsArray.insert cmp x l) (x :: l).
Proof.
  induction l as [|y l IH]; cbn [JsArray.insert]; [apply Permutation_refl|].
  destruct (gt (cmp x y) (Fin 0)).
  - apply Permutation_trans with (y :: x :: l).
    + apply perm_skip. exact IH.
    + apply perm_swap.
  - apply Permutation_refl.
Qed.

(** Whatever the comparator, sorting rearranges the list and nothing
    else. *)
Lemma sort_permutation {A : Type} (cmp : A -> A -> num) (l : list A) :
  Permutation (JsArray.sort cmp l) l.
Proof.
  induction l as [|x l IH]; [apply perm_nil|].
  unfold JsArray.sort. cbn [fold_right]. fold (JsArray.sort cmp l).
  apply Permutation_trans with (x :: JsArray.sort cmp l).
  - apply insert_permutation.
  - apply perm_skip. exact IH.
Qed.

Lemma checkTokenContrast_names (pow : num -> num -> num) (fg bg : string)
    (tokens : list DesignToken) :
  Accessibility.foregroundToken
    (Accessibility.checkTokenContrast pow fg bg tokens) = fg
  /\ Accessibility.backgroundToken
       (Accessibility.checkTokenContrast pow fg bg tokens) = bg.
Proof.
  unfold Accessibility.checkTokenContrast.
  destruct (Accessibility.findByName fg tokens) as [f|];
    [|split; reflexivity].
  destruct (Accessibility.findByName bg tokens) as [b|];
    [|split; reflexivity].
  destruct (Color.checkContrast pow (value f) (value b));
    split; reflexivity.
Qed.

(** X14.  When the background token exists, [checkAllCombinations] returns
    one result for each colour token whose name is not the background
    name: the results are a rearrangement of the checks of these tokens,
    each names the background, and none has the background as its
    foreground. *)
Theorem checkAllCombinations_results :
  forall (pow : num -> num -> num) (background : string)
         (tokens : list DesignToken) (b : DesignToken),
    Accessibility.findByName background tokens = Some b ->
    Permutation
      (Accessibility.checkAllCombinations pow background tokens)
      (map (fun fg =>
              Accessibility.checkTokenContrast pow (name fg) background tokens)
           (foregrounds background tokens))
    /\ List.length (Accessibility.checkAllCombinations pow background tokens)
       = List.length (foregrounds background tokens)
    /\ Forall (fun r => Accessibility.backgroundToken r = background
                        /\ Accessibility.foregroundToken r <> background)
              (Accessibility.checkAllCombinations pow background tokens).
Proof.
  intros pow background tokens b Hb.
  unfold Accessibility.checkAllCombinations. rewrite Hb.
  fold (foregrounds background tokens).
  set (results :=
         map (fun fg =>
                Accessibility.checkTokenContrast pow (name fg) background tokens)
             (foregrounds background tokens)).
  pose proof (sort_permutation (Accessibility.byRatioDescending) results)
    as Hperm.
  split; [exact Hperm|]. split.
  - rewrite (Permutation_length Hperm). unfold results. apply length_map.
  - apply (Permutation_Forall (Permutation_sym Hperm)).
    unfold results. apply Forall_map_intro. apply Forall_forall.
    intros fg Hfg.
    destruct (checkTokenContrast_names pow (name fg) background tokens)
      as [-> ->].
    split; [reflexivity|].
    unfold foregrounds in Hfg. apply filter_In in Hfg.
    destruct Hfg as [_ Hfg]. apply andb_true_iff in Hfg.
    destruct Hfg as [_ Hne]. apply negb_true_iff in Hne.
    apply String.eqb_neq. exact Hne.
Qed.

Lemma checkAllCombinations_results_witness :
  List.length (Accessibility.checkAllCombinations anyPow "color-dark" darkAndLight)
  = List.length (foregrounds "color-dark" darkAndLight).
Proof.
  apply (proj1 (proj2 (checkAllCombinations_results anyPow "color-dark"
                         darkAndLight
                         (Token "color-dark" "#000000" "color" None)
                         eq_refl))).
Defined.

(** ** Where migration suggestions come from *)

Lemma In_firstn {A : Type} (n : nat) (l : list A) (x : A) :
  In x (firstn n l) -> In x l.
Proof.
  revert l. induction n as [|n IH]; intros l H; [destruct H|].
  destruct l as [|y l]; [destruct H|].
  destruct H as [H|H]; [left; exact H|right; apply IH; exact H].
Qed.

(** Every suggestion returned is the suggestion of a retained
    candidate. *)
Lemma suggestion_retained (oldValue : string) (tokens : list DesignToken)
    (category : option string) (s : Migration.Suggestion) :
  In s (Migration.suggestedTokens
          (Migration.suggestTokenMigration oldValue tokens category)) ->
  exists t, In t (Migration.candidateTokens tokens category)
            /\ retained oldValue t = true
            /\ s = suggestionOf oldValue t.
Proof.
  unfold Migration.suggestTokenMigration, JsArray.slice0.
  cbn [Migration.suggestedTokens]. intros H. apply In_firstn in H.
  apply (Permutation_in _ (sort_permutation _ _)) in H.
  apply in_flat_map in H. destruct H as [t [Ht Hs]].
  exists t. split; [exact Ht|]. unfold retained, suggestionOf.
  destruct (Migration.ValueType_eqb _ _); [|destruct Hs].
  destruct (gt _ _); [|destruct Hs].
  destruct Hs as [Hs|[]]. split; [reflexivity|]. symmetry. exact Hs.
Qed.

Lemma candidateTokens_sub (tokens : list DesignToken) (category : option string)
    (t : DesignToken) :
  In t (Migration.candidateTokens tokens category) ->
  In t tokens
  /\ forall c, category = Some c -> c <> "" -> DesignToken.category t = c.
Proof.
  unfold Migration.candidateTokens. destruct category as [c|].
  - destruct (String.eqb_spec c "") as [E|N].
    + intros H. split; [exact H|]. intros c' Hc Hn. injection Hc as <-.
      contradiction.
    + intros H. apply filter_In in H. destruct H as [Hin Hc].
      split; [exact Hin|]. intros c' Hc' _. injection Hc' as <-.
      apply String.eqb_eq. exact Hc.
  - intros H. split; [exact H|]. discriminate.
Qed.

(** X15.  Every migration suggestion is built from a token of the catalog:
    it carries that token's name, value and category, and its similarity
    to the query.  When a category is asked for, every suggestion has
    that category. *)
Theorem suggestTokenMigration_sources :
  forall (oldValue : string) (tokens : list DesignToken)
         (category : option string) (s : Migration.Suggestion),
    In s (Migration.suggestedTokens
            (Migration.suggestTokenMigration oldValue tokens category)) ->
    (exists t, In t tokens
               /\ Migration.tokenName s = name t
               /\ Migration.tokenValue s = value t
               /\ Migration.scategory s = DesignToken.category t
               /\ Migration.detectValueType (value t)
                  = Migration.detectValueType oldValue
               /\ Migration.similarity s
                  = Migration.calculateSimilarity oldValue (value t)
                      (Migration.detectValueType oldValue))
    /\ (forall c, category = Some c -> c <> "" -> Migration.scategory s = c).
Proof.
  intros oldValue tokens category s H.
  destruct (suggestion_retained _ _ _ _ H) as [t [Ht [Hr ->]]].
  destruct (candidateTokens_sub _ _ _ Ht) as [Hin Hcat].
  split.
  - exists t. split; [exact Hin|]. repeat split.
    unfold retained in Hr. apply andb_true_iff in Hr. destruct Hr as [Hty _].
    apply ValueType_eqb_eq in Hty. symmetry. exact Hty.
  - intros c Hc Hn. exact (Hcat c Hc Hn).
Qed.

Lemma suggestTokenMigration_sources_witness :
  Migration.scategory
    (Migration.Suggest "spacing-md" "16px" "spacing" (Fin 1)
       "Exact match") = "spacing".
Proof.
  apply (proj2 (suggestTokenMigration_sources "16px" sizesCatalog
                  (Some "spacing")
                  (Migration.Suggest "spacing-md" "16px" "spacing"
                     (Fin 1) "Exact match")
                  ltac:(vm_compute; left; reflexivity))
               "spacing" eq_refl).
  discriminate.
Defined.

(** X16.  Unless the query is a whole number of pixels, rems or ems, only
    exact matches are suggested: every suggestion has similarity 1 and
    the reason [Exact match]. *)
Theorem suggestTokenMigration_exact_only :
  forall (oldValue : string) (tokens : list DesignToken)
         (category : option string) (s : Migration.Suggestion),
    Migration.detectValueType oldValue <> Migration.pixels ->
    Migration.detectValueType oldValue <> Migration.rem ->
    Migration.detectValueType oldValue <> Migration.em ->
    In s (Migration.suggestedTokens
            (Migration.suggestTokenMigration oldValue tokens category)) ->
    Migration.similarity s = Fin 1 /\ Migration.reason s = "Exact match".
Proof.
  intros oldValue tokens category s Hpx Hrem Hem H.
  destruct (suggestion_retained _ _ _ _ H) as [t [_ [Hr ->]]].
  unfold retained in Hr. apply andb_true_iff in Hr. destruct Hr as [_ Hg].
  unfold suggestionOf. cbn [Migration.similarity Migration.reason].
  assert (E : Migration.calculateSimilarity oldValue (value t)
                (Migration.detectValueType oldValue) = Fin 1).
  { revert Hg. unfold Migration.calculateSimilarity.
    destruct (Migration.detectValueType oldValue); try contradiction.
    - destruct (String.eqb _ _); [reflexivity|discriminate].
    - destruct (strictEq _ _); [reflexivity|discriminate].
    - destruct (String.eqb _ _);
        [reflexivity|intros Hg; vm_compute in Hg; discriminate].
    - destruct (String.eqb _ _);
        [reflexivity|intros Hg; vm_compute in Hg; discriminate].
    - destruct (String.eqb _ _);
        [reflexivity|intros Hg; vm_compute in Hg; discriminate]. }
  rewrite E. split; reflexivity.
Qed.

Lemma suggestTokenMigration_exact_only_witness :
  Migration.similarity
    (Migration.Suggest "font-weight-normal" "400" "typography" (Fin 1)
       "Exact match") = Fin 1
  /\ Migration.reason
       (Migration.Suggest "font-weight-normal" "400" "typography" (Fin 1)
          "Exact match") = "Exact match".
Proof.
  apply (suggestTokenMigration_exact_only "400" weightsCatalog None).
  - vm_compute. discriminate.
  - vm_compute. discriminate.
  - vm_compute. discriminate.
  - left. vm_compute. reflexivity.
Defined.

(** ** Replacement with and without autofix *)

(** X17.  Autofix changes the fixed code only: with or without it
    [replaceHardCodedValues] collects the same suggestions and counts
    them alike. *)
Theorem replaceHardCodedValues_same_suggestions :
  forall (code : string) (tokens : list DesignToken),
  exists plain fixed,
    Replace.replaceHardCodedValues code tokens false = Some plain
    /\ Replace.replaceHardCodedValues code tokens true = Some fixed
    /\ Replace.replacements fixed = Replace.replacements plain
    /\ Replace.replacementCount fixed = Replace.replacementCount plain
    /\ Replace.originalCode fixed = code.
Proof.
  intros code tokens. unfold Replace.replaceHardCodedValues.
  destruct (extractAllValues_total code) as [vs E]. rewrite E.
  pose proof (fold_replacements tokens false vs [] code) as H0.
  pose proof (fold_replacements tokens true vs [] code) as H1.
  match type of H0 with
  | fst ?folded = _ => destruct folded as [reps0 fc0]
  end.
  match type of H1 with
  | fst ?folded = _ => destruct folded as [reps1 fc1]
  end.
  cbn [fst app] in H0, H1. subst reps0 reps1.
  eexists. eexists. split; [reflexivity|]. split; [reflexivity|].
  repeat split.
Qed.

Lemma fold_nothing_matched (tokens : list DesignToken) (autofix : bool)
    (vs : list CssParser.CSSValue) :
  (forall v, In v vs ->
             truthy (CssParser.findMatchingToken (CssParser.cvalue v) tokens)
             = false) ->
  forall (acc : list Replace.ReplacementSuggestion * string),
    fold_left
      (fun (acc : list Replace.ReplacementSuggestion * string) v =>
         let '(replacements, fixedCode) := acc in
         match CssParser.findMatchingToken (CssParser.cvalue v) tokens with
         | Some matchingToken =>
             if String.eqb matchingToken "" then acc
             else
               let replacement := ("var(--" ++ matchingToken ++ ")")%string in
               (replacements
                  ++ [Replace.Replacement (CssParser.cvalue v) replacement
                        matchingToken (CssParser.property v)],
                if autofix
                then Replace.replaceAll (CssParser.cvalue v) replacement
                       fixedCode
                else fixedCode)
         | None => acc
         end)
      vs acc
    = acc.
Proof.
  induction vs as [|v vs IH]; intros H acc; [reflexivity|].
  cbn [fold_left]. pose proof (H v (or_introl eq_refl)) as Hv.
  unfold truthy in Hv. destruct acc as [reps fc].
  destruct (CssParser.findMatchingToken (CssParser.cvalue v) tokens) as [n|].
  - apply negb_false_iff in Hv. rewrite Hv.
    apply IH. intros x Hx. apply H. right. exact Hx.
  - apply IH. intros x Hx. apply H. right. exact Hx.
Qed.

(** X18.  When no extracted value matches a token with a name, for
    instance on an empty catalog, nothing is suggested and the code
    comes back unchanged, with autofix as without. *)
Theorem replaceHardCodedValues_nothing_matched :
  forall (code : string) (tokens : list DesignToken) (autofix : bool)
         (vs : list CssParser.CSSValue),
    CssParser.extractAllValues code = Some vs ->
    (forall v, In v vs ->
               truthy (CssParser.findMatchingToken (CssParser.cvalue v) tokens)
               = false) ->
    Replace.replaceHardCodedValues code tokens autofix
    = Some (Replace.Replaced code code [] 0).
Proof.
  intros code tokens autofix vs E H. unfold Replace.replaceHardCodedValues.
  rewrite E, (fold_nothing_matched tokens autofix vs H).
  destruct autofix; reflexivity.
Qed.

Lemma replaceHardCodedValues_nothing_matched_witness :
  Replace.replaceHardCodedValues scenarioText [] true
  = Some (Replace.Replaced scenarioText scenarioText [] 0).
Proof.
  apply (replaceHardCodedValues_nothing_matched scenarioText [] true
           [CssParser.CssValue CssParser.color "#0066CC" None None;
            CssParser.CssValue CssParser.spacing "16px" None (Some "padding")]).
  - vm_compute. reflexivity.
  - intros v Hv. reflexivity.
Defined.

(** ** Replacing a text that does not occur *)

Lemma replaceFrom_absent (needle repl : list ascii) :
  needle <> [] ->
  forall aft bef : list ascii,
    infixb needle aft = false ->
    Replace.replaceFrom needle repl bef aft 0 = aft.
Proof.
  intros Hne. induction aft as [|c rest IH]; intros bef H.
  - cbn [infixb] in H. apply orb_false_iff in H. destruct H as [Hp _].
    cbn [Replace.replaceFrom]. rewrite Hp. reflexivity.
  - cbn [infixb] in H. apply orb_false_iff in H. destruct H as [Hp Hrest].
    cbn [Replace.replaceFrom]. rewrite Hp. rewrite (IH _ Hrest). reflexivity.
Qed.

(** X19.  Replacing every occurrence of a text that is not empty and does
    not occur leaves the string as it is. *)
Theorem replaceAll_absent :
  forall needle repl s : string,
    needle <> "" ->
    includes s needle = false ->
    Replace.replaceAll needle repl s = s.
Proof.
  intros needle repl s Hne H. unfold Replace.replaceAll.
  rewrite replaceFrom_absent; [apply str_chars| |exact H].
  intros E. apply Hne. apply chars_inj. rewrite E. reflexivity.
Qed.

Lemma replaceAll_absent_witness :
  Replace.replaceAll "14px" "var(--font-size-sm)" "padding: 16px"
  = "padding: 16px".
Proof.
  apply (replaceAll_absent "14px" "var(--font-size-sm)" "padding: 16px").
  - discriminate.
  - reflexivity.
Defined.

(** ** The validation report *)

Lemma flat_map_length_le {A B : Type} (f : A -> list B) (l : list A) :
  (forall a, List.length (f a) <= 1)%nat ->
  (List.length (flat_map f l) <= List.length l)%nat.
Proof.
  intros H. induction l as [|a l IH]; [apply Nat.le_refl|].
  cbn [flat_map]. rewrite length_app. specialize (H a). cbn [List.length]. lia.
Qed.

(** X20.  The report of [validateTokenUsage] is consistent: it counts the
    extracted values as checked, has one issue for each extracted value
    that matches no token with a name and no other issue, counts every
    issue as a hard-coded value, reports no missing token, and is valid
    exactly when it has no issue.  Every issue is a warning on a
    hard-coded value with a suggestion. *)
Theorem validateTokenUsage_report :
  forall (code : string) (tokens : list DesignToken),
  exists report vs,
    Validate.validateTokenUsage code tokens = Some report
    /\ CssParser.extractAllValues code = Some vs
    /\ Validate.totalChecked report = List.length vs
    /\ map Validate.ivalue (Validate.issues report)
       = map CssParser.cvalue
           (filter (fun v =>
                      negb (truthy (CssParser.findMatchingToken
                                      (CssParser.cvalue v) tokens))) vs)
    /\ Validate.issueCount report = List.length (Validate.issues report)
    /\ Validate.hardCodedValues report = Validate.issueCount report
    /\ Validate.missingTokens report = 0%nat
    /\ (Validate.issueCount report <= Validate.totalChecked report)%nat
    /\ (Validate.valid report = true <-> Validate.issues report = [])
    /\ Forall (fun i => Validate.itype i = Validate.hard_coded_value
                        /\ Validate.severity i = Validate.warning
                        /\ Validate.suggestion i <> None)
              (Validate.issues report).
Proof.
  intros code tokens. unfold Validate.validateTokenUsage.
  destruct (extractAllValues_total code) as [vs E]. rewrite E.
  set (issueOf := fun v : CssParser.CSSValue =>
         if truthy (CssParser.findMatchingToken (CssParser.cvalue v) tokens)
         then []
         else [Validate.Issue Validate.hard_coded_value (CssParser.cvalue v)
                 (CssParser.line v) (CssParser.property v)
                 (Some (Validate.suggestTokenForValue v tokens))
                 Validate.warning]).
  assert (Hall : Forall (fun i => Validate.itype i = Validate.hard_coded_value
                                  /\ Validate.severity i = Validate.warning
                                  /\ Validate.suggestion i <> None)
                        (flat_map issueOf vs)).
  { apply Forall_forall. intros i Hi. apply in_flat_map in Hi.
    destruct Hi as [v [_ Hi]]. unfold issueOf in Hi.
    destruct (truthy _); [destruct Hi|]. destruct Hi as [<-|[]].
    repeat split. discriminate. }
  assert (Hhard : filter Validate.isHardCoded (flat_map issueOf vs)
                  = flat_map issueOf vs).
  { apply forallb_filter_id. apply forallb_forall. intros i Hi.
    rewrite Forall_forall in Hall. destruct (Hall i Hi) as [Ht _].
    unfold Validate.isHardCoded. rewrite Ht. reflexivity. }
  eexists. exists vs. split; [reflexivity|]. split; [reflexivity|].
  cbn [Validate.totalChecked Validate.issues Validate.issueCount
         Validate.hardCodedValues Validate.missingTokens Validate.valid].
  split; [reflexivity|]. split.
  { clear. induction vs as [|v vs IH]; [reflexivity|].
    cbn [flat_map filter]. rewrite map_app, IH. unfold issueOf at 1.
    destruct (truthy _); reflexivity. }
  split; [reflexivity|]. split; [rewrite Hhard; reflexivity|].
  split; [reflexivity|]. split.
  { apply flat_map_length_le. intros v. unfold issueOf.
    destruct (truthy _); cbn; lia. }
  split; [|exact Hall].
  rewrite Nat.eqb_eq. split.
  - intros H. apply length_zero_iff_nil. exact H.
  - intros H. rewrite H. reflexivity.
Qed.

Lemma CSSType_eqb_eq (a b : CssParser.CSSType) :
  CssParser.CSSType_eqb a b = true <-> a = b.
Proof. destruct a, b; cbn; split; congruence. Qed.

Lemma CSSType_eqb_sym (a b : CssParser.CSSType) :
  CssParser.CSSType_eqb a b = CssParser.CSSType_eqb b a.
Proof. destruct a, b; reflexivity. Qed.

Lemma groupOf_push (t : CssParser.CSSType) (v : CssParser.CSSValue)
    (grouped : list (CssParser.CSSType * list CssParser.CSSValue)) :
  groupOf t (CssParser.pushGrouped v grouped)
  = if hasType t v
    then Some (match groupOf t grouped with Some l => l | None => [] end
               ++ [v])
    else groupOf t grouped.
Proof.
  unfold groupOf, hasType. induction grouped as [|[k vs] rest IH].
  - cbn. destruct (CssParser.CSSType_eqb (CssParser.type v) t); reflexivity.
  - cbn [CssParser.pushGrouped]. destruct (CssParser.CSSType_eqb k (CssParser.type v)) eqn:Ek.
    + apply CSSType_eqb_eq in Ek. subst k. cbn [find fst].
      destruct (CssParser.CSSType_eqb (CssParser.type v) t); reflexivity.
    + cbn [find fst]. destruct (CssParser.CSSType_eqb k t) eqn:Et.
      * apply CSSType_eqb_eq in Et. subst k.
        rewrite CSSType_eqb_sym, Ek. reflexivity.
      * exact IH.
Qed.

Lemma keys_push (v : CssParser.CSSValue)
    (grouped : list (CssParser.CSSType * list CssParser.CSSValue)) :
  map fst (CssParser.pushGrouped v grouped)
  = if existsb (fun k => CssParser.CSSType_eqb k (CssParser.type v)) (map fst grouped)
    then map fst grouped
    else map fst grouped ++ [CssParser.type v].
Proof.
  induction grouped as [|[k vs] rest IH]; [reflexivity|].
  cbn [CssParser.pushGrouped map fst existsb].
  destruct (CssParser.CSSType_eqb k (CssParser.type v)); [reflexivity|].
  cbn [map fst orb]. rewrite IH.
  destruct (existsb _ _); reflexivity.
Qed.

Lemma groupOf_fold (t : CssParser.CSSType) (values : list CssParser.CSSValue) :
  forall grouped,
    groupOf t (fold_left (fun g v => CssParser.pushGrouped v g) values grouped)
    = match groupOf t grouped, filter (hasType t) values with
      | None, [] => None
      | None, l => Some l
      | Some g, l => Some (g ++ l)
      end.
Proof.
  induction values as [|v values IH]; intros grouped.
  - cbn [fold_left filter]. destruct (groupOf t grouped);
      [rewrite app_nil_r|]; reflexivity.
  - cbn [fold_left filter]. rewrite IH, groupOf_push.
    destruct (hasType t v).
    + destruct (groupOf t grouped) as [g|].
      * rewrite <- app_assoc. reflexivity.
      * reflexivity.
    + reflexivity.
Qed.

Lemma keys_fold_NoDup (values : list CssParser.CSSValue) :
  forall grouped,
    NoDup (map fst grouped) ->
    NoDup (map fst (fold_left (fun g v => CssParser.pushGrouped v g) values grouped)).
Proof.
  induction values as [|v values IH]; intros grouped H; [exact H|].
  cbn [fold_left]. apply IH. rewrite keys_push.
  destruct (existsb _ _) eqn:E; [exact H|].
  apply NoDup_app; [exact H|repeat constructor; intros []|].
  intros k Hk [Hv|[]]. subst k.
  assert (existsb (fun k => CssParser.CSSType_eqb k (CssParser.type v)) (map fst grouped)
          = true); [|congruence].
  apply existsb_exists. exists (CssParser.type v). split; [exact Hk|].
  apply CSSType_eqb_eq. reflexivity.
Qed.

(** X21.  [CssParser.groupValuesByType] has one key for each kind that occurs, and
    none for the other kinds; the group of a kind holds the values of
    that kind, all of them, in the order of the input. *)
Theorem groupValuesByType_groups :
  forall (values : list CssParser.CSSValue) (t : CssParser.CSSType),
    groupOf t (CssParser.groupValuesByType values)
    = match filter (hasType t) values with
      | [] => None
      | l => Some l
      end
    /\ NoDup (map fst (CssParser.groupValuesByType values)).
Proof.
  intros values t. unfold CssParser.groupValuesByType. split.
  - rewrite groupOf_fold. reflexivity.
  - apply keys_fold_NoDup. constructor.
Qed.

Ltac same_block :=
  match goal with
  | |- context [ThemeGenerator.brandField ?b ?f] =>
      destruct (ThemeGenerator.brandField b f) as [| |hex];
      [reflexivity|reflexivity|destruct (String.eqb hex ""); reflexivity]
  end.

Lemma generateColorTokens_blocks (brandColors : ThemeGenerator.BrandColors) :
  ThemeGenerator.generateColorTokens brandColors
  = flat_map (familyBlock brandColors) ThemeGenerator.defaults.
Proof.
  unfold ThemeGenerator.generateColorTokens, ThemeGenerator.mergedEntries,
    ThemeGenerator.defaults.
  cbn [map flat_map fst snd].
  unfold familyBlock, effectiveColor. cbn [fst snd].
  repeat (apply (f_equal2 (@app DesignToken)); [solve [same_block]|]);
    reflexivity.
Qed.

Lemma In_defaults (d : string * string) :
  In d ThemeGenerator.defaults ->
  d = ("primary", "#2D6FDB") \/ d = ("neutral", "#757882")
  \/ d = ("alerts-warning", "#FFD93D") \/ d = ("alerts-danger", "#FF6B94")
  \/ d = ("alerts-info", "#2D6FDB") \/ d = ("alerts-notice", "#6ACF71").
Proof.
  intros [H|[H|[H|[H|[H|[H|[]]]]]]]; subst d; tauto.
Qed.

Ltac each_default H :=
  apply In_defaults in H;
  destruct H as [H|[H|[H|[H|[H|H]]]]]; subst.

(** The tokens of a family do not carry the names of another family. *)
Lemma other_family (d d0 : string * string) (hex comp : string) :
  In d ThemeGenerator.defaults -> In d0 ThemeGenerator.defaults ->
  fst d <> fst d0 ->
  In comp ["h"; "s"; "l"] ->
  find (named ("op-color-" ++ fst d0 ++ "-" ++ comp)) (familyTokens (fst d) hex)
  = None.
Proof.
  intros Hd Hd0 Hne Hc.
  destruct Hc as [<-|[<-|[<-|[]]]];
    each_default Hd; each_default Hd0;
    try (exfalso; apply Hne; reflexivity); reflexivity.
Qed.

Lemma own_family (d0 : string * string) (hex : string) :
  In d0 ThemeGenerator.defaults ->
  find (named ("op-color-" ++ fst d0 ++ "-h")) (familyTokens (fst d0) hex)
  = nth_error (familyTokens (fst d0) hex) 0
  /\ find (named ("op-color-" ++ fst d0 ++ "-s")) (familyTokens (fst d0) hex)
     = nth_error (familyTokens (fst d0) hex) 1
  /\ find (named ("op-color-" ++ fst d0 ++ "-l")) (familyTokens (fst d0) hex)
     = nth_error (familyTokens (fst d0) hex) 2.
Proof.
  intros Hd0. each_default Hd0; repeat split; reflexivity.
Qed.

Lemma find_append {A : Type} (p : A -> bool) (l1 l2 : list A) :
  find p (l1 ++ l2)
  = match find p l1 with Some x => Some x | None => find p l2 end.
Proof.
  induction l1 as [|x l1 IH]; [reflexivity|].
  cbn [app find]. destruct (p x); [reflexivity|exact IH].
Qed.

Lemma find_flat_map_single {A B : Type} (p : B -> bool) (g : A -> list B)
    (key : A -> string) (d0 : A) (l : list A) :
  In d0 l ->
  (forall d, In d l -> key d <> key d0 -> find p (g d) = None) ->
  NoDup (map key l) ->
  find p (flat_map g l) = find p (g d0).
Proof.
  intros Hin Hother Hnd. induction l as [|d l IH]; [destruct Hin|].
  cbn [flat_map]. rewrite find_append.
  cbn [map] in Hnd. inversion Hnd as [|? ? Hnotin Hnd']; subst.
  destruct Hin as [->|Hin].
  - destruct (find p (g d0)) eqn:E; [reflexivity|].
    assert (Hrest : forall d, In d l -> find p (g d) = None).
    { intros d Hd. apply Hother; [right; exact Hd|].
      intros Hk. apply Hnotin. rewrite <- Hk. apply in_map. exact Hd. }
    clear -Hrest. induction l as [|d l IH]; [reflexivity|].
    cbn [flat_map]. rewrite find_append, (Hrest d (or_introl eq_refl)).
    apply IH. intros d' Hd'. apply Hrest. right. exact Hd'.
  - rewrite Hother; [|left; reflexivity|].
    + apply IH; [exact Hin| |exact Hnd'].
      intros d' Hd' Hk. apply Hother; [right; exact Hd'|exact Hk].
    + intros Hk. apply Hnotin. rewrite Hk. apply in_map. exact Hin.
Qed.

(** Looking up a base token name among the custom tokens looks in the
    block of its family only. *)
Lemma find_custom (brandColors : ThemeGenerator.BrandColors)
    (d0 : string * string) (comp : string) :
  In d0 ThemeGenerator.defaults -> In comp ["h"; "s"; "l"] ->
  find (named ("op-color-" ++ fst d0 ++ "-" ++ comp))
       (ThemeGenerator.generateColorTokens brandColors)
  = find (named ("op-color-" ++ fst d0 ++ "-" ++ comp))
         (familyBlock brandColors d0).
Proof.
  intros Hd0 Hc. rewrite generateColorTokens_blocks.
  apply find_flat_map_single with (key := fst).
  - exact Hd0.
  - intros d Hd Hne. unfold familyBlock.
    destruct (effectiveColor brandColors d); [|reflexivity].
    apply other_family; assumption.
  - repeat constructor; cbn; intuition discriminate.
Qed.

Lemma custom_token (brandColors : ThemeGenerator.BrandColors) (ct : DesignToken) :
  In ct (ThemeGenerator.generateColorTokens brandColors) ->
  In (name ct) baseTokenNames /\ category ct = "color".
Proof.
  rewrite generateColorTokens_blocks. intros H. apply in_flat_map in H.
  destruct H as [d [Hd Hct]]. unfold familyBlock in Hct.
  destruct (effectiveColor brandColors d) as [hex|]; [|destruct Hct].
  each_default Hd;
    destruct Hct as [<-|[<-|[<-|[]]]]; (split; [cbn; tauto|reflexivity]).
Qed.

Lemma Forall2_map_r {A : Type} (R : A -> A -> Prop) (g : A -> A) (l : list A) :
  (forall x, In x l -> R x (g x)) -> Forall2 R l (map g l).
Proof.
  induction l as [|x l IH]; intros H; [constructor|].
  cbn [map]. constructor; [apply H; left; reflexivity|].
  apply IH. intros y Hy. apply H. right. exact Hy.
Qed.

Lemma Forall2_same {A : Type} (R : A -> A -> Prop) (l : list A) :
  (forall x, In x l -> R x x) -> Forall2 R l l.
Proof.
  intros H. rewrite <- (map_id l) at 2. apply Forall2_map_r. exact H.
Qed.

(** X22.  Whatever the catalog and the brand colours, the theme has the
    tokens of the catalog, name for name and in the same order; a token
    is either left as it is or replaced by a colour token of the same
    name, and only a token that carries one of the eighteen base names
    can be replaced. *)
Theorem generateTheme_frame :
  forall (catalog : list DesignToken)
         (brandColors : ThemeGenerator.BrandColors),
    map name (ThemeGenerator.generateTheme catalog brandColors)
    = map name catalog
    /\ Forall2 (fun old new =>
                  new = old
                  \/ (In (name old) baseTokenNames
                      /\ name new = name old
                      /\ category new = "color"))
               catalog (ThemeGenerator.generateTheme catalog brandColors).
Proof.
  intros catalog brandColors. unfold ThemeGenerator.generateTheme.
  destruct (0 <? ThemeGenerator.keyCount brandColors)%nat.
  - assert (Hstep : forall token,
              let new :=
                match find (fun ct => String.eqb (name ct) (name token))
                           (ThemeGenerator.generateColorTokens brandColors) with
                | Some customToken => customToken
                | None => token
                end in
              new = token
              \/ (In (name token) baseTokenNames
                  /\ name new = name token /\ category new = "color")).
    { intros token. cbv zeta.
      destruct (find _ _) as [ct|] eqn:E; [|left; reflexivity].
      apply find_some in E. destruct E as [Hin Hn].
      apply String.eqb_eq in Hn.
      destruct (custom_token _ _ Hin) as [Hbase Hcat].
      right. rewrite <- Hn. repeat split; assumption. }
    split.
    + rewrite map_map. apply map_ext. intros token.
      destruct (Hstep token) as [->|[_ [-> _]]]; reflexivity.
    + apply Forall2_map_r. intros token _. apply Hstep.
  - split; [reflexivity|]. apply Forall2_same. intros x _. left. reflexivity.
Qed.

Lemma keyCount_positive (brandColors : ThemeGenerator.BrandColors)
    (d : string * string) :
  In d ThemeGenerator.defaults ->
  ThemeGenerator.brandField brandColors (fst d) <> ThemeGenerator.Absent ->
  (0 <? ThemeGenerator.keyCount brandColors)%nat = true.
Proof.
  intros Hd Hne. apply Nat.ltb_lt. unfold ThemeGenerator.keyCount.
  assert (Hin : In d (filter (fun d =>
                                match ThemeGenerator.brandField brandColors (fst d) with
                                | ThemeGenerator.Absent => false
                                | _ => true
                                end) ThemeGenerator.defaults)).
  { apply filter_In. split; [exact Hd|].
    destruct (ThemeGenerator.brandField brandColors (fst d));
      [contradiction|reflexivity..]. }
  destruct (filter _ _); [destruct Hin|cbn [List.length]; lia].
Qed.

(** X23.  When the brand colours have at least one key, a family whose
    colour is in effect (supplied and not empty, or defaulted because its
    key is missing) has its three base tokens rewritten from that colour:
    the hue as a bare number, the saturation and the lightness as
    percentages, all in the category [color]. *)
Theorem generateTheme_family_replaced :
  forall (catalog : list DesignToken)
         (brandColors : ThemeGenerator.BrandColors)
         (d : string * string) (hex : string),
    In d ThemeGenerator.defaults ->
    (0 < ThemeGenerator.keyCount brandColors)%nat ->
    effectiveColor brandColors d = Some hex ->
    Forall2 (fun old new =>
               (name old = ("op-color-" ++ fst d ++ "-h")%string ->
                nth_error (familyTokens (fst d) hex) 0 = Some new)
               /\ (name old = ("op-color-" ++ fst d ++ "-s")%string ->
                   nth_error (familyTokens (fst d) hex) 1 = Some new)
               /\ (name old = ("op-color-" ++ fst d ++ "-l")%string ->
                   nth_error (familyTokens (fst d) hex) 2 = Some new))
            catalog (ThemeGenerator.generateTheme catalog brandColors).
Proof.
  intros catalog brandColors d hex Hd Hkeys Heff.
  unfold ThemeGenerator.generateTheme.
  apply Nat.ltb_lt in Hkeys. rewrite Hkeys.
  apply Forall2_map_r. intros token _.
  change (fun ct : DesignToken => String.eqb (name ct) (name token))
    with (named (name token)).
  destruct (own_family d hex Hd) as [Oh [Os Ol]].
  repeat split; intros Hn; rewrite Hn.
  - pose proof (find_custom brandColors d "h" Hd) as F.
    change ("-" ++ "h")%string with "-h" in F.
    rewrite F by (cbn; tauto).
    unfold familyBlock. rewrite Heff, Oh. reflexivity.
  - pose proof (find_custom brandColors d "s" Hd) as F.
    change ("-" ++ "s")%string with "-s" in F.
    rewrite F by (cbn; tauto).
    unfold familyBlock. rewrite Heff, Os. reflexivity.
  - pose proof (find_custom brandColors d "l" Hd) as F.
    change ("-" ++ "l")%string with "-l" in F.
    rewrite F by (cbn; tauto).
    unfold familyBlock. rewrite Heff, Ol. reflexivity.
Qed.

Lemma generateTheme_family_replaced_witness :
  Forall2 (fun old new =>
             (name old = "op-color-neutral-h" ->
              nth_error (familyTokens "neutral" "#757882") 0 = Some new)
             /\ (name old = "op-color-neutral-s" ->
                 nth_error (familyTokens "neutral" "#757882") 1 = Some new)
             /\ (name old = "op-color-neutral-l" ->
                 nth_error (familyTokens "neutral" "#757882") 2 = Some new))
          OpticsData.designTokens
          (ThemeGenerator.generateTheme OpticsData.designTokens primaryOnly).
Proof.
  apply (generateTheme_family_replaced OpticsData.designTokens primaryOnly
           ("neutral", "#757882") "#757882").
  - cbn. tauto.
  - cbn. lia.
  - reflexivity.
Defined.

(** X24.  A family whose key holds [undefined] or the empty string is left
    alone: its three base tokens are the catalog's. *)
Theorem generateTheme_family_kept :
  forall (catalog : list DesignToken)
         (brandColors : ThemeGenerator.BrandColors)
         (d : string * string),
    In d ThemeGenerator.defaults ->
    effectiveColor brandColors d = None ->
    Forall2 (fun old new =>
               In (name old) [("op-color-" ++ fst d ++ "-h")%string;
                              ("op-color-" ++ fst d ++ "-s")%string;
                              ("op-color-" ++ fst d ++ "-l")%string] ->
               new = old)
            catalog (ThemeGenerator.generateTheme catalog brandColors).
Proof.
  intros catalog brandColors d Hd Heff.
  unfold ThemeGenerator.generateTheme.
  destruct (0 <? ThemeGenerator.keyCount brandColors)%nat;
    [|apply Forall2_same; intros; reflexivity].
  apply Forall2_map_r. intros token _ Hn.
  change (fun ct : DesignToken => String.eqb (name ct) (name token))
    with (named (name token)).
  assert (Hnone : forall comp, In comp ["h"; "s"; "l"] ->
            find (named ("op-color-" ++ fst d ++ "-" ++ comp))
                 (ThemeGenerator.generateColorTokens brandColors) = None).
  { intros comp Hc. rewrite (find_custom brandColors d comp Hd Hc).
    unfold familyBlock. rewrite Heff. reflexivity. }
  pose proof (Hnone "h") as Fh. pose proof (Hnone "s") as Fs.
  pose proof (Hnone "l") as Fl.
  change ("-" ++ "h")%string with "-h" in Fh.
  change ("-" ++ "s")%string with "-s" in Fs.
  change ("-" ++ "l")%string with "-l" in Fl.
  destruct Hn as [Hn|[Hn|[Hn|[]]]]; rewrite <- Hn.
  - rewrite Fh; [reflexivity|cbn; tauto].
  - rewrite Fs; [reflexivity|cbn; tauto].
  - rewrite Fl; [reflexivity|cbn; tauto].
Qed.

Lemma generateTheme_family_kept_witness :
  Forall2 (fun old new =>
             In (name old) ["op-color-primary-h"; "op-color-primary-s";
                            "op-color-primary-l"] ->
             new = old)
          OpticsData.designTokens
          (ThemeGenerator.generateTheme OpticsData.designTokens emptyPrimary).
Proof.
  apply (generateTheme_family_kept OpticsData.designTokens emptyPrimary
           ("primary", "#2D6FDB")).
  - cbn. tauto.
  - reflexivity.
Defined.

(** ** Grey colours *)

Lemma removeFirstHash_leading (hex : string) :
  forallb is_hex (chars (removeLeadingHash hex)) = true ->
  chars (removeFirstHash hex) = chars (removeLeadingHash hex).
Proof.
  intros Hhex. unfold removeFirstHash. rewrite chars_str.
  destruct (removeLeadingHash_cases hex) as [[rest [E1 E2]]|[_ E]].
  - rewrite E2. subst hex. unfold chars. simpl. reflexivity.
  - rewrite E in Hhex |- *. apply removeFirst_absent.
    rewrite forallb_forall in Hhex |- *. intros c Hc.
    rewrite (is_hex_not_hash c (Hhex c Hc)). reflexivity.
Qed.

Lemma hslOfChannels_equal (x : Q) :
  hslOfChannels (Fin x) (Fin x) (Fin x)
  = ThemeGenerator.Hsl (Int 0) (Int 0)
      (round (mul64 (div64 (add64 (Fin x) (Fin x)) (Fin 2)) (Fin 100))).
Proof.
  unfold hslOfChannels.
  assert (Emax : JsNumber.max (Fin x) (Fin x) = Fin x).
  { unfold JsNumber.max. destruct (lt (Fin x) (Fin x)); reflexivity. }
  assert (Emin : JsNumber.min (Fin x) (Fin x) = Fin x).
  { unfold JsNumber.min. destruct (lt (Fin x) (Fin x)); reflexivity. }
  rewrite !Emax, !Emin.
  assert (Eeq : strictEq (Fin x) (Fin x) = true).
  { cbn [strictEq]. apply Qeq_bool_iff. reflexivity. }
  rewrite Eeq. reflexivity.
Qed.

(** For each of the 256 bytes, the lightness computed in binary64 is the
    exact percentage, rounded. *)
Lemma greys_checked : forallb greyOk (map Z.of_nat (seq 0 256)) = true.
Proof. vm_compute. reflexivity. Qed.

Lemma greyLightness_exact (v : Z) :
  (0 <= v <= 255)%Z ->
  greyLightness v = round (Fin (inject_Z v * 100 / 255)).
Proof.
  intros H. pose proof greys_checked as G. rewrite forallb_forall in G.
  apply integral_eqb_eq. apply (G v).
  replace v with (Z.of_nat (Z.to_nat v)) by lia.
  apply in_map. apply in_seq. lia.
Qed.

(** X25.  A grey, that is a colour whose three hex pairs are the same, has
    hue 0 and saturation 0; its lightness is the pair's value as a
    percentage of 255, rounded. *)
Theorem hexToHSL_grey :
  forall (hex : string) (c1 c2 : ascii),
    is_hex c1 = true -> is_hex c2 = true ->
    chars (removeLeadingHash hex) = [c1; c2; c1; c2; c1; c2] ->
    ThemeGenerator.hexToHSL hex
    = ThemeGenerator.Hsl (Int 0) (Int 0)
        (round (Fin (inject_Z (pairValue c1 c2) * 100 / 255))).
Proof.
  intros hex c1 c2 H1 H2 Hchars. rewrite hexToHSL_channels. cbv zeta.
  assert (Hfirst : chars (removeFirstHash hex) = [c1; c2; c1; c2; c1; c2]).
  { rewrite removeFirstHash_leading; [exact Hchars|].
    rewrite Hchars. cbn [forallb]. rewrite H1, H2. reflexivity. }
  unfold substring. rewrite Hfirst.
  cbn [Nat.sub skipn firstn str string_of_list_ascii].
  destruct (parseInt_hex_digits c1 c2 H1 H2) as [E B].
  unfold pairString in E. rewrite E. cbn [toNum].
  rewrite <- (greyLightness_exact _ B). unfold greyLightness.
  change (div64 (Fin (inject_Z (pairValue c1 c2))) (Fin 255))
    with (channel (pairValue c1 c2)).
  destruct (channel_value _ B) as [Ec _]. rewrite Ec.
  apply hslOfChannels_equal.
Qed.

Lemma hexToHSL_grey_witness :
  ThemeGenerator.hexToHSL "#808080"
  = ThemeGenerator.Hsl (Int 0) (Int 0)
      (round (Fin (inject_Z (pairValue "8" "0") * 100 / 255))).
Proof.
  apply (hexToHSL_grey "#808080" "8"%char "0"%char); reflexivity.
Defined.
